(** * The photo render / pagination pipeline of the love-website page

    A shallow embedding of [src/performance_optimization.js] (class
    [PerformanceOptimizer]) and of the part of [src/logger.js] it talks to
    (class [Logger] with its console interception).

    The browser is single threaded: every handler of the page runs to its next
    suspension point without interruption.  A [World] gathers everything the
    handlers read or write (the optimizer instance, the globals [photos] and
    [logger], the document, the pending asynchronous work, and the record of
    the requests issued so far); each method becomes a function on worlds, an
    [async] method becomes the part before its [await] and the part that is
    resumed when the awaited fetch settles. *)

From stdpp Require Import base option list gmap strings pretty.
From Stdlib Require Import ZArith Lia.

Local Open Scope Z_scope.

(** ** Strings of the source *)

Definition dquote : string := String (Ascii.ascii_of_nat 34) EmptyString.

(** The literal of [tempImg.onerror] (loadImage): an inline SVG. *)
Definition fallbackSrc : string :=
  "data:image/svg+xml,<svg xmlns=" +:+ dquote +:+ "http://www.w3.org/2000/svg" +:+ dquote
  +:+ " width=" +:+ dquote +:+ "200" +:+ dquote
  +:+ " height=" +:+ dquote +:+ "200" +:+ dquote
  +:+ "><text y=" +:+ dquote +:+ "50%" +:+ dquote
  +:+ " x=" +:+ dquote +:+ "50%" +:+ dquote
  +:+ " dominant-baseline=" +:+ dquote +:+ "middle" +:+ dquote
  +:+ " text-anchor=" +:+ dquote +:+ "middle" +:+ dquote
  +:+ " fill=" +:+ dquote +:+ "#999" +:+ dquote
  +:+ ">加载失败</text></svg>".

Definition newline : string := String (Ascii.ascii_of_nat 10) EmptyString.

(** [s] between double quotes. *)
Definition quoted (s : string) : string := dquote +:+ s +:+ dquote.

(** The characters that the HTML parser does not take as they are when a
    text is spliced into markup: [<] and [&] in the content of an element,
    the double quote and [&] in the value of a quoted attribute, and NUL and
    carriage return, which it replaces. *)
Definition markup_char (c : Ascii.ascii) : bool :=
  let n := Ascii.nat_of_ascii c in
  Nat.eqb n 60 || Nat.eqb n 38 || Nat.eqb n 34 || Nat.eqb n 0 || Nat.eqb n 13.

Fixpoint has_markup (s : string) : bool :=
  match s with
  | EmptyString => false
  | String c rest => markup_char c || has_markup rest
  end.

(** A text that HTML takes as it is, as content and as attribute value. *)
Definition plain_text (s : string) : Prop := has_markup s = false.

(** JavaScript's [a || b] on strings: the empty string is falsy. *)
Definition str_or (a b : string) : string :=
  if bool_decide (a = EmptyString) then b else a.

(** [Array.prototype.join(' ')]. *)
Fixpoint join_space (args : list string) : string :=
  match args with
  | [] => EmptyString
  | [a] => a
  | a :: rest => a +:+ " " +:+ join_space rest
  end.

(** ** The logger ([src/logger.js]) *)

Module Logger.

Definition DEBUG : Z := 0.
Definition INFO : Z := 1.
Definition WARN : Z := 2.
Definition ERROR : Z := 3.

(** One entry of [this.logs].  The [timestamp] field of the source is the
    formatted wall-clock time of the call; it is not part of the embedding. *)
Record Log := mkLog { level : Z; category : string; message : string }.

Record t := mk { currentLevel : Z; logs : list Log }.

Definition maxLogs : nat := 500.

(** [addLog]: push, then drop the oldest entry once more than [maxLogs] are
    held.  (The copy written to localStorage and the echo on the original
    console are outputs that nothing here reads back.) *)
Definition addLog (lvl : Z) (cat msg : string) (lg : t) : t :=
  let pushed := logs lg ++ [mkLog lvl cat msg] in
  let kept := if bool_decide (maxLogs < length pushed)%nat then tail pushed else pushed in
  mk (currentLevel lg) kept.

Definition debug (msg cat : string) (lg : t) : t :=
  if bool_decide (currentLevel lg <= DEBUG) then addLog DEBUG cat msg lg else lg.

Definition info (msg cat : string) (lg : t) : t :=
  if bool_decide (currentLevel lg <= INFO) then addLog INFO cat msg lg else lg.

Definition warn (msg cat : string) (lg : t) : t :=
  if bool_decide (currentLevel lg <= WARN) then addLog WARN cat msg lg else lg.

Definition error (msg cat : string) (lg : t) : t :=
  if bool_decide (currentLevel lg <= ERROR) then addLog ERROR cat msg lg else lg.

(** [interceptConsole]: the constructor rebinds [console.error] and
    [console.log], so every call of them first goes through the logger with
    the default category of [error] and [debug]. *)
Definition console_error (args : list string) (lg : t) : t :=
  error (join_space args) "ERROR" lg.

Definition console_log (args : list string) (lg : t) : t :=
  debug (join_space args) "DEBUG" lg.

(** The entries of severity [ERROR] held by the logger. *)
Definition errors (lg : t) : list Log :=
  filter (λ e, level e = ERROR) (logs lg).

End Logger.

(** A JavaScript [Error] value: what [String(error)] and [error.message] read. *)
Record JsError := mkError { err_name : string; err_message : string }.

(** [Error.prototype.toString]. *)
Definition err_toString (e : JsError) : string :=
  if bool_decide (err_name e = EmptyString) then err_message e
  else if bool_decide (err_message e = EmptyString) then err_name e
  else err_name e +:+ ": " +:+ err_message e.

(** ** Data model *)

(** One record of [result.photos]. *)
Record PhotoRecord := mkPhoto {
  photo_id : string;
  photo_type : string;
  photo_message : string;     (* the empty string when the record has none *)
  photo_date : string
}.

(** An [<img>] element created by [createPhotoItem].  Elements live in a store
    ([images] below) and are named by their position in it, so that a handle
    held by the observer or by a pending load still designates the element
    after it has left the document. *)
Record Img := mkImg {
  data_src : string;
  data_full : string;
  alt : string;
  src : string;               (* the empty string while no [src] is set *)
  class_loaded : bool;
  class_optimized : bool;
  style_opacity : string;
  style_filter : string;
  style_transition : string
}.

Inductive Media :=
| MImg (img : nat)                          (* <img data-src=.. data-full=..> *)
| MVideo (video_src poster : string).       (* <video> and the play indicator *)

(** A [div.photo-item].  The record fields are inert text: markup inside a
    caption or an id is outside the embedding. *)
Record PhotoItem := mkItem {
  item_index : nat;
  item_id : string;
  item_observed : bool;                     (* class [observed] *)
  item_media : Media;
  item_caption : string;
  item_date : string;
  item_checkbox_display : string
}.

(** The children of [#photoWall]. *)
Inductive Node :=
| NPhoto (item : PhotoItem)
| NEmpty                                    (* div.photo-empty *)
| NIndicator (display : string)             (* #photoLoadingIndicator *)
| NLoadMore (display text : string).        (* #loadMorePhotosBtn *)

(** [photoWall] is [None] on a page without the container. *)
Record Document := mkDoc {
  photoWall : option (list Node);
  images : list Img
}.

Record Optimizer := mkOpt {
  lazyLoadObserver : option (gset nat);     (* the elements under observation *)
  currentPage : Z;
  perPage : Z;
  isLoading : bool;
  hasMore : bool;
  loadedPhotos : gset string
}.

(** What the environment answers to a listing fetch. *)
Inductive Response :=
| NetworkError (e : JsError)                (* [fetch] rejects *)
| BadStatus                                 (* [response.ok] is false *)
| BadBody (e : JsError)                     (* [response.json()] rejects *)
| Listing (photos : list PhotoRecord) (has_more : bool).

(** Requests handed to the network. [GetImage url (Some n)] is the temporary
    image that [loadImage] creates for element [n]; [GetImage url None] is an
    image that belongs to no element (prefetch). *)
Inductive Request :=
| GetListing (page per_page : Z)
| GetImage (url : string) (target : option nat).

(** Suspended work: an [await] or a pending image or timer callback. *)
Inductive Task :=
| AwaitListing (page : Z) (append : bool)   (* loadPhotosPaginated *)
| AwaitPreload                              (* preloadNextPage *)
| TempImage (img : nat) (url : string)      (* loadImage *)
| ProgressiveImage (img : nat) (url : string)  (* loadProgressiveImage *)
| Unblur (img : nat).                       (* its setTimeout(.., 100) *)

Record World := mkWorld {
  this : Optimizer;
  photos : list PhotoRecord;                (* the global [photos] *)
  logger : Logger.t;                        (* the global [logger] *)
  document : Document;
  tasks : list Task;
  network : list Request;
  inThrottle : bool                         (* of the scroll handler's throttle *)
}.

(** *** Field updates *)

Definition with_this (o : Optimizer) (w : World) : World :=
  mkWorld o (photos w) (logger w) (document w) (tasks w) (network w) (inThrottle w).
Definition with_photos (ps : list PhotoRecord) (w : World) : World :=
  mkWorld (this w) ps (logger w) (document w) (tasks w) (network w) (inThrottle w).
Definition with_logger (lg : Logger.t) (w : World) : World :=
  mkWorld (this w) (photos w) lg (document w) (tasks w) (network w) (inThrottle w).
Definition with_document (d : Document) (w : World) : World :=
  mkWorld (this w) (photos w) (logger w) d (tasks w) (network w) (inThrottle w).
Definition with_tasks (ts : list Task) (w : World) : World :=
  mkWorld (this w) (photos w) (logger w) (document w) ts (network w) (inThrottle w).
Definition with_network (rs : list Request) (w : World) : World :=
  mkWorld (this w) (photos w) (logger w) (document w) (tasks w) rs (inThrottle w).
Definition with_inThrottle (b : bool) (w : World) : World :=
  mkWorld (this w) (photos w) (logger w) (document w) (tasks w) (network w) b.

Definition set_observer (obs : option (gset nat)) (o : Optimizer) : Optimizer :=
  mkOpt obs (currentPage o) (perPage o) (isLoading o) (hasMore o) (loadedPhotos o).
Definition set_isLoading (b : bool) (o : Optimizer) : Optimizer :=
  mkOpt (lazyLoadObserver o) (currentPage o) (perPage o) b (hasMore o) (loadedPhotos o).
Definition set_hasMore (b : bool) (o : Optimizer) : Optimizer :=
  mkOpt (lazyLoadObserver o) (currentPage o) (perPage o) (isLoading o) b (loadedPhotos o).
Definition set_currentPage (p : Z) (o : Optimizer) : Optimizer :=
  mkOpt (lazyLoadObserver o) p (perPage o) (isLoading o) (hasMore o) (loadedPhotos o).

Definition set_wall (children : list Node) (d : Document) : Document :=
  mkDoc (Some children) (images d).
Definition set_images (imgs : list Img) (d : Document) : Document :=
  mkDoc (photoWall d) imgs.

(** ** Reading the document *)

Definition is_indicator (n : Node) : bool :=
  match n with NIndicator _ => true | _ => false end.
Definition is_loadMore (n : Node) : bool :=
  match n with NLoadMore _ _ => true | _ => false end.
Definition wall_children (d : Document) : list Node := default [] (photoWall d).

(** [document.getElementById]: the first element that carries the id. *)
Definition getIndicator (d : Document) : option Node :=
  head (filter (λ n, is_indicator n = true) (wall_children d)).
Definition getLoadMoreBtn (d : Document) : option Node :=
  head (filter (λ n, is_loadMore n = true) (wall_children d)).

(** The [div.photo-item] elements among some children, in document order,
    and those of the page. *)
Definition items_of (children : list Node) : list PhotoItem :=
  omap (λ n, match n with NPhoto it => Some it | _ => None end) children.

Definition photo_items (d : Document) : list PhotoItem := items_of (wall_children d).

(** [item.querySelector('img[data-src]')]. *)
Definition item_img (it : PhotoItem) : option nat :=
  match item_media it with MImg i => Some i | MVideo _ _ => None end.

(** Apply [f] to the first node selected by [sel]: an assignment through the
    element that [getElementById] returned. *)
Fixpoint update_first (sel : Node → bool) (f : Node → Node) (l : list Node) : list Node :=
  match l with
  | [] => []
  | n :: rest => if sel n then f n :: rest else n :: update_first sel f rest
  end.

Definition set_display (disp : string) (n : Node) : Node :=
  match n with
  | NIndicator _ => NIndicator disp
  | NLoadMore _ txt => NLoadMore disp txt
  | _ => n
  end.

Definition set_text (txt : string) (n : Node) : Node :=
  match n with
  | NLoadMore disp _ => NLoadMore disp txt
  | _ => n
  end.

(** The "load more" button is on display when the element with its id
    exists and is displayed as a block. *)
Definition loadMore_shown (d : Document) : bool :=
  match getLoadMoreBtn d with
  | Some (NLoadMore disp _) => bool_decide (disp = "block")
  | _ => false
  end.

(** The loading indicator, and likewise the button, is hidden when the
    element is absent from the page or its display is [none]. *)
Definition indicator_hidden (d : Document) : bool :=
  match getIndicator d with
  | Some (NIndicator disp) => bool_decide (disp = "none")
  | _ => true
  end.

Definition loadMore_hidden (d : Document) : bool :=
  match getLoadMoreBtn d with
  | Some (NLoadMore disp _) => bool_decide (disp = "none")
  | _ => true
  end.

(** ** The methods of [PerformanceOptimizer] *)

Section Pipeline.

(** [SERVER_CONFIG.baseUrl] and [photoBatchMode] are globals defined outside
    the files at hand; [io_supported] is ['IntersectionObserver' in window]. *)
Variable baseUrl : string.
Variable photoBatchMode : bool.
Variable io_supported : bool.

Definition thumbnailUrl (id : string) : string :=
  baseUrl +:+ "/api/photos/" +:+ id +:+ "/thumbnail".
Definition fullUrl (id : string) : string :=
  baseUrl +:+ "/api/photos/" +:+ id +:+ "/data".

(** The string that createPhotoItem assigns to [div.innerHTML] (lines
    154-174): the template with the fields of the record spliced in as they
    are, nothing escaped. *)
Definition createPhotoItem_innerHTML (photo : PhotoRecord) : string :=
  newline
  +:+ "            <div class=" +:+ quoted "photo-inner" +:+ ">" +:+ newline
  +:+ "                <div class=" +:+ quoted "photo-img-wrapper" +:+ ">" +:+ newline
  +:+ "                    "
  +:+ (if bool_decide (photo_type photo = "video") then
         "<video src=" +:+ quoted (fullUrl (photo_id photo))
         +:+ " class=" +:+ quoted "photo-video"
         +:+ " muted loop preload=" +:+ quoted "none"
         +:+ " poster=" +:+ quoted (thumbnailUrl (photo_id photo)) +:+ "></video>" +:+ newline
         +:+ "                           <div class=" +:+ quoted "video-indicator"
         +:+ ">▶️</div>"
       else
         "<img data-src=" +:+ quoted (thumbnailUrl (photo_id photo))
         +:+ " data-full=" +:+ quoted (fullUrl (photo_id photo))
         +:+ " alt=" +:+ quoted (str_or (photo_message photo) "照片")
         +:+ " class=" +:+ quoted "photo-img"
         +:+ " style=" +:+ quoted "opacity: 0; transition: opacity 0.3s;" +:+ ">")
  +:+ newline
  +:+ "                </div>" +:+ newline
  +:+ "                <div class=" +:+ quoted "photo-actions" +:+ ">" +:+ newline
  +:+ "                    <button class=" +:+ quoted "photo-action-btn photo-download-btn"
  +:+ " title=" +:+ quoted "下载" +:+ ">⬇️</button>" +:+ newline
  +:+ "                    <button class=" +:+ quoted "photo-action-btn photo-edit-btn"
  +:+ " title=" +:+ quoted "编辑" +:+ ">✏️</button>" +:+ newline
  +:+ "                    <button class=" +:+ quoted "photo-action-btn photo-delete-btn"
  +:+ " title=" +:+ quoted "删除" +:+ ">🗑️</button>" +:+ newline
  +:+ "                </div>" +:+ newline
  +:+ "            </div>" +:+ newline
  +:+ "            <p class=" +:+ quoted "photo-caption" +:+ ">"
  +:+ str_or (photo_message photo) EmptyString +:+ "</p>" +:+ newline
  +:+ "            <p class=" +:+ quoted "photo-date" +:+ ">" +:+ photo_date photo
  +:+ "</p>" +:+ newline
  +:+ "            <div class=" +:+ quoted "photo-checkbox"
  +:+ " style=" +:+ quoted ("display: " +:+ (if photoBatchMode then "flex" else "none"))
  +:+ ">" +:+ newline
  +:+ "                <input type=" +:+ quoted "checkbox"
  +:+ " class=" +:+ quoted "batch-checkbox"
  +:+ " data-id=" +:+ quoted (photo_id photo) +:+ ">" +:+ newline
  +:+ "            </div>" +:+ newline
  +:+ "        ".

(** The records for which the elements of the new [div] are the ones that
    the template names: no text spliced in holds a character that the HTML
    parser reads as markup. *)
Definition plain_record (photo : PhotoRecord) : Prop :=
  plain_text (photo_id photo) ∧ plain_text (photo_message photo)
  ∧ plain_text (photo_date photo).

Definition plain_records (photosList : list PhotoRecord) : Prop :=
  plain_text baseUrl ∧ Forall plain_record photosList.

(** [createPhotoItem(photo, index)]: the new [div], and the image store
    extended by the [<img>] of a record that is not a video.  The [div] is
    described by the elements that the template names, with the fields of the
    record as their attributes and text.  That is what the parser makes of
    [createPhotoItem_innerHTML] for a [plain_record]; a field with markup in
    it is parsed as such and can bring elements and attributes of its own,
    which this description does not follow. *)
Definition createPhotoItem (photo : PhotoRecord) (index : nat) (imgs : list Img)
  : PhotoItem * list Img :=
  let checkbox := if photoBatchMode then "flex" else "none" in
  let item m :=
    mkItem index (photo_id photo) false m (str_or (photo_message photo) EmptyString)
           (photo_date photo) checkbox in
  if bool_decide (photo_type photo = "video") then
    (item (MVideo (fullUrl (photo_id photo)) (thumbnailUrl (photo_id photo))), imgs)
  else
    (item (MImg (length imgs)),
     imgs ++ [mkImg (thumbnailUrl (photo_id photo)) (fullUrl (photo_id photo))
                    (str_or (photo_message photo) "照片")
                    EmptyString false false "0" EmptyString "opacity 0.3s"]).

(** The [forEach] of renderPhotosOptimized, from index [index] on. *)
Fixpoint createItems (photosList : list PhotoRecord) (index : nat) (imgs : list Img)
  : list PhotoItem * list Img :=
  match photosList with
  | [] => ([], imgs)
  | photo :: rest =>
      let '(item, imgs1) := createPhotoItem photo index imgs in
      let '(items, imgs2) := createItems rest (S index) imgs1 in
      (item :: items, imgs2)
  end.

(** The images that the registration loop hands to the observer: the
    [img[data-src]] of every [.photo-item:not(.observed)]. *)
Definition unobserved_imgs (children : list Node) : list nat :=
  omap (λ it, if item_observed it then None else item_img it) (items_of children).

Definition mark_observed (n : Node) : Node :=
  match n with
  | NPhoto it =>
      NPhoto (mkItem (item_index it) (item_id it) true (item_media it)
                     (item_caption it) (item_date it) (item_checkbox_display it))
  | _ => n
  end.

(** [renderPhotosOptimized(photosList, append)]. *)
Definition renderPhotosOptimized (photosList : list PhotoRecord) (append : bool) (w : World)
  : World :=
  match photoWall (document w) with
  | None => w
  | Some children =>
      let cleared := if append then children else [] in
      if bool_decide (length photosList = 0%nat) && negb append then
        with_document (set_wall [NEmpty] (document w)) w
      else
        let '(items, imgs) := createItems photosList 0 (images (document w)) in
        let appended := cleared ++ (NPhoto <$> items) in
        match lazyLoadObserver (this w) with
        | None => with_document (mkDoc (Some appended) imgs) w
        | Some obs =>
            with_this
              (set_observer (Some (obs ∪ list_to_set (unobserved_imgs appended))) (this w))
              (with_document (mkDoc (Some (mark_observed <$> appended)) imgs) w)
        end
  end.

(** [showLoadingIndicator()]: a new indicator is appended to the wall when
    there is one; on a page without wall it stays detached. *)
Definition showLoadingIndicator (w : World) : World :=
  match photoWall (document w) with
  | None => w
  | Some children =>
      let children1 :=
        match getIndicator (document w) with
        | Some _ => children
        | None => children ++ [NIndicator "none"]
        end in
      with_document
        (set_wall (update_first is_indicator (set_display "block") children1) (document w)) w
  end.

(** [hideLoadingIndicator()]. *)
Definition hideLoadingIndicator (w : World) : World :=
  match photoWall (document w) with
  | None => w
  | Some children =>
      with_document
        (set_wall (update_first is_indicator (set_display "none") children) (document w)) w
  end.

Definition loadMoreText : string := "加载更多...".

(** [updateLoadMoreButton()]. *)
Definition updateLoadMoreButton (w : World) : World :=
  match photoWall (document w) with
  | None => w
  | Some children =>
      if hasMore (this w) then
        let children1 :=
          match getLoadMoreBtn (document w) with
          | Some _ => children
          | None => children ++ [NLoadMore EmptyString loadMoreText]
          end in
        with_document
          (set_wall
             (update_first is_loadMore (λ n, set_text loadMoreText (set_display "block" n))
                children1)
             (document w)) w
      else
        with_document
          (set_wall (update_first is_loadMore (set_display "none") children) (document w)) w
  end.

(** The [catch] clause of loadPhotosPaginated: [console.error] (which the
    logger intercepts) and then [logger.error]. *)
Definition catchLoad (e : JsError) (w : World) : World :=
  let lg1 := Logger.console_error ["分页加载失败:"; err_toString e] (logger w) in
  let lg2 := Logger.error ("分页加载失败: " +:+ err_message e) "PERFORMANCE" lg1 in
  with_logger lg2 w.

(** [loadPhotosPaginated(page, append)] up to its [await fetch(..)]. *)
Definition loadPhotosPaginated (page : Z) (append : bool) (w : World) : World :=
  if isLoading (this w) then w
  else
    let w1 := showLoadingIndicator (with_this (set_isLoading true (this w)) w) in
    with_tasks (tasks w1 ++ [AwaitListing page append])
      (with_network (network w1 ++ [GetListing page (perPage (this w1))]) w1).

(** The [try] block after the fetch has settled with [r]. A record list of
    the right shape cannot make the renderer throw, so the only exits through
    [catch] are the three failures. *)
Definition tryLoad (page : Z) (append : bool) (r : Response) (w : World) : World :=
  match r with
  | NetworkError e => catchLoad e w
  | BadStatus => catchLoad (mkError "Error" "加载照片失败") w
  | BadBody e => catchLoad e w
  | Listing result_photos has_more =>
      let w1 := with_photos (if append then photos w ++ result_photos else result_photos) w in
      let w2 := with_this (set_currentPage page (set_hasMore has_more (this w1))) w1 in
      updateLoadMoreButton (renderPhotosOptimized result_photos append w2)
  end.

(** The rest of loadPhotosPaginated: [try], [catch], and the [finally]. *)
Definition resumeLoad (page : Z) (append : bool) (r : Response) (w : World) : World :=
  let w1 := tryLoad page append r w in
  hideLoadingIndicator (with_this (set_isLoading false (this w1)) w1).

(** [preloadNextPage()] up to its [await fetch(..)]. *)
Definition preloadNextPage (w : World) : World :=
  if negb (hasMore (this w)) || isLoading (this w) then w
  else
    with_tasks (tasks w ++ [AwaitPreload])
      (with_network
         (network w ++ [GetListing (currentPage (this w) + 1) (perPage (this w))]) w).

(** The rest of preloadNextPage: one detached [Image] per record of a
    successful answer; a rejection is reported with [console.log]. *)
Definition resumePreload (r : Response) (w : World) : World :=
  match r with
  | Listing result_photos _ =>
      with_network
        (network w ++ ((λ p, GetImage (thumbnailUrl (photo_id p)) None) <$> result_photos)) w
  | BadStatus => w
  | NetworkError e | BadBody e =>
      with_logger (Logger.console_log ["预加载失败:"; err_toString e] (logger w)) w
  end.

(** *** The lazy loader *)

Definition update_img (f : Img → Img) (i : nat) (w : World) : World :=
  with_document (set_images (alter f i (images (document w))) (document w)) w.

(** [loadImage(img)]. The elements of this pipeline carry no [data-lazy], so
    [img.dataset.src || img.dataset.lazy] is [data-src] or undefined. *)
Definition loadImage (i : nat) (w : World) : World :=
  match images (document w) !! i with
  | None => w
  | Some img =>
      let url := data_src img in
      if bool_decide (url = EmptyString) then w
      else
        with_tasks (tasks w ++ [TempImage i url])
          (with_network (network w ++ [GetImage url (Some i)]) w)
  end.

(** [tempImg.onload] and [tempImg.onerror] of loadImage: what they assign on
    the element, and the handlers. *)
Definition on_load (url : string) (img : Img) : Img :=
  mkImg (data_src img) (data_full img) (alt img) url true
        (class_optimized img) "1" (style_filter img) (style_transition img).

Definition on_error (img : Img) : Img :=
  mkImg (data_src img) (data_full img) (alt img) fallbackSrc
        (class_loaded img) (class_optimized img) (style_opacity img)
        (style_filter img) (style_transition img).

Definition tempImg_onload (i : nat) (url : string) (w : World) : World :=
  update_img (on_load url) i w.

Definition tempImg_onerror (i : nat) (w : World) : World :=
  update_img on_error i w.

Definition observe (i : nat) (o : Optimizer) : Optimizer :=
  set_observer ((λ obs, obs ∪ {[i]}) <$> lazyLoadObserver o) o.
Definition unobserve (i : nat) (o : Optimizer) : Optimizer :=
  set_observer ((λ obs, obs ∖ {[i]}) <$> lazyLoadObserver o) o.

(** The callback handed to [new IntersectionObserver(..)] in initLazyLoad. *)
Definition observerCallback (entries : list (nat * bool)) (w : World) : World :=
  foldl (λ (w : World) (entry : nat * bool),
           if entry.2 then
             let w1 := loadImage entry.1 w in
             with_this (unobserve entry.1 (this w1)) w1
           else w)
        w entries.

(** The [img] elements of the page ([img[data-src]], [.photo-img]). *)
Definition page_imgs (d : Document) : list nat := omap item_img (photo_items d).

(** [observeImages()]. *)
Definition observeImages (w : World) : World :=
  with_this (foldl (λ (o : Optimizer) (i : nat), observe i o) (this w) (page_imgs (document w))) w.

(** [initLazyLoad()]. *)
Definition initLazyLoad (w : World) : World :=
  if io_supported then observeImages (with_this (set_observer (Some ∅) (this w)) w)
  else w.

(** [loadProgressiveImage(imgElement)] up to the start of the load, its
    [tempImg.onload] (there is no [onerror]), and the timer of the latter. *)
Definition loadProgressiveImage (i : nat) (w : World) : World :=
  match images (document w) !! i with
  | None => w
  | Some img =>
      let url := str_or (data_src img) (src img) in
      if bool_decide (url = EmptyString) then w
      else
        let w1 :=
          update_img (λ img, mkImg (data_src img) (data_full img) (alt img) (src img)
                                   (class_loaded img) (class_optimized img)
                                   (style_opacity img) "blur(10px)"
                                   (style_transition img)) i w in
        with_tasks (tasks w1 ++ [ProgressiveImage i url])
          (with_network (network w1 ++ [GetImage url (Some i)]) w1)
  end.

Definition progressive_onload (i : nat) (url : string) (w : World) : World :=
  let w1 :=
    update_img (λ img, mkImg (data_src img) (data_full img) (alt img) url
                             (class_loaded img) (class_optimized img)
                             (style_opacity img) (style_filter img)
                             (style_transition img)) i w in
  with_tasks (tasks w1 ++ [Unblur i]) w1.

Definition progressive_timeout (i : nat) (w : World) : World :=
  update_img (λ img, mkImg (data_src img) (data_full img) (alt img) (src img)
                           (class_loaded img) (class_optimized img)
                           (style_opacity img) "blur(0)" "filter 0.3s") i w.

(** [optimizeExistingImages()]. *)
Definition optimizeExistingImages (w : World) : World :=
  foldl (λ (w : World) (i : nat),
           match images (document w) !! i with
           | Some img =>
               if class_optimized img then w
               else
                 loadProgressiveImage i
                   (update_img (λ img, mkImg (data_src img) (data_full img) (alt img)
                                             (src img) (class_loaded img) true
                                             (style_opacity img) (style_filter img)
                                             (style_transition img)) i w)
           | None => w
           end)
        w (page_imgs (document w)).

(** *** The scroll trigger *)

(** The function that optimizeScroll wraps in [throttle]. *)
Definition scrollCheck (scrollTop windowHeight documentHeight : Z) (w : World) : World :=
  if bool_decide (documentHeight - 500 <= scrollTop + windowHeight) then
    if hasMore (this w) && negb (isLoading (this w)) then
      loadPhotosPaginated (currentPage (this w) + 1) true w
    else w
  else w.

(** The throttled handler registered for [scroll], and the timer that
    re-arms it after 200ms. *)
Definition scrollHandler (scrollTop windowHeight documentHeight : Z) (w : World) : World :=
  if inThrottle w then w
  else with_inThrottle true (scrollCheck scrollTop windowHeight documentHeight w).

Definition throttleTimeout (w : World) : World := with_inThrottle false w.

(** [btn.onclick] of the button made by updateLoadMoreButton. *)
Definition loadMore_onclick (w : World) : World :=
  loadPhotosPaginated (currentPage (this w) + 1) true w.

(** *** Start of the page *)

(** [init()]; optimizeScroll only registers [scrollHandler]. *)
Definition init (w : World) : World :=
  let w1 := with_logger (Logger.info "性能优化模块初始化" "PERFORMANCE" (logger w)) w in
  let w2 := optimizeExistingImages (initLazyLoad w1) in
  with_logger (Logger.info "性能优化模块初始化完成" "PERFORMANCE" (logger w2)) w2.

(** The page as the scripts find it: with or without the [#photoWall]
    container (which holds nothing yet), the logger and the global [photos]
    as the earlier scripts left them. *)
Record Page := mkPage {
  page_wall : bool;
  page_logger : Logger.t;
  page_photos : list PhotoRecord
}.

(** The world after [new PerformanceOptimizer()]. *)
Definition fresh (pg : Page) : World :=
  mkWorld (mkOpt None 1 20 false true ∅) (page_photos pg) (page_logger pg)
          (mkDoc (if page_wall pg then Some [] else None) []) [] [] false.

(** The last statement of the module runs [init()] once, when the document
    has been parsed; the page asks for its first listing after that. *)
Definition boot (pg : Page) : World := init (fresh pg).

(** *** Events *)

(** What can happen on the page after the start. [Settled], [ImageLoad],
    [ImageError] and [UnblurTimeout] name the pending task they complete by its
    position in [tasks]. *)
Inductive Event :=
| Call_loadPhotosPaginated (page : Z) (append : bool)
| Call_preloadNextPage
| Click_loadMore
| Scrolled (scrollTop windowHeight documentHeight : Z)
| ThrottleTimeout
| Settled (k : nat) (r : Response)
| Intersection (entries : list (nat * bool))
| ImageLoad (k : nat)
| ImageError (k : nat)
| UnblurTimeout (k : nat).

Definition drop_task (k : nat) (w : World) : World := with_tasks (delete k (tasks w)) w.

(** The detector reports registered elements only, each at most once in a
    delivery. *)
Definition deliverable (obs : gset nat) (entries : list (nat * bool)) : bool :=
  bool_decide (NoDup entries.*1 ∧ Forall (λ i, i ∈ obs) entries.*1).

(** One handler run. An event that cannot happen in [w] (no such task, the
    button not on display, the throttle timer not armed, ...) leaves [w] as
    it is. *)
Definition step (w : World) (e : Event) : World :=
  match e with
  | Call_loadPhotosPaginated page append => loadPhotosPaginated page append w
  | Call_preloadNextPage => preloadNextPage w
  | Click_loadMore => if loadMore_shown (document w) then loadMore_onclick w else w
  | Scrolled st wh dh => scrollHandler st wh dh w
  | ThrottleTimeout => if inThrottle w then throttleTimeout w else w
  | Settled k r =>
      match tasks w !! k with
      | Some (AwaitListing page append) => resumeLoad page append r (drop_task k w)
      | Some AwaitPreload => resumePreload r (drop_task k w)
      | _ => w
      end
  | Intersection entries =>
      match lazyLoadObserver (this w) with
      | Some obs => if deliverable obs entries then observerCallback entries w else w
      | None => w
      end
  | ImageLoad k =>
      match tasks w !! k with
      | Some (TempImage i url) => tempImg_onload i url (drop_task k w)
      | Some (ProgressiveImage i url) => progressive_onload i url (drop_task k w)
      | _ => w
      end
  | ImageError k =>
      match tasks w !! k with
      | Some (TempImage i url) => tempImg_onerror i (drop_task k w)
      | Some (ProgressiveImage i url) => drop_task k w
      | _ => w
      end
  | UnblurTimeout k =>
      match tasks w !! k with
      | Some (Unblur i) => progressive_timeout i (drop_task k w)
      | _ => w
      end
  end.

Definition run (w : World) (es : list Event) : World := foldl step w es.

End Pipeline.

(** ** The rest of the logger ([src/logger.js]) *)

Module LoggerOps.

(** [console.warn] as interceptConsole rebinds it. *)
Definition console_warn (args : list string) (lg : Logger.t) : Logger.t :=
  Logger.warn (join_space args) "WARN" lg.

(** [setLevel(level)] with a number; the copy in localStorage is read by the
    constructor of the next page only. *)
Definition setLevel (lvl : Z) (lg : Logger.t) : Logger.t :=
  Logger.mk lvl (Logger.logs lg).

Definition getLogs (lg : Logger.t) : list Logger.Log := Logger.logs lg.

Definition clearLogs (lg : Logger.t) : Logger.t :=
  Logger.mk (Logger.currentLevel lg) [].

(** The entries that refreshPanel writes into [#logContent], in order. *)
Definition refreshPanel (lg : Logger.t) : list Logger.Log :=
  filter (λ e, Logger.currentLevel lg <= Logger.level e) (Logger.logs lg).

(** The ways in which the page reaches the logger: its four methods, the
    three intercepted console methods, and the buttons of the panel. *)
Inductive Call :=
| Debug (msg cat : string)
| Info (msg cat : string)
| Warn (msg cat : string)
| Error (msg cat : string)
| ConsoleLog (args : list string)
| ConsoleWarn (args : list string)
| ConsoleError (args : list string)
| SetLevel (lvl : Z)
| ClearLogs.

Definition call (lg : Logger.t) (c : Call) : Logger.t :=
  match c with
  | Debug msg cat => Logger.debug msg cat lg
  | Info msg cat => Logger.info msg cat lg
  | Warn msg cat => Logger.warn msg cat lg
  | Error msg cat => Logger.error msg cat lg
  | ConsoleLog args => Logger.console_log args lg
  | ConsoleWarn args => console_warn args lg
  | ConsoleError args => Logger.console_error args lg
  | SetLevel lvl => setLevel lvl lg
  | ClearLogs => clearLogs lg
  end.

Definition calls (lg : Logger.t) (cs : list Call) : Logger.t := foldl call lg cs.

(** Calls that write entries, as opposed to the buttons of the panel. *)
Definition logging (c : Call) : Prop :=
  match c with SetLevel _ | ClearLogs => False | _ => True end.

(** [addLog] once per entry, in order. *)
Definition addLogs (lg : Logger.t) (es : list Logger.Log) : Logger.t :=
  foldl (λ lg e, Logger.addLog (Logger.level e) (Logger.category e) (Logger.message e) lg)
        lg es.

End LoggerOps.

(** ** Strings, continued *)

(** [s.split(sep)] for a separator of one character. *)
Fixpoint split (sep : Ascii.ascii) (s : string) : list string :=
  match s with
  | EmptyString => [EmptyString]
  | String c rest =>
      if bool_decide (c = sep) then EmptyString :: split sep rest
      else match split sep rest with
           | [] => [String c EmptyString]
           | x :: xs => String c x :: xs
           end
  end.

Definition comma : Ascii.ascii := Ascii.ascii_of_nat 44.

(** [s] without the prefix [p], when it starts with it. *)
Fixpoint strip_prefix (p s : string) : option string :=
  match p, s with
  | EmptyString, _ => Some s
  | String a p', String b s' => if bool_decide (a = b) then strip_prefix p' s' else None
  | String _ _, EmptyString => None
  end.

(** [Math.round(a / b)] for integers [a >= 0] and [b > 0], as long as the
    double arithmetic of the source is exact enough: the nearest integer of the
    quotient, halves up.  In compressImage [a] is a product of two pixel
    counts and the quotient is at most [maxSize].  While all three sizes are
    below 2^26 the product is below 2^52 and exact, the quotient is below
    2^26, so the correctly rounded double is within 2^-28 of it, and the
    quotient, when it is no half, is more than 2^-27 away from every half:
    the double lies on the same side of every half and [Math.round] gives
    this value.  Beyond that range the double can round across a half and
    the source can differ by one; what is proved of this function is stated
    within the range. *)
Definition round_div (a b : Z) : Z := (2 * a + b) / (2 * b).

(** ** The static storage of the GitHub Pages mode
    ([src/performance_optimization.js], class [GitHubPagesStorage]) *)

Module GitHubPagesStorage.

(** An entry of [this.photos], and of [data/photos_metadata.json]. *)
Record Photo := mkPhoto {
  id : string;
  type : string;
  message : string;
  filename : string;
  thumbnail : string;
  date : string;
  timestamp : string
}.

(** The element [#ghPagesUploadProgress]. *)
Record Progress := mkProgress { percent : Z; display : string }.

(** What the page hands to the browser as a download: the [photos.json] of
    savePhotosList, with the list it serialises (its [updated] field is the
    time of the call). *)
Inductive Download := PhotosJson (photos : list Photo).

(** The panel of showSaveInstructions: the record and the two payloads that
    its buttons pass to [downloadPhoto] and [downloadThumbnail]; a payload
    that is [undefined] is [None]. *)
Record Instructions := mkInstructions {
  instr_photo : Photo;
  instr_base64 : option string;
  instr_thumbnailBase64 : option string
}.

(** A value a promise rejects with, or that is thrown: an [Error], or the
    event that [reader.onerror] and [img.onerror] pass to [reject]. *)
Inductive Reason := Err (e : JsError) | Evt (event_type : string).

(** A line of the console: here, the [console.error] of a failed upload. *)
Inductive ConsoleLine := ConsoleError (label : string) (r : Reason).

(** The instance and what it shows on the page.  The class defines no method
    [fetch]; [has_fetch] tells whether the instance was given one from
    outside. *)
Record t := mk {
  photos : list Photo;
  has_fetch : bool;
  ghPagesUploadProgress : option Progress;
  downloads : list Download;
  instructions : list Instructions;
  console : list ConsoleLine;
  hide_timers : nat
}.

Definition photosDir : string := "images".
Definition thumbnailsDir : string := "thumbnails".

(** The state after [new GitHubPagesStorage()] on a page that shows nothing
    of it yet. *)
Definition fresh : t := mk [] false None [] [] [] 0.

Definition with_photos (ps : list Photo) (s : t) : t :=
  mk ps (has_fetch s) (ghPagesUploadProgress s) (downloads s) (instructions s)
     (console s) (hide_timers s).
Definition with_progress (p : option Progress) (s : t) : t :=
  mk (photos s) (has_fetch s) p (downloads s) (instructions s) (console s) (hide_timers s).
Definition with_downloads (ds : list Download) (s : t) : t :=
  mk (photos s) (has_fetch s) (ghPagesUploadProgress s) ds (instructions s)
     (console s) (hide_timers s).
Definition with_instructions (l : list Instructions) (s : t) : t :=
  mk (photos s) (has_fetch s) (ghPagesUploadProgress s) (downloads s) l
     (console s) (hide_timers s).
Definition with_console (l : list ConsoleLine) (s : t) : t :=
  mk (photos s) (has_fetch s) (ghPagesUploadProgress s) (downloads s) (instructions s)
     l (hide_timers s).
Definition with_hide_timers (n : nat) (s : t) : t :=
  mk (photos s) (has_fetch s) (ghPagesUploadProgress s) (downloads s) (instructions s)
     (console s) n.

(** *** The progress element, the manifest, the panel *)

Definition showUploadProgress (progress : Z) (s : t) : t :=
  with_progress (Some (mkProgress progress "block")) s.

Definition hideUploadProgress (s : t) : t :=
  match ghPagesUploadProgress s with
  | Some p => with_progress (Some (mkProgress (percent p) "none")) s
  | None => s
  end.

Definition savePhotosList (s : t) : t :=
  with_downloads (downloads s ++ [PhotosJson (photos s)]) s.

Definition showSaveInstructions (photo : Photo) (base64 thumbnailBase64 : option string)
    (s : t) : t :=
  with_instructions (instructions s ++ [mkInstructions photo base64 thumbnailBase64]) s.

(** *** deletePhoto and the getters *)

Definition deletePhoto (photoId : string) (s : t) : t * bool :=
  (savePhotosList (with_photos (filter (λ p, id p ≠ photoId) (photos s)) s), true).

Definition getPhotoUrl (photo : Photo) : string := photosDir +:+ "/" +:+ filename photo.
Definition getThumbnailUrl (photo : Photo) : string :=
  thumbnailsDir +:+ "/" +:+ thumbnail photo.

(** *** compressImage, blobToBase64 *)

(** The size of the canvas that compressImage draws on, from the size of the
    decoded image. *)
Definition compressImage_size (width height maxSize : Z) : Z * Z :=
  if bool_decide (maxSize < width ∨ maxSize < height) then
    if bool_decide (height < width) then (maxSize, round_div (height * maxSize) width)
    else (round_div (width * maxSize) height, maxSize)
  else (width, height).

(** A promise that has settled. *)
Inductive Settled (A : Type) :=
| Fulfilled (a : A)
| Rejected (r : Reason).
Arguments Fulfilled {A} a.
Arguments Rejected {A} r.

(** [blobToBase64(blob)], from the end of the read on: [reader.onload]
    resolves with [reader.result.split(',')[1]], [reader.onerror] rejects. *)
Definition blobToBase64 (reader : Settled string) : Settled (option string) :=
  match reader with
  | Fulfilled result => Fulfilled (split comma result !! 1%nat)
  | Rejected r => Rejected r
  end.

(** *** uploadPhoto *)

(** What uploadPhoto reads from the clock: [Date.now()],
    [toLocaleDateString('zh-CN')] and [toISOString()]. *)
Record Clock := mkClock { now : Z; localeDate : string; isoString : string }.

(** The awaits of uploadPhoto, each with the locals that the rest of the
    function still reads. *)
Inductive Stage :=
| AwaitDataUrl (message : string)
| AwaitFetch (message : string)
| AwaitCompressed (message : string)
| AwaitBase64 (message : string) (timestamp : Z)
| AwaitThumbnail (message : string) (timestamp : Z) (base64 : option string)
| AwaitThumbnailBase64 (message : string) (timestamp : Z) (base64 : option string)
| AwaitSaved (photo : Photo) (base64 thumbnailBase64 : option string).

Inductive Outcome :=
| Pending (st : Stage)
| Returned (photo : Photo)
| Thrown (r : Reason).

(** What [this.fetch(dataUrl)] throws on an instance without [fetch]; the
    wording of the message is the engine's. *)
Definition fetch_TypeError : Reason :=
  Err (mkError "TypeError" "this.fetch is not a function").

(** The [catch] clause. *)
Definition catchUpload (r : Reason) (s : t) : t * Outcome :=
  (hideUploadProgress (with_console (console s ++ [ConsoleError "上传失败:" r]) s),
   Thrown r).

(** [uploadPhoto(file, message)] up to its first await. *)
Definition uploadPhoto (message : string) (s : t) : t * Outcome :=
  (showUploadProgress 0 s, Pending (AwaitDataUrl message)).

Definition newPhoto (c : Clock) (message : string) (timestamp : Z) : Photo :=
  mkPhoto (pretty timestamp) "image" message
          ("photo_" +:+ pretty timestamp +:+ ".jpg")
          ("thumb_" +:+ pretty timestamp +:+ ".jpg")
          (localeDate c) (isoString c).

(** The function from the settlement of the await [st] up to the next await
    or its end.  The awaited values that are blobs are not looked at; those of
    the two reads are the [reader.result]s.  The promise of savePhotosList,
    which has no await of its own, is always fulfilled. *)
Definition resumeUpload (c : Clock) (st : Stage) (a : Settled string) (s : t) : t * Outcome :=
  match st with
  | AwaitDataUrl message =>
      match a with
      | Fulfilled dataUrl =>
          let s1 := showUploadProgress 30 s in
          if has_fetch s1 then (s1, Pending (AwaitFetch message))
          else catchUpload fetch_TypeError s1
      | Rejected r => catchUpload r s
      end
  | AwaitFetch message =>
      match a with
      | Fulfilled blob => (s, Pending (AwaitCompressed message))
      | Rejected r => catchUpload r s
      end
  | AwaitCompressed message =>
      match a with
      | Fulfilled compressedBlob =>
          (showUploadProgress 60 s, Pending (AwaitBase64 message (now c)))
      | Rejected r => catchUpload r s
      end
  | AwaitBase64 message timestamp =>
      match blobToBase64 a with
      | Fulfilled base64 => (s, Pending (AwaitThumbnail message timestamp base64))
      | Rejected r => catchUpload r s
      end
  | AwaitThumbnail message timestamp base64 =>
      match a with
      | Fulfilled thumbnailBlob => (s, Pending (AwaitThumbnailBase64 message timestamp base64))
      | Rejected r => catchUpload r s
      end
  | AwaitThumbnailBase64 message timestamp base64 =>
      match blobToBase64 a with
      | Fulfilled thumbnailBase64 =>
          let s1 := showUploadProgress 80 s in
          let photo := newPhoto c message timestamp in
          let s2 := with_photos (photo :: photos s1) s1 in
          (savePhotosList s2, Pending (AwaitSaved photo base64 thumbnailBase64))
      | Rejected r => catchUpload r s
      end
  | AwaitSaved photo base64 thumbnailBase64 =>
      let s1 := showSaveInstructions photo base64 thumbnailBase64 s in
      let s2 := showUploadProgress 100 s1 in
      (with_hide_timers (S (hide_timers s2)) s2, Returned photo)
  end.

(** The timer set at the end of a successful upload. *)
Definition hideTimeout (s : t) : t :=
  match hide_timers s with
  | O => s
  | S n => hideUploadProgress (with_hide_timers n s)
  end.

(** One call of uploadPhoto with nothing else running in between: the
    awaits settle as [answers] tells, in order. *)
Fixpoint drive (c : Clock) (st : Stage) (answers : list (Settled string)) (s : t)
  : t * Outcome :=
  match answers with
  | [] => (s, Pending st)
  | a :: rest =>
      let '(s1, o) := resumeUpload c st a s in
      match o with
      | Pending st1 => drive c st1 rest s1
      | _ => (s1, o)
      end
  end.

Definition upload (c : Clock) (message : string) (answers : list (Settled string)) (s : t)
  : t * Outcome :=
  let '(s1, o) := uploadPhoto message s in
  match o with
  | Pending st => drive c st answers s1
  | _ => (s1, o)
  end.

(** *** The page at work *)

(** The instance together with the calls of uploadPhoto that are suspended
    at an await. *)
Record Page := mkPage { store : t; uploads : list Stage }.

(** What can happen: a call of uploadPhoto or deletePhoto, the settlement
    of the await of the suspended call [k] (with what the clock says then),
    the expiry of a hide timer. *)
Inductive Event :=
| CallUpload (message : string)
| Settle (k : nat) (c : Clock) (a : Settled string)
| CallDelete (photoId : string)
| HideTimeout.

Definition step (pg : Page) (e : Event) : Page :=
  match e with
  | CallUpload message =>
      let '(s, o) := uploadPhoto message (store pg) in
      mkPage s (uploads pg ++ match o with Pending st => [st] | _ => [] end)
  | Settle k c a =>
      match uploads pg !! k with
      | Some st =>
          let '(s, o) := resumeUpload c st a (store pg) in
          mkPage s (match o with
                    | Pending st1 => <[k := st1]> (uploads pg)
                    | _ => delete k (uploads pg)
                    end)
      | None => pg
      end
  | CallDelete photoId => mkPage (deletePhoto photoId (store pg)).1 (uploads pg)
  | HideTimeout => mkPage (hideTimeout (store pg)) (uploads pg)
  end.

Definition run (pg : Page) (es : list Event) : Page := foldl step pg es.

End GitHubPagesStorage.

(** ** The thumbnail script ([src/regenerate_thumbnails.js]) *)

Module Regenerate.

(** ['thumb_' + filename.replace(/^photo_/, '')]. *)
Definition thumbnailFilename (filename : string) : string :=
  "thumb_" +:+ default filename (strip_prefix "photo_" filename).

(** What happens to one file in the loop of processImages: the first
    [statSync] throws; the generator rejects; the second [statSync] throws;
    or all three succeed, with the two sizes. *)
Inductive FileOutcome :=
| StatFails
| GenerateFails (size : Z)
| ThumbnailStatFails (size : Z)
| Generated (size thumbnailSize : Z).

(** [metadata.photos[photoIndex].thumbnail = thumbnailFilename] for
    [photoIndex = metadata.photos.findIndex(p => p.filename === filename)]:
    the first entry with that file name is the one assigned to. *)
Fixpoint updateMetadata (filename : string) (photos : list GitHubPagesStorage.Photo)
  : list GitHubPagesStorage.Photo :=
  match photos with
  | [] => []
  | p :: rest =>
      if bool_decide (GitHubPagesStorage.filename p = filename) then
        GitHubPagesStorage.mkPhoto
          (GitHubPagesStorage.id p) (GitHubPagesStorage.type p)
          (GitHubPagesStorage.message p) (GitHubPagesStorage.filename p)
          (thumbnailFilename filename)
          (GitHubPagesStorage.date p) (GitHubPagesStorage.timestamp p) :: rest
      else p :: updateMetadata filename rest
  end.

(** The locals of processImages that the loop updates, the thumbnails
    written so far, and the metadata. *)
Record Loop := mkLoop {
  successCount : Z;
  errorCount : Z;
  totalOriginalSize : Z;
  totalThumbnailSize : Z;
  written : list string;
  metadata_photos : list GitHubPagesStorage.Photo
}.

(** One turn of the loop. *)
Definition processImage (l : Loop) (file : string * FileOutcome) : Loop :=
  let '(filename, outcome) := file in
  match outcome with
  | StatFails =>
      mkLoop (successCount l) (errorCount l + 1) (totalOriginalSize l)
             (totalThumbnailSize l) (written l) (metadata_photos l)
  | GenerateFails size =>
      mkLoop (successCount l) (errorCount l + 1) (totalOriginalSize l + size)
             (totalThumbnailSize l) (written l) (metadata_photos l)
  | ThumbnailStatFails size =>
      mkLoop (successCount l) (errorCount l + 1) (totalOriginalSize l + size)
             (totalThumbnailSize l) (written l ++ [thumbnailFilename filename])
             (metadata_photos l)
  | Generated size thumbnailSize =>
      mkLoop (successCount l + 1) (errorCount l) (totalOriginalSize l + size)
             (totalThumbnailSize l + thumbnailSize)
             (written l ++ [thumbnailFilename filename])
             (updateMetadata filename (metadata_photos l))
  end.

(** What a run leaves behind: the counters of the summary, the thumbnails
    written, and the metadata file when it was written ([photos] and
    [total]). *)
Record Report := mkReport {
  final : Loop;
  saved : option (list GitHubPagesStorage.Photo * Z)
}.

(** [processImages()] on a project with an [images/] directory, from the
    [photos] list of the metadata read (the empty list when there is no
    file) and the image files in the order of [sort()]. *)
Definition processImages (metadata : list GitHubPagesStorage.Photo)
    (imageFiles : list (string * FileOutcome)) : Report :=
  let l := foldl processImage (mkLoop 0 0 0 0 [] metadata) imageFiles in
  mkReport l
    (if bool_decide (0 < successCount l)
     then Some (metadata_photos l, Z.of_nat (length (metadata_photos l)))
     else None).

End Regenerate.

(** * Vocabulary of the properties *)

(** The part of the optimizer that pagination is about. *)
Definition pagination (w : World) : Z * bool * bool :=
  (currentPage (this w), hasMore (this w), isLoading (this w)).

(** A listing fetch fails when it is rejected, answered with a status that is
    not a success, or answered with a body that cannot be read. *)
Definition failed (r : Response) : Prop :=
  match r with Listing _ _ => False | _ => True end.

(** An event is quiet when it is not the arrival of a listing.  While a
    listing fetch is outstanding [isLoading] is true and no second one can
    start, so the events that run before its answer are quiet. *)
Definition quiet (e : Event) : Prop :=
  match e with Settled _ (Listing _ _) => False | _ => True end.

(** An assignment to [loadedPhotos], which the source never makes. *)
Definition set_loadedPhotos (s : gset string) (o : Optimizer) : Optimizer :=
  mkOpt (lazyLoadObserver o) (currentPage o) (perPage o) (isLoading o) (hasMore o) s.

(** The ids carried by the photo elements of the page. *)
Definition rendered_ids (d : Document) : list string := item_id <$> photo_items d.

(** The two entries that a listing answered with a bad status leaves in the
    log: the intercepted [console.error], then [logger.error]. *)
Definition bad_status_console_entry : Logger.Log :=
  Logger.mkLog Logger.ERROR "ERROR" "分页加载失败: Error: 加载照片失败".
Definition bad_status_logger_entry : Logger.Log :=
  Logger.mkLog Logger.ERROR "PERFORMANCE" "分页加载失败: 加载照片失败".

(** The page has the [#photoWall] container. *)
Definition mounted (w : World) : Prop := is_Some (photoWall (document w)).

(** One successful page fetch: the call, and the arrival of the listing. *)
Record Fetch := mkFetch {
  fetch_page : Z;
  fetch_append : bool;
  fetch_photos : list PhotoRecord;
  fetch_has_more : bool
}.

Section Fetches.

Context (baseUrl : string) (photoBatchMode : bool).

(** The call leaves its continuation at the end of [tasks]; the listing
    settles that task. *)
Definition fetchPage (f : Fetch) (w : World) : World :=
  run baseUrl photoBatchMode w
    [Call_loadPhotosPaginated (fetch_page f) (fetch_append f);
     Settled (length (tasks w)) (Listing (fetch_photos f) (fetch_has_more f))].

Definition fetchPages (fs : list Fetch) (w : World) : World :=
  foldl (λ w f, fetchPage f w) w fs.

End Fetches.

(** Scroll events and the expiry of the throttle timer. *)
Definition scrolling (e : Event) : Prop :=
  match e with Scrolled _ _ _ | ThrottleTimeout => True | _ => False end.

(** The trigger condition of the scroll handler: the bottom of the viewport
    is within 500px of the end of the document. *)
Definition documentHeight_reached (scrollTop windowHeight documentHeight : Z) : Prop :=
  documentHeight - 500 ≤ scrollTop + windowHeight.

(** A photo item with the [observed] marker. *)
Definition mark_item (it : PhotoItem) : PhotoItem :=
  mkItem (item_index it) (item_id it) true (item_media it)
         (item_caption it) (item_date it) (item_checkbox_display it).

(** ** The life of a placeholder *)

(** The elements for which a temporary image was created, in order of
    creation: one entry per load started. *)
Definition started (w : World) : list nat :=
  omap (λ rq, match rq with GetImage _ (Some i) => Some i | _ => None end) (network w).

Definition task_img (t : Task) : option nat :=
  match t with TempImage i _ => Some i | _ => None end.

(** The elements whose temporary image has neither loaded nor failed yet. *)
Definition loading (w : World) : list nat := omap task_img (tasks w).

(** The elements registered with the observer. *)
Definition watched (w : World) : gset nat := default ∅ (lazyLoadObserver (this w)).

(** Tasks of the lazy loader and of the fetches, as opposed to those of the
    progressive loader. *)
Definition lazy_task (t : Task) : bool :=
  match t with ProgressiveImage _ _ | Unblur _ => false | _ => true end.

(** What the life of the placeholders depends on. *)
Record View := mkView {
  v_observer : option (gset nat);
  v_images : list Img;
  v_items : list PhotoItem;
  v_started : list nat;
  v_loading : list nat;
  v_tasks_ok : bool
}.

Definition view (w : World) : View :=
  mkView (lazyLoadObserver (this w)) (images (document w)) (photo_items (document w))
         (started w) (loading w) (forallb lazy_task (tasks w)).

Inductive Phase := Unwatched | Watched | Loading | Loaded | Failed.

Definition phaseV (v : View) (i : nat) : Phase :=
  if bool_decide (i ∈ default (∅ : gset nat) (v_observer v)) then Watched
  else if bool_decide (i ∈ v_loading v) then Loading
  else match v_images v !! i with
       | Some img =>
           if class_loaded img then Loaded
           else if bool_decide (src img = EmptyString) then Unwatched else Failed
       | None => Unwatched
       end.

(** The state of element [i] in the machine
    [unwatched → watched → loading → loaded | failed]. *)
Definition phase (w : World) (i : nat) : Phase := phaseV (view w) i.

Definition rank (p : Phase) : nat :=
  match p with Unwatched => 0 | Watched => 1 | Loading => 2 | Loaded | Failed => 3 end.

(** [q] is [p] or lies further along the machine. *)
Definition phase_le (p q : Phase) : Prop := p = q ∨ (rank p < rank q)%nat.

(** An image as createPhotoItem makes it. *)
Definition fresh_img (img : Img) : Prop :=
  src img = EmptyString ∧ class_loaded img = false ∧ data_src img ≠ EmptyString.

(** An image that has been given a source. *)
Definition settled_img (img : Img) : Prop :=
  class_loaded img = true ∨ src img ≠ EmptyString.

(** The invariant of the lazy loader. *)
Record wfV (v : View) : Prop := mkWf {
  wf_watched_fresh : ∀ i, i ∈ default (∅ : gset nat) (v_observer v) → i ∉ v_started v;
  wf_started_once : NoDup (v_started v);
  wf_loading_once : NoDup (v_loading v);
  wf_loading_started : ∀ i, i ∈ v_loading v → i ∈ v_started v;
  wf_tasks : v_tasks_ok v = true;
  wf_marked : is_Some (v_observer v) → Forall (λ it, item_observed it = true) (v_items v);
  wf_watched_bound :
    ∀ i, i ∈ default (∅ : gset nat) (v_observer v) → (i < length (v_images v))%nat;
  wf_started_bound : ∀ i, i ∈ v_started v → (i < length (v_images v))%nat;
  wf_settled :
    ∀ i img, v_images v !! i = Some img → settled_img img →
             i ∈ v_started v ∧ i ∉ v_loading v;
  wf_data_src : Forall (λ img, data_src img ≠ EmptyString) (v_images v)
}.

Definition wf (w : World) : Prop := wfV (view w).

(** A render: new images at the end of the store, their elements handed to
    the observer, every item of the page marked. *)
Definition growsV (v v' : View) : Prop :=
  ∃ (new : list Img) (added : list nat),
    v_images v' = v_images v ++ new
    ∧ Forall fresh_img new
    ∧ v_observer v' = (λ obs, obs ∪ list_to_set added) <$> v_observer v
    ∧ (∀ i, i ∈ added → (length (v_images v) ≤ i < length (v_images v'))%nat)
    ∧ (is_Some (v_observer v') → Forall (λ it, item_observed it = true) (v_items v'))
    ∧ v_started v' = v_started v
    ∧ v_loading v' = v_loading v
    ∧ v_tasks_ok v' = v_tasks_ok v.

(** The observer callback: the elements [hits] leave the observer and their
    loads start. *)
Definition deliverV (hits : list nat) (v : View) : View :=
  mkView ((λ obs, obs ∖ list_to_set hits) <$> v_observer v) (v_images v) (v_items v)
         (v_started v ++ hits) (v_loading v ++ hits) (v_tasks_ok v).

(** The end of a load of element [i], which [f] records on the element. *)
Definition settlesV (f : Img → Img) (i : nat) (v v' : View) : Prop :=
  ∃ l1 l2,
    v_loading v = l1 ++ i :: l2
    ∧ v' = mkView (v_observer v) (alter f i (v_images v)) (v_items v)
                  (v_started v) (l1 ++ l2) (v_tasks_ok v).

(** The number of loads started for element [i] so far. *)
Definition loads_of (i : nat) (w : World) : nat :=
  length (filter (λ j, j = i) (started w)).

(** The targets that a delivery reports as intersecting. *)
Definition hits (entries : list (nat * bool)) : list nat :=
  (filter (λ entry, entry.2 = true) entries).*1.

(** What one handler run can do to the view. *)
Inductive moves (v v' : View) : Prop :=
| moves_same : v' = v → moves v v'
| moves_grows : growsV v v' → moves v v'
| moves_deliver hits :
    NoDup hits → (∀ i, i ∈ hits → i ∈ default (∅ : gset nat) (v_observer v)) →
    is_Some (v_observer v) → v' = deliverV hits v → moves v v'
| moves_load i url : settlesV (on_load url) i v v' → moves v v'
| moves_error i : settlesV on_error i v v' → moves v v'.

(** ** A sample page *)

Definition sample_url : string := "https://photos.example".

Definition sample_page : Page := mkPage true (Logger.mk Logger.DEBUG []) [].

(** The page right after the start, with an observer. *)
Definition sample_world : World := boot true sample_page.

Definition photo_a : PhotoRecord := mkPhoto "a" "image" "first" "2024-05-20".
Definition photo_b : PhotoRecord := mkPhoto "b" "video" EmptyString "2024-05-21".

(** A first page was requested and has not arrived. *)
Definition loading_world : World := loadPhotosPaginated 1 false sample_world.

(** The first page was requested and the server answered with a bad status. *)
Definition bad_status_world : World :=
  run sample_url false sample_world [Call_loadPhotosPaginated 1 false; Settled 0%nat BadStatus].

(** [photo_a] was rendered once, in append mode. *)
Definition rendered_world : World :=
  renderPhotosOptimized sample_url false [photo_a] true sample_world.

Definition first_page : Fetch := mkFetch 1 false [photo_a; photo_b] true.
Definition last_page : Fetch := mkFetch 2 true [photo_a] false.

(** The first page has arrived: the image of [photo_a] is element [0] and is
    watched.  Then the detector reports it. *)
Definition first_page_events : list Event :=
  [Call_loadPhotosPaginated 1 false; Settled 0%nat (Listing [photo_a; photo_b] true)].

Definition reported_events : list Event :=
  first_page_events ++ [Intersection [(0%nat, true)]].

(** A record whose caption is markup. *)
Definition markup_photo : PhotoRecord :=
  mkPhoto "m" "image" "<div class='photo-item'>x</div>" "2024-05-20".

(** [needle] occurs in [hay]. *)
Fixpoint contains (needle hay : string) {struct hay} : bool :=
  match strip_prefix needle hay with
  | Some _ => true
  | None =>
      match hay with
      | EmptyString => false
      | String _ rest => contains needle rest
      end
  end.

(** * Vocabulary of the further properties *)

(** Scroll events alone: a burst with no expiry of the throttle timer. *)
Definition scroll_only (e : Event) : Prop :=
  match e with Scrolled _ _ _ => True | _ => False end.

(** The global [photos] and the page agree: the container exists and the
    photo elements carry the ids of [photos], in the same order. *)
Definition page_matches_photos (w : World) : Prop :=
  mounted w ∧ photo_id <$> photos w = rendered_ids (document w).

(** No observer exists and no load of an image is under way: neither of the
    lazy loader nor of the progressive loader. *)
Definition quietV (v : View) : Prop :=
  v_observer v = None ∧ v_loading v = [] ∧ v_tasks_ok v = true.

(** The page fetches of loadPhotosPaginated that have not settled yet. *)
Definition pending_listings (w : World) : list (Z * bool) :=
  omap (λ t, match t with AwaitListing page append => Some (page, append) | _ => None end)
       (tasks w).

(** The loading indicator is on the page and displayed. *)
Definition indicator_shown (d : Document) : bool :=
  match getIndicator d with
  | Some (NIndicator disp) => bool_decide (disp = "block")
  | _ => false
  end.

(** The flag [isLoading] tells the truth: it is set exactly while one page
    fetch is under way, and the indicator of the page follows it. *)
Definition guarded (w : World) : Prop :=
  if isLoading (this w)
  then length (pending_listings w) = 1%nat
       ∧ (mounted w → indicator_shown (document w) = true)
  else pending_listings w = [] ∧ indicator_hidden (document w) = true.

(** The number of children of the container that [sel] selects. *)
Definition count_of (sel : Node → bool) (d : Document) : nat :=
  length (filter (λ n, sel n = true) (wall_children d)).

(** The ids [photoLoadingIndicator] and [loadMorePhotosBtn] are carried by
    at most one element each. *)
Definition unique_ids (d : Document) : Prop :=
  (count_of is_indicator d ≤ 1)%nat ∧ (count_of is_loadMore d ≤ 1)%nat.

(** Element [i], when it exists, carries the class [optimized]. *)
Definition optimized_at (w : World) (i : nat) : Prop :=
  match images (document w) !! i with
  | Some img => class_optimized img = true
  | None => True
  end.

(** What the progressive loader sets on an image: the blur filter, the
    class [optimized] and the transition. *)
Definition treatment (img : Img) : string * bool * string :=
  (style_filter img, class_optimized img, style_transition img).

(** The three as createPhotoItem leaves them: no filter, no class
    [optimized], the opacity transition. *)
Definition untreated : string * bool * string := (EmptyString, false, "opacity 0.3s").

(** No load of the progressive loader is under way. *)
Definition no_progressive_load (w : World) : Prop :=
  forallb lazy_task (tasks w) = true.

(** The listing that an event delivers, if any, holds records whose text is
    free of markup. *)
Definition plain_event (e : Event) : Prop :=
  match e with
  | Settled _ (Listing ps _) => Forall plain_record ps
  | _ => True
  end.

(** ** The static storage *)

(** The state shows no trace of an upload beyond the console and the
    progress element. *)
Definition untouched (s s' : GitHubPagesStorage.t) : Prop :=
  GitHubPagesStorage.photos s' = GitHubPagesStorage.photos s
  ∧ GitHubPagesStorage.downloads s' = GitHubPagesStorage.downloads s
  ∧ GitHubPagesStorage.instructions s' = GitHubPagesStorage.instructions s
  ∧ GitHubPagesStorage.hide_timers s' = GitHubPagesStorage.hide_timers s
  ∧ GitHubPagesStorage.has_fetch s' = GitHubPagesStorage.has_fetch s.

(** The last [photos.json] handed to the browser lists [photos] as it is
    now. *)
Definition manifest_current (s : GitHubPagesStorage.t) : Prop :=
  last (GitHubPagesStorage.downloads s)
  = Some (GitHubPagesStorage.PhotosJson (GitHubPagesStorage.photos s)).

(** A pixel count in the range where the scaling of compressImage is exact
    on doubles. *)
Definition exact_pixels (n : Z) : Prop := 0 < n < 2 ^ 26.

(** The progress element is on the page and not displayed. *)
Definition progress_hidden (s : GitHubPagesStorage.t) : Prop :=
  ∃ pc, GitHubPagesStorage.ghPagesUploadProgress s
        = Some (GitHubPagesStorage.mkProgress pc "none").

(** The characters of a string. *)
Fixpoint chars (s : string) : list Ascii.ascii :=
  match s with
  | EmptyString => []
  | String c rest => c :: chars rest
  end.

(** A record as uploadPhoto makes them. *)
Definition uploaded (p : GitHubPagesStorage.Photo) : Prop :=
  ∃ c message timestamp, p = GitHubPagesStorage.newPhoto c message timestamp.

(** The thumbnail of a record has the name that the script gives it. *)
Definition canonical (p : GitHubPagesStorage.Photo) : Prop :=
  GitHubPagesStorage.thumbnail p
  = Regenerate.thumbnailFilename (GitHubPagesStorage.filename p).

(** The outcome of a file is a success. *)
Definition generated (file : string * Regenerate.FileOutcome) : bool :=
  match file.2 with Regenerate.Generated _ _ => true | _ => false end.

(** Two records differ in their thumbnail at most. *)
Definition same_but_thumbnail (p q : GitHubPagesStorage.Photo) : Prop :=
  GitHubPagesStorage.id q = GitHubPagesStorage.id p
  ∧ GitHubPagesStorage.type q = GitHubPagesStorage.type p
  ∧ GitHubPagesStorage.message q = GitHubPagesStorage.message p
  ∧ GitHubPagesStorage.filename q = GitHubPagesStorage.filename p
  ∧ GitHubPagesStorage.date q = GitHubPagesStorage.date p
  ∧ GitHubPagesStorage.timestamp q = GitHubPagesStorage.timestamp p.

(** The bytes that a file adds to [totalOriginalSize] and to
    [totalThumbnailSize]. *)
Definition original_bytes (file : string * Regenerate.FileOutcome) : Z :=
  match file.2 with
  | Regenerate.StatFails => 0
  | Regenerate.GenerateFails size | Regenerate.ThumbnailStatFails size
  | Regenerate.Generated size _ => size
  end.

Definition thumbnail_bytes (file : string * Regenerate.FileOutcome) : Z :=
  match file.2 with Regenerate.Generated _ thumbnailSize => thumbnailSize | _ => 0 end.

Definition total (f : string * Regenerate.FileOutcome → Z)
    (files : list (string * Regenerate.FileOutcome)) : Z :=
  foldr (λ file acc, f file + acc) 0 files.

(** ** Samples *)

(** Three scroll events near the bottom of the page, within one throttle
    interval. *)
Definition scroll_burst : list Event :=
  [Scrolled 0 600 1000; Scrolled 40 600 1000; Scrolled 80 600 1000].

(** The first page arrives, the button is clicked and a second page arrives
    that holds [photo_a] again. *)
Definition two_pages_events : list Event :=
  first_page_events ++ [Click_loadMore; Settled 0%nat (Listing [photo_a] false)].

(** [photo_a] was rendered in a browser without IntersectionObserver. *)
Definition unobserved_world : World :=
  renderPhotosOptimized sample_url false [photo_a] true (boot false sample_page).

(** A second page arrives, the next one is prefetched, and a stray report of
    the detector comes in. *)
Definition prefetch_events : list Event :=
  [Call_loadPhotosPaginated 2 true; Settled 0%nat (Listing [photo_b; photo_a] true);
   Call_preloadNextPage; Settled 0%nat (Listing [photo_a] false);
   Intersection [(0%nat, true)]].

(** A second page arrives, and the thumbnail of the first photo is reported,
    requested and loaded. *)
Definition lazy_load_events : list Event :=
  [Call_loadPhotosPaginated 2 true; Settled 0%nat (Listing [photo_b; photo_a] false);
   Intersection [(0%nat, true)]; ImageLoad 0%nat].

Definition sample_logger : Logger.t := Logger.mk Logger.WARN [].

(** A log that holds [maxLogs] entries: two early ones, then 498 alike. *)
Definition full_logger : Logger.t :=
  Logger.mk Logger.DEBUG
    (Logger.mkLog Logger.INFO "APP" "first" :: Logger.mkLog Logger.INFO "APP" "second"
     :: replicate 498 (Logger.mkLog Logger.DEBUG "APP" "tick")).

Definition sample_calls : list LoggerOps.Call :=
  [LoggerOps.Debug "skipped" "APP"; LoggerOps.ConsoleError ["failed:"; "x"];
   LoggerOps.Warn "slow" "NET"].

Definition sample_clock : GitHubPagesStorage.Clock :=
  GitHubPagesStorage.mkClock 1700000000000 "2023/11/14" "2023-11-14T22:13:20.000Z".

(** An instance that was given a [fetch]. *)
Definition storage_with_fetch : GitHubPagesStorage.t :=
  GitHubPagesStorage.mk [] true None [] [] [] 0.

(** Seven fulfilled awaits: the data URL, three blobs, two reads. *)
Definition sample_answers : list (GitHubPagesStorage.Settled string) :=
  [GitHubPagesStorage.Fulfilled "data:image/png;base64,AAAA";
   GitHubPagesStorage.Fulfilled "blob:1";
   GitHubPagesStorage.Fulfilled "blob:2";
   GitHubPagesStorage.Fulfilled "data:image/jpeg;base64,QUJD";
   GitHubPagesStorage.Fulfilled "blob:3";
   GitHubPagesStorage.Fulfilled "data:image/jpeg;base64,REVG";
   GitHubPagesStorage.Fulfilled "saved"].

Definition sample_upload : GitHubPagesStorage.Photo :=
  GitHubPagesStorage.newPhoto sample_clock "hello" 1700000000000.

(** A record whose thumbnail has another name, and its image file. *)
Definition old_record : GitHubPagesStorage.Photo :=
  GitHubPagesStorage.mkPhoto "1" "image" "first" "photo_1.jpg" "1_small.jpg"
                             "2023/11/14" "2023-11-14T22:13:20.000Z".

Definition sample_files : list (string * Regenerate.FileOutcome) :=
  [("broken.png", Regenerate.GenerateFails 2048);
   ("photo_1.jpg", Regenerate.Generated 4096 512)].

(** * Properties *)

(** ** Lists of nodes *)

(** A projection that the update does not see is not changed by it. *)
Lemma omap_update_first {B} (g : Node → option B) sel f l :
  (∀ n, g (f n) = g n) → omap g (update_first sel f l) = omap g l.
Proof.
  intros Hg. induction l as [|n l IH]; [done|].
  cbn [update_first]. destruct (sel n); cbn; [by rewrite Hg | by rewrite IH].
Qed.

(** The element found by id is the one that is assigned to. *)
Lemma head_filter_update_first sel f l :
  (∀ n, sel n = true → sel (f n) = true) →
  head (filter (λ n, sel n = true) (update_first sel f l))
  = f <$> head (filter (λ n, sel n = true) l).
Proof.
  intros Hf. induction l as [|n l IH]; simpl; [done|].
  destruct (sel n) eqn:Hn.
  - rewrite !filter_cons_True by auto. done.
  - rewrite !filter_cons_False by (rewrite Hn; done). done.
Qed.

(** Elements with another id are still found where they were. *)
Lemma filter_update_first_other sel sel' f l :
  (∀ n, sel n = true → sel' n = false ∧ sel' (f n) = false) →
  filter (λ n, sel' n = true) (update_first sel f l) = filter (λ n, sel' n = true) l.
Proof.
  intros Hf. induction l as [|n l IH]; simpl; [done|].
  destruct (sel n) eqn:Hn.
  - destruct (Hf n Hn) as [H1 H2].
    rewrite !filter_cons_False by (rewrite ?H1, ?H2; done). done.
  - rewrite !filter_cons. rewrite IH. done.
Qed.

Lemma head_filter_sel (sel : Node → bool) l n :
  head (filter (λ n, sel n = true) l) = Some n → sel n = true.
Proof.
  induction l as [|m l IH]; [done|].
  rewrite filter_cons. destruct (decide (sel m = true)); simpl; [|done].
  by intros [= <-].
Qed.

Lemma head_filter_app_None {A} (P : A → Prop) `{∀ x, Decision (P x)} (l l' : list A) :
  head (filter P l) = None → head (filter P (l ++ l')) = head (filter P l').
Proof.
  intros Hl. rewrite filter_app. destruct (filter P l); [done | discriminate].
Qed.

(** ** The logger *)

Lemma Logger_error_room msg cat lg :
  Logger.currentLevel lg ≤ Logger.ERROR →
  (length (Logger.logs lg) < Logger.maxLogs)%nat →
  Logger.error msg cat lg
  = Logger.mk (Logger.currentLevel lg)
      (Logger.logs lg ++ [Logger.mkLog Logger.ERROR cat msg]).
Proof.
  intros Hlvl Hroom. unfold Logger.error, Logger.addLog.
  rewrite bool_decide_true by done.
  rewrite bool_decide_false by (rewrite length_app; simpl; lia). done.
Qed.

Lemma Logger_error_muted msg cat lg :
  Logger.ERROR < Logger.currentLevel lg → Logger.error msg cat lg = lg.
Proof. intros Hlvl. unfold Logger.error. by rewrite bool_decide_false by lia. Qed.

(** Close a goal about untouched fields from a frame lemma [H]. *)
Ltac fields :=
  cbn [this photos logger document tasks network inThrottle
       with_this with_photos with_logger with_document with_tasks with_network
       with_inThrottle drop_task
       lazyLoadObserver currentPage perPage isLoading hasMore loadedPhotos
       set_observer set_isLoading set_hasMore set_currentPage set_loadedPhotos
       photoWall images set_wall set_images] in *.

Ltac frame_of H :=
  cbn zeta in H; decompose [and] H; fields; repeat split; congruence.

Section Properties.

Context (baseUrl : string) (photoBatchMode : bool).

Local Abbreviation render := (renderPhotosOptimized baseUrl photoBatchMode).
Local Abbreviation resume := (resumeLoad baseUrl photoBatchMode).
Local Abbreviation try_ := (tryLoad baseUrl photoBatchMode).
Local Abbreviation step_ := (step baseUrl photoBatchMode).
Local Abbreviation run_ := (run baseUrl photoBatchMode).
Local Abbreviation items_from := (createItems baseUrl photoBatchMode).

(** *** The loading indicator *)

Lemma hideLoadingIndicator_hidden w :
  indicator_hidden (document (hideLoadingIndicator w)) = true.
Proof.
  unfold hideLoadingIndicator, indicator_hidden, getIndicator, wall_children.
  destruct (photoWall (document w)) as [children|] eqn:Hw; simpl; [|by rewrite Hw].
  rewrite head_filter_update_first by (by intros []).
  destruct (head _) as [[]|]; simpl; done.
Qed.

Lemma hideLoadingIndicator_frame w :
  this (hideLoadingIndicator w) = this w ∧ photos (hideLoadingIndicator w) = photos w
  ∧ logger (hideLoadingIndicator w) = logger w
  ∧ tasks (hideLoadingIndicator w) = tasks w
  ∧ network (hideLoadingIndicator w) = network w
  ∧ inThrottle (hideLoadingIndicator w) = inThrottle w
  ∧ images (document (hideLoadingIndicator w)) = images (document w)
  ∧ photo_items (document (hideLoadingIndicator w)) = photo_items (document w)
  ∧ getLoadMoreBtn (document (hideLoadingIndicator w)) = getLoadMoreBtn (document w).
Proof.
  unfold hideLoadingIndicator, photo_items, items_of, getLoadMoreBtn, wall_children.
  destruct (photoWall (document w)) as [children|] eqn:Hw; simpl; rewrite ?Hw; simpl;
    [|done].
  repeat split; try done.
  - apply omap_update_first. by intros [].
  - f_equal. apply filter_update_first_other. by intros [].
Qed.

Lemma showLoadingIndicator_frame w :
  this (showLoadingIndicator w) = this w ∧ photos (showLoadingIndicator w) = photos w
  ∧ logger (showLoadingIndicator w) = logger w
  ∧ tasks (showLoadingIndicator w) = tasks w
  ∧ network (showLoadingIndicator w) = network w
  ∧ inThrottle (showLoadingIndicator w) = inThrottle w
  ∧ images (document (showLoadingIndicator w)) = images (document w)
  ∧ photo_items (document (showLoadingIndicator w)) = photo_items (document w)
  ∧ getLoadMoreBtn (document (showLoadingIndicator w)) = getLoadMoreBtn (document w).
Proof.
  unfold showLoadingIndicator, photo_items, items_of, getLoadMoreBtn, wall_children.
  destruct (photoWall (document w)) as [children|] eqn:Hw; simpl; rewrite ?Hw; simpl;
    [|done].
  repeat split; try done.
  - rewrite omap_update_first by (by intros []).
    destruct (getIndicator (document w)); [done|].
    rewrite omap_app. simpl. by rewrite app_nil_r.
  - f_equal. rewrite filter_update_first_other by (by intros []).
    destruct (getIndicator (document w)); [done|].
    rewrite filter_app. rewrite filter_cons_False by done. by rewrite app_nil_r.
Qed.

(** *** What each method leaves alone *)

Lemma loadPhotosPaginated_frame page append w :
  let w' := loadPhotosPaginated page append w in
  currentPage (this w') = currentPage (this w) ∧ hasMore (this w') = hasMore (this w)
  ∧ loadedPhotos (this w') = loadedPhotos (this w)
  ∧ lazyLoadObserver (this w') = lazyLoadObserver (this w)
  ∧ photos w' = photos w ∧ logger w' = logger w ∧ inThrottle w' = inThrottle w
  ∧ images (document w') = images (document w)
  ∧ photo_items (document w') = photo_items (document w)
  ∧ getLoadMoreBtn (document w') = getLoadMoreBtn (document w).
Proof.
  unfold loadPhotosPaginated. destruct (isLoading (this w)); simpl; [done|].
  pose proof (showLoadingIndicator_frame (with_this (set_isLoading true (this w)) w)) as
    (Ht & Hp & Hl & _ & _ & Hth & Hi & Hit & Hb).
  rewrite Ht, Hp, Hl, Hth, Hi, Hit, Hb. done.
Qed.

Lemma loadPhotosPaginated_started page append w :
  isLoading (this w) = false →
  let w' := loadPhotosPaginated page append w in
  isLoading (this w') = true
  ∧ network w' = network w ++ [GetListing page (perPage (this w))]
  ∧ tasks w' = tasks w ++ [AwaitListing page append].
Proof.
  intros Hl. unfold loadPhotosPaginated. rewrite Hl. simpl.
  pose proof (showLoadingIndicator_frame (with_this (set_isLoading true (this w)) w)) as
    (Ht & _ & _ & Hta & Hn & _).
  rewrite Ht, Hta, Hn. done.
Qed.

Lemma resumeLoad_cleanup page append r w :
  isLoading (this (resume page append r w)) = false
  ∧ indicator_hidden (document (resume page append r w)) = true.
Proof.
  unfold resumeLoad. split; [|apply hideLoadingIndicator_hidden].
  by destruct (hideLoadingIndicator_frame
    (with_this (set_isLoading false (this (try_ page append r w))) (try_ page append r w)))
    as [-> _].
Qed.

Lemma resumeLoad_failed page append r w :
  failed r →
  let w' := resume page append r w in
  currentPage (this w') = currentPage (this w) ∧ hasMore (this w') = hasMore (this w)
  ∧ loadedPhotos (this w') = loadedPhotos (this w)
  ∧ lazyLoadObserver (this w') = lazyLoadObserver (this w)
  ∧ photos w' = photos w
  ∧ images (document w') = images (document w)
  ∧ photo_items (document w') = photo_items (document w)
  ∧ getLoadMoreBtn (document w') = getLoadMoreBtn (document w)
  ∧ tasks w' = tasks w ∧ network w' = network w ∧ inThrottle w' = inThrottle w.
Proof.
  intros Hr. unfold resumeLoad.
  pose proof (hideLoadingIndicator_frame
    (with_this (set_isLoading false (this (try_ page append r w))) (try_ page append r w)))
    as (Ht & Hp & _ & Hta & Hn & Hth & Hi & Hit & Hb).
  cbn zeta. rewrite Ht, Hp, Hta, Hn, Hth, Hi, Hit, Hb.
  destruct r; simpl in *; done.
Qed.

(** *** The render stage *)

Lemma items_of_app l1 l2 : items_of (l1 ++ l2) = items_of l1 ++ items_of l2.
Proof. apply omap_app. Qed.

Lemma omap_photo_fmap (items : list PhotoItem) : items_of (NPhoto <$> items) = items.
Proof.
  unfold items_of. induction items as [|it items IH]; cbn; [done | by rewrite IH].
Qed.

Lemma items_of_marked children :
  items_of (mark_observed <$> children) = mark_item <$> items_of children.
Proof.
  unfold items_of. induction children as [|n children IH]; [done|].
  destruct n; cbn; rewrite ?IH; done.
Qed.


(** C6 (empty listing, replace mode). On a page with the container,
    [renderPhotosOptimized([], false)] leaves exactly the empty-state
    placeholder in the container, hence no photo element. *)
Theorem render_empty_shows_placeholder (w : World) (children : list Node) :
  photoWall (document w) = Some children →
  let w' := render [] false w in
  photoWall (document w') = Some [NEmpty] ∧ photo_items (document w') = [].
Proof. intros Hw. unfold renderPhotosOptimized. rewrite Hw. done. Qed.

(** *** Handlers that do not touch the pagination state *)

Lemma preloadNextPage_frame w :
  this (preloadNextPage w) = this w ∧ photos (preloadNextPage w) = photos w
  ∧ logger (preloadNextPage w) = logger w ∧ document (preloadNextPage w) = document w
  ∧ inThrottle (preloadNextPage w) = inThrottle w.
Proof. unfold preloadNextPage. by destruct (_ || _). Qed.

Lemma resumePreload_frame r w :
  this (resumePreload baseUrl r w) = this w ∧ photos (resumePreload baseUrl r w) = photos w
  ∧ document (resumePreload baseUrl r w) = document w
  ∧ tasks (resumePreload baseUrl r w) = tasks w
  ∧ inThrottle (resumePreload baseUrl r w) = inThrottle w.
Proof. by destruct r. Qed.

Lemma loadImage_frame i w :
  this (loadImage i w) = this w ∧ photos (loadImage i w) = photos w
  ∧ logger (loadImage i w) = logger w ∧ document (loadImage i w) = document w
  ∧ inThrottle (loadImage i w) = inThrottle w.
Proof.
  unfold loadImage. destruct (images (document w) !! i); [|done].
  by destruct (bool_decide _).
Qed.

Lemma observerCallback_frame entries w :
  let w' := observerCallback entries w in
  currentPage (this w') = currentPage (this w) ∧ hasMore (this w') = hasMore (this w)
  ∧ isLoading (this w') = isLoading (this w) ∧ perPage (this w') = perPage (this w)
  ∧ loadedPhotos (this w') = loadedPhotos (this w)
  ∧ photos w' = photos w ∧ logger w' = logger w ∧ document w' = document w
  ∧ inThrottle w' = inThrottle w.
Proof.
  revert w. unfold observerCallback.
  induction entries as [|[i b] entries IH]; intros w; [done|].
  cbn [foldl]. cbn zeta in IH |- *.
  destruct (IH (if (i, b).2
                then with_this (unobserve (i, b).1 (this (loadImage (i, b).1 w)))
                       (loadImage (i, b).1 w)
                else w)) as (H1 & H2 & H3 & H4 & H5 & H6 & H7 & H8 & H9).
  rewrite H1, H2, H3, H4, H5, H6, H7, H8, H9. clear.
  destruct b; simpl; [|done].
  destruct (loadImage_frame i w) as (-> & -> & -> & -> & ->). done.
Qed.

Lemma scrollHandler_frame st wh dh w :
  let w' := scrollHandler st wh dh w in
  currentPage (this w') = currentPage (this w) ∧ hasMore (this w') = hasMore (this w)
  ∧ loadedPhotos (this w') = loadedPhotos (this w)
  ∧ lazyLoadObserver (this w') = lazyLoadObserver (this w)
  ∧ photos w' = photos w ∧ logger w' = logger w
  ∧ images (document w') = images (document w)
  ∧ photo_items (document w') = photo_items (document w)
  ∧ getLoadMoreBtn (document w') = getLoadMoreBtn (document w).
Proof.
  unfold scrollHandler, scrollCheck. destruct (inThrottle w); [done|].
  destruct (bool_decide _); [|done]. destruct (_ && _); [|done].
  simpl. pose proof (loadPhotosPaginated_frame (currentPage (this w) + 1) true w) as H.
  frame_of H.
Qed.

(** Only the arrival of a listing writes [currentPage] and [hasMore]. *)
Lemma step_quiet_pagination w e :
  quiet e →
  currentPage (this (step_ w e)) = currentPage (this w)
  ∧ hasMore (this (step_ w e)) = hasMore (this w).
Proof.
  intros Hq. destruct e as [page append| | |st wh dh| |k r|entries|k|k|k]; simpl.
  - pose proof (loadPhotosPaginated_frame page append w) as H. frame_of H.
  - by destruct (preloadNextPage_frame w) as [-> _].
  - destruct (loadMore_shown _); [|done]. unfold loadMore_onclick.
    pose proof (loadPhotosPaginated_frame (currentPage (this w) + 1) true w) as H. frame_of H.
  - pose proof (scrollHandler_frame st wh dh w) as H. frame_of H.
  - by destruct (inThrottle w).
  - destruct (tasks w !! k) as [[page append| | | |]|]; try done.
    + pose proof (resumeLoad_failed page append r (drop_task k w)) as H.
      change (this (drop_task k w)) with (this w) in H.
      destruct r; try (specialize (H I); frame_of H). destruct Hq.
    + by destruct (resumePreload_frame r (drop_task k w)) as [-> _].
  - destruct (lazyLoadObserver (this w)); [|done]. destruct (deliverable _ _); [|done].
    pose proof (observerCallback_frame entries w) as H. frame_of H.
  - destruct (tasks w !! k) as [[]|]; done.
  - destruct (tasks w !! k) as [[]|]; done.
  - destruct (tasks w !! k) as [[]|]; done.
Qed.

Lemma run_quiet_pagination es w :
  Forall quiet es →
  currentPage (this (run_ w es)) = currentPage (this w)
  ∧ hasMore (this (run_ w es)) = hasMore (this w).
Proof.
  intros Hq. revert w. induction Hq as [|e es He _ IH]; intros w; [done|].
  unfold run in *. cbn [foldl]. destruct (IH (step_ w e)) as [-> ->].
  by apply step_quiet_pagination.
Qed.

(** *** The fetch controller *)

(** C1 (in-flight guard). While [isLoading] is true,
    [loadPhotosPaginated(page, append)] returns at once: the world is the
    same afterwards, so no request was issued, nothing was left pending, and
    [currentPage], [hasMore], [isLoading], [photos] and the document are as
    before. *)
Theorem loadPhotosPaginated_while_loading (page : Z) (append : bool) (w : World) :
  isLoading (this w) = true →
  let w' := loadPhotosPaginated page append w in
  w' = w
  ∧ network w' = network w ∧ tasks w' = tasks w
  ∧ pagination w' = pagination w ∧ photos w' = photos w ∧ document w' = document w.
Proof. intros Hl. unfold loadPhotosPaginated. rewrite Hl. done. Qed.

(** C2 (failure leaves the page number alone, cleanup on every exit). An
    invocation that finds [isLoading] false issues its one request; whatever
    quiet events [es] run while the fetch is outstanding, when the fetch then
    fails (rejection, status that is not a success, unreadable body)
    [hasMore] and [currentPage] are those of the moment of the call and no
    photo was added to [photos] or to the page; and for every answer [r],
    success or failure, and from every world the answer can arrive in, the
    resumed invocation ends with [isLoading] false and the loading indicator
    hidden. *)
Theorem loadPhotosPaginated_failure_and_cleanup (page : Z) (append : bool)
    (w : World) (es : list Event) (r : Response) :
  isLoading (this w) = false →
  Forall quiet es →
  let w1 := loadPhotosPaginated page append w in
  let w2 := run_ w1 es in
  let w3 := resume page append r w2 in
  network w1 = network w ++ [GetListing page (perPage (this w))]
  ∧ (failed r →
     hasMore (this w3) = hasMore (this w) ∧ currentPage (this w3) = currentPage (this w)
     ∧ photos w3 = photos w2 ∧ photo_items (document w3) = photo_items (document w2))
  ∧ (∀ (r' : Response) (w' : World),
       isLoading (this (resume page append r' w')) = false
       ∧ indicator_hidden (document (resume page append r' w')) = true).
Proof.
  intros Hl Hq. cbn zeta. split; [|split].
  - by destruct (loadPhotosPaginated_started page append w Hl) as (_ & -> & _).
  - intros Hr.
    pose proof (resumeLoad_failed page append r
                  (run_ (loadPhotosPaginated page append w) es) Hr) as H.
    destruct (run_quiet_pagination es (loadPhotosPaginated page append w) Hq) as [Hc2 Hh2].
    pose proof (loadPhotosPaginated_frame page append w) as H'.
    cbn zeta in H, H'. decompose [and] H. decompose [and] H'.
    repeat split; congruence.
  - intros r' w'. apply resumeLoad_cleanup.
Qed.

Lemma render_frame records append w :
  let w' := render records append w in
  currentPage (this w') = currentPage (this w) ∧ hasMore (this w') = hasMore (this w)
  ∧ isLoading (this w') = isLoading (this w) ∧ perPage (this w') = perPage (this w)
  ∧ loadedPhotos (this w') = loadedPhotos (this w)
  ∧ photos w' = photos w ∧ logger w' = logger w ∧ tasks w' = tasks w
  ∧ network w' = network w ∧ inThrottle w' = inThrottle w.
Proof.
  unfold renderPhotosOptimized. destruct (photoWall (document w)); [|done].
  destruct (_ && _); [done|]. destruct (items_from _ _ _).
  by destruct (lazyLoadObserver (this w)).
Qed.

Lemma updateLoadMoreButton_frame w :
  let w' := updateLoadMoreButton w in
  this w' = this w ∧ photos w' = photos w ∧ logger w' = logger w ∧ tasks w' = tasks w
  ∧ network w' = network w ∧ inThrottle w' = inThrottle w
  ∧ images (document w') = images (document w)
  ∧ photo_items (document w') = photo_items (document w).
Proof.
  cbn zeta. unfold updateLoadMoreButton, photo_items, items_of, wall_children.
  destruct (photoWall (document w)) as [children|] eqn:Hw; [|by rewrite Hw].
  destruct (hasMore (this w)); simpl; rewrite ?Hw; simpl; repeat split;
    rewrite omap_update_first by (by intros []); [|done].
  destruct (getLoadMoreBtn (document w)); [done|].
  rewrite omap_app. simpl. by rewrite app_nil_r.
Qed.

Lemma resumeLoad_frame page append r w :
  let w' := resume page append r w in
  perPage (this w') = perPage (this w) ∧ loadedPhotos (this w') = loadedPhotos (this w)
  ∧ tasks w' = tasks w ∧ network w' = network w ∧ inThrottle w' = inThrottle w.
Proof.
  cbn zeta. unfold resumeLoad.
  pose proof (hideLoadingIndicator_frame
    (with_this (set_isLoading false (this (try_ page append r w))) (try_ page append r w)))
    as (Ht & _ & _ & Hta & Hn & Hth & _).
  rewrite Ht, Hta, Hn, Hth. simpl.
  destruct r as [e| |e|ps hm]; simpl; try done.
  pose proof (updateLoadMoreButton_frame
    (render ps append
       (with_this (set_currentPage page (set_hasMore hm (this w)))
          (with_photos (if append then photos w ++ ps else ps) w)))) as H.
  pose proof (render_frame ps append
       (with_this (set_currentPage page (set_hasMore hm (this w)))
          (with_photos (if append then photos w ++ ps else ps) w))) as H'.
  cbn zeta in H, H'. decompose [and] H. decompose [and] H'. fields.
  repeat split; congruence.
Qed.

(** No handler writes [loadedPhotos] (or [perPage]). *)
Lemma step_loadedPhotos w e :
  loadedPhotos (this (step_ w e)) = loadedPhotos (this w)
  ∧ perPage (this (step_ w e)) = perPage (this w).
Proof.
  destruct e as [page append| | |st wh dh| |k r|entries|k|k|k]; simpl.
  - unfold loadPhotosPaginated. destruct (isLoading (this w)); [done|]. simpl.
    by destruct (showLoadingIndicator_frame (with_this (set_isLoading true (this w)) w))
      as [-> _].
  - by destruct (preloadNextPage_frame w) as [-> _].
  - destruct (loadMore_shown _); [|done]. unfold loadMore_onclick, loadPhotosPaginated.
    destruct (isLoading (this w)); [done|]. simpl.
    by destruct (showLoadingIndicator_frame (with_this (set_isLoading true (this w)) w))
      as [-> _].
  - unfold scrollHandler, scrollCheck. destruct (inThrottle w); [done|].
    destruct (bool_decide _); [|done]. destruct (_ && _); [|done].
    unfold loadPhotosPaginated. destruct (isLoading (this w)); [done|]. simpl.
    by destruct (showLoadingIndicator_frame (with_this (set_isLoading true (this w)) w))
      as [-> _].
  - by destruct (inThrottle w).
  - destruct (tasks w !! k) as [[page append| | | |]|]; try done.
    + pose proof (resumeLoad_frame page append r (drop_task k w)) as H. frame_of H.
    + by destruct (resumePreload_frame r (drop_task k w)) as [-> _].
  - destruct (lazyLoadObserver (this w)); [|done]. destruct (deliverable _ _); [|done].
    pose proof (observerCallback_frame entries w) as H. frame_of H.
  - destruct (tasks w !! k) as [[]|]; done.
  - destruct (tasks w !! k) as [[]|]; done.
  - destruct (tasks w !! k) as [[]|]; done.
Qed.

(** C8, amended (a listing answered with a status that is not a success).
    The resumed invocation renders nothing (photo elements and image store
    are as before), clears [isLoading], hides the loading indicator, and
    passes through [logger.error] twice: first for the intercepted
    [console.error], then for the call in the [catch] clause.  With a level
    that admits errors these are two entries (appended as they are while
    the log has room for them); with a higher level, none. *)
Theorem bad_status_cleanup_and_two_errors (page : Z) (append : bool) (w : World) :
  let w' := resume page append BadStatus w in
  photo_items (document w') = photo_items (document w)
  ∧ images (document w') = images (document w)
  ∧ isLoading (this w') = false
  ∧ indicator_hidden (document w') = true
  ∧ logger w'
    = Logger.error "分页加载失败: 加载照片失败" "PERFORMANCE"
        (Logger.error "分页加载失败: Error: 加载照片失败" "ERROR" (logger w))
  ∧ (Logger.currentLevel (logger w) ≤ Logger.ERROR →
     (length (Logger.logs (logger w)) + 2 ≤ Logger.maxLogs)%nat →
     Logger.logs (logger w')
     = Logger.logs (logger w) ++ [bad_status_console_entry; bad_status_logger_entry])
  ∧ (Logger.ERROR < Logger.currentLevel (logger w) → logger w' = logger w).
Proof.
  cbn zeta.
  pose proof (resumeLoad_failed page append BadStatus w I) as H.
  destruct (resumeLoad_cleanup page append BadStatus w) as [Hl Hh].
  cbn zeta in H. decompose [and] H.
  assert (logger (resume page append BadStatus w)
          = Logger.error "分页加载失败: 加载照片失败" "PERFORMANCE"
              (Logger.error "分页加载失败: Error: 加载照片失败" "ERROR" (logger w))) as Hlog.
  { unfold resumeLoad.
    destruct (hideLoadingIndicator_frame
      (with_this (set_isLoading false (this (try_ page append BadStatus w)))
         (try_ page append BadStatus w))) as (_ & _ & -> & _).
    done. }
  repeat split; try done.
  - intros Hlvl Hroom. rewrite Hlog.
    rewrite (Logger_error_room _ "ERROR") by (done || lia).
    rewrite Logger_error_room by (simpl; rewrite ?length_app; simpl; done || lia).
    simpl. by rewrite <- app_assoc.
  - intros Hlvl. rewrite Hlog.
    rewrite (Logger_error_muted _ "ERROR") by done. by rewrite Logger_error_muted.
Qed.

(** C10 (prefetching never advances pagination). [preloadNextPage()] and
    its resumption leave the optimizer (so [currentPage], [hasMore],
    [isLoading]), the global [photos] and the document as they are.  It
    returns at once, issuing nothing, when [hasMore] is false or [isLoading]
    is true; otherwise it asks for the listing of [currentPage + 1], and on
    arrival only requests detached thumbnail images. *)
Theorem preloadNextPage_only_prefetches (w : World) (r : Response) :
  let w1 := preloadNextPage w in
  (pagination w1 = pagination w ∧ this w1 = this w ∧ photos w1 = photos w
   ∧ document w1 = document w)
  ∧ (hasMore (this w) = false ∨ isLoading (this w) = true → w1 = w)
  ∧ (hasMore (this w) = true ∧ isLoading (this w) = false →
     network w1 = network w ++ [GetListing (currentPage (this w) + 1) (perPage (this w))]
     ∧ tasks w1 = tasks w ++ [AwaitPreload])
  ∧ (∀ w2 : World,
       let w3 := resumePreload baseUrl r w2 in
       pagination w3 = pagination w2 ∧ this w3 = this w2 ∧ photos w3 = photos w2
       ∧ document w3 = document w2 ∧ tasks w3 = tasks w2
       ∧ ∃ urls : list string,
           network w3 = network w2 ++ ((λ u, GetImage u None) <$> urls)).
Proof.
  cbn zeta. split; [|split; [|split]].
  - unfold pagination. by destruct (preloadNextPage_frame w) as (-> & -> & _ & -> & _).
  - unfold preloadNextPage. intros [-> | ->]; [done|]. by rewrite orb_true_r.
  - unfold preloadNextPage. intros [-> ->]. done.
  - intros w2. unfold pagination.
    destruct (resumePreload_frame r w2) as (-> & -> & -> & -> & _).
    repeat split.
    destruct r as [e| |e|ps hm]; simpl.
    + exists []. by rewrite app_nil_r.
    + exists []. by rewrite app_nil_r.
    + exists []. by rewrite app_nil_r.
    + exists ((λ p, thumbnailUrl baseUrl (photo_id p)) <$> ps).
      by rewrite <- list_fmap_compose.
Qed.

(** *** The "load more" button *)

Local Abbreviation fetch := (fetchPage baseUrl photoBatchMode).
Local Abbreviation fetches := (fetchPages baseUrl photoBatchMode).

Lemma render_mounted records append w : mounted w → mounted (render records append w).
Proof.
  intros [children Hw]. unfold mounted, renderPhotosOptimized. rewrite Hw.
  destruct (_ && _); [done|]. destruct (items_from _ _ _).
  by destruct (lazyLoadObserver (this w)).
Qed.

Lemma hideLoadingIndicator_mounted w : mounted w → mounted (hideLoadingIndicator w).
Proof. intros [children Hw]. unfold mounted, hideLoadingIndicator. by rewrite Hw. Qed.

Lemma showLoadingIndicator_mounted w : mounted w → mounted (showLoadingIndicator w).
Proof. intros [children Hw]. unfold mounted, showLoadingIndicator. by rewrite Hw. Qed.

(** After updateLoadMoreButton the button is on display exactly when
    [hasMore] holds. *)
Lemma getLoadMoreBtn_wall l d :
  getLoadMoreBtn (set_wall l d) = head (filter (λ n, is_loadMore n = true) l).
Proof. done. Qed.

Lemma getLoadMoreBtn_mounted w children :
  photoWall (document w) = Some children →
  getLoadMoreBtn (document w) = head (filter (λ n, is_loadMore n = true) children).
Proof. intros Hw. unfold getLoadMoreBtn, wall_children. by rewrite Hw. Qed.

Lemma updateLoadMoreButton_shown w :
  mounted w →
  let w' := updateLoadMoreButton w in
  mounted w'
  ∧ loadMore_shown (document w') = hasMore (this w)
  ∧ loadMore_hidden (document w') = negb (hasMore (this w)).
Proof.
  intros [children Hw]. cbn zeta.
  unfold mounted, updateLoadMoreButton, loadMore_shown, loadMore_hidden.
  rewrite Hw. destruct (hasMore (this w)); (split; [done|]);
    cbn [document with_document]; rewrite getLoadMoreBtn_wall;
    rewrite head_filter_update_first by (by intros []).
  - destruct (getLoadMoreBtn (document w)) as [n|] eqn:Hb;
      rewrite (getLoadMoreBtn_mounted _ _ Hw) in Hb.
    + rewrite Hb. apply head_filter_sel in Hb. by destruct n.
    + rewrite (head_filter_app_None _ _ _ Hb). done.
  - destruct (head (filter _ children)) as [n|] eqn:Hb; [|done].
    apply head_filter_sel in Hb. by destruct n.
Qed.

Lemma loadMore_shown_ext d d' :
  getLoadMoreBtn d = getLoadMoreBtn d' →
  loadMore_shown d = loadMore_shown d' ∧ loadMore_hidden d = loadMore_hidden d'.
Proof. unfold loadMore_shown, loadMore_hidden. by intros ->. Qed.

(** The arrival of a listing sets the button by [has_more]. *)
Lemma resumeLoad_listing page append ps hm w :
  mounted w →
  let w' := resume page append (Listing ps hm) w in
  mounted w' ∧ isLoading (this w') = false
  ∧ hasMore (this w') = hm ∧ currentPage (this w') = page
  ∧ loadMore_shown (document w') = hm ∧ loadMore_hidden (document w') = negb hm.
Proof.
  intros Hm. cbn zeta. unfold resumeLoad. cbn [tryLoad]. fields.
  set (w1 := with_this (set_currentPage page (set_hasMore hm (this w)))
               (with_photos (if append then photos w ++ ps else ps) w)).
  set (w2 := updateLoadMoreButton (render ps append w1)).
  assert (mounted (render ps append w1)) as Hm1 by (by apply render_mounted).
  destruct (updateLoadMoreButton_shown _ Hm1) as (Hm2 & Hs & Hh). fold w2 in Hm2, Hs, Hh.
  pose proof (updateLoadMoreButton_frame (render ps append w1)) as Hu.
  pose proof (render_frame ps append w1) as Hr.
  cbn zeta in Hu, Hr. fold w2 in Hu. decompose [and] Hu. decompose [and] Hr.
  pose proof (hideLoadingIndicator_frame (with_this (set_isLoading false (this w2)) w2))
    as (Ht & _ & _ & _ & _ & _ & _ & _ & Hb).
  destruct (loadMore_shown_ext _ _ Hb) as [-> ->]. rewrite Ht.
  split; [by apply hideLoadingIndicator_mounted|].
  unfold w1 in *. fields. repeat split; congruence.
Qed.

Lemma fetchPage_unfold f w :
  isLoading (this w) = false →
  fetch f w
  = resume (fetch_page f) (fetch_append f) (Listing (fetch_photos f) (fetch_has_more f))
      (drop_task (length (tasks w)) (loadPhotosPaginated (fetch_page f) (fetch_append f) w)).
Proof.
  intros Hl. unfold fetchPage, run. cbn [foldl step].
  destruct (loadPhotosPaginated_started (fetch_page f) (fetch_append f) w Hl)
    as (_ & _ & Ht).
  rewrite Ht. by rewrite list_lookup_middle.
Qed.

Lemma loadPhotosPaginated_mounted page append w :
  mounted w → mounted (loadPhotosPaginated page append w).
Proof.
  intros Hm. unfold loadPhotosPaginated. destruct (isLoading (this w)); [done|].
  unfold mounted. fields.
  by apply (showLoadingIndicator_mounted (with_this (set_isLoading true (this w)) w)).
Qed.

Lemma fetchPage_spec f w :
  mounted w → isLoading (this w) = false →
  let w' := fetch f w in
  mounted w' ∧ isLoading (this w') = false
  ∧ hasMore (this w') = fetch_has_more f ∧ currentPage (this w') = fetch_page f
  ∧ loadMore_shown (document w') = fetch_has_more f
  ∧ loadMore_hidden (document w') = negb (fetch_has_more f).
Proof.
  intros Hm Hl. cbn zeta. rewrite fetchPage_unfold by done.
  apply resumeLoad_listing. unfold mounted. fields.
  by apply loadPhotosPaginated_mounted.
Qed.

Lemma fetchPages_snoc fs f w : fetches (fs ++ [f]) w = fetch f (fetches fs w).
Proof. unfold fetchPages. by rewrite foldl_app. Qed.

Lemma fetchPages_ready fs w :
  mounted w → isLoading (this w) = false →
  mounted (fetches fs w) ∧ isLoading (this (fetches fs w)) = false.
Proof.
  intros Hm Hl. induction fs as [|f fs IH] using rev_ind; [done|].
  rewrite fetchPages_snoc. destruct IH as [Hm' Hl'].
  destruct (fetchPage_spec f _ Hm' Hl') as (? & ? & _). done.
Qed.

(** The throttled scroll handler asks for a page only from a world in which
    [hasMore] is true and [isLoading] is false, and then for the page after
    the current one, appending. *)
Lemma scrollHandler_cases st wh dh w :
  (inThrottle w = false ∧ documentHeight_reached st wh dh
   ∧ hasMore (this w) = true ∧ isLoading (this w) = false
   ∧ scrollHandler st wh dh w
     = with_inThrottle true (loadPhotosPaginated (currentPage (this w) + 1) true w))
  ∨ ((inThrottle w = true ∨ ¬ documentHeight_reached st wh dh
      ∨ hasMore (this w) = false ∨ isLoading (this w) = true)
     ∧ scrollHandler st wh dh w = with_inThrottle (inThrottle w || true) w
     ∧ network (scrollHandler st wh dh w) = network w
     ∧ tasks (scrollHandler st wh dh w) = tasks w).
Proof.
  unfold scrollHandler, scrollCheck, documentHeight_reached.
  destruct (inThrottle w) eqn:Ht.
  { right. split; [auto|]. by destruct w; simpl in *; subst. }
  case_bool_decide as Hb; [|right; by auto 6].
  destruct (hasMore (this w)); [|right; by auto 6].
  destruct (isLoading (this w)); [right; by auto 6|].
  left. done.
Qed.

Lemma scrolling_no_fetch w e :
  hasMore (this w) = false → scrolling e →
  network (step_ w e) = network w ∧ tasks (step_ w e) = tasks w
  ∧ hasMore (this (step_ w e)) = false.
Proof.
  intros Hh He. destruct e as [| | |st wh dh| | | | | |]; try done; simpl.
  - destruct (scrollHandler_cases st wh dh w) as [(_ & _ & Hh' & _)|(_ & -> & _)];
      [congruence | done].
  - by destruct (inThrottle w).
Qed.

Lemma scrolling_run_no_fetch es w :
  hasMore (this w) = false → Forall scrolling es →
  network (run_ w es) = network w ∧ tasks (run_ w es) = tasks w
  ∧ hasMore (this (run_ w es)) = false.
Proof.
  intros Hh Hs. revert w Hh. induction Hs as [|e es He _ IH]; intros w Hh; [done|].
  unfold run in *. cbn [foldl].
  destruct (scrolling_no_fetch w e Hh He) as (Hn & Ht & Hh').
  destruct (IH _ Hh') as (-> & -> & ->). done.
Qed.


(** *** The [loadedPhotos] set *)

Lemma boot_loadedPhotos io pg : loadedPhotos (this (boot io pg)) = ∅.
Proof. destruct pg as [[] lg ps], io; reflexivity. Qed.

Lemma run_loadedPhotos es w : loadedPhotos (this (run_ w es)) = loadedPhotos (this w).
Proof.
  revert w. induction es as [|e es IH]; intros w; [done|].
  unfold run in *. cbn [foldl]. rewrite IH. by destruct (step_loadedPhotos w e).
Qed.

(** C9, amended ([loadedPhotos] is declared and nothing more). The set is
    empty when the optimizer is built and stays empty whatever happens on
    the page: no handler writes it.  The renderer does not read it either:
    rendering commutes with any change of the set, so what is rendered for a
    record never depends on what the set holds. *)
Theorem loadedPhotos_is_never_used :
  (∀ (io : bool) (pg : Page) (es : list Event),
     loadedPhotos (this (run_ (boot io pg) es)) = ∅)
  ∧ (∀ (w : World) (e : Event),
       loadedPhotos (this (step_ w e)) = loadedPhotos (this w))
  ∧ (∀ (records : list PhotoRecord) (append : bool) (w : World) (s : gset string),
       render records append (with_this (set_loadedPhotos s (this w)) w)
       = with_this (set_loadedPhotos s (this (render records append w)))
           (render records append w)).
Proof.
  split; [|split].
  - intros io pg es. by rewrite run_loadedPhotos, boot_loadedPhotos.
  - intros w e. by destruct (step_loadedPhotos w e).
  - intros records append w s. unfold renderPhotosOptimized. fields.
    destruct (photoWall (document w)); [|done].
    destruct (_ && _); [done|]. destruct (items_from _ _ _).
    by destruct (lazyLoadObserver (this w)).
Qed.

End Properties.

(** ** The life of a placeholder, on views *)

Lemma phase_le_refl p : phase_le p p.
Proof. by left. Qed.

Lemma phase_le_trans p q r : phase_le p q → phase_le q r → phase_le p r.
Proof. unfold phase_le. intros [->|H1] [->|H2]; auto. right. lia. Qed.

Lemma phase_le_Unwatched q : phase_le Unwatched q.
Proof. destruct q; [by left | right; simpl; lia ..]. Qed.

(** [loaded] and [failed] are final; nothing later than [watched] leads back
    to it. *)
Lemma phase_le_final p q :
  phase_le p q →
  (p = Loaded → q = Loaded) ∧ (p = Failed → q = Failed)
  ∧ (p = Loading ∨ p = Loaded ∨ p = Failed → q ≠ Watched ∧ q ≠ Unwatched).
Proof.
  intros [->|Hlt]; [by intuition (subst; discriminate)|].
  destruct p, q; simpl in Hlt; try lia; by intuition discriminate.
Qed.

Lemma fresh_not_settled img : fresh_img img → ¬ settled_img img.
Proof. intros (Hs & Hl & _) [H|H]; congruence. Qed.

Lemma watched_not_loading v i :
  wfV v → i ∈ v_loading v → i ∉ default (∅ : gset nat) (v_observer v).
Proof.
  intros Hwf Hi Hw. apply (wf_watched_fresh v Hwf i Hw).
  by apply (wf_loading_started v Hwf).
Qed.

(** *** The invariant is kept *)

Lemma wfV_grows v v' : wfV v → growsV v v' → wfV v'.
Proof.
  intros Hwf (new & added & Himg & Hnew & Hobs & Hadd & Hmark & Hst & Hld & Hok).
  assert (∀ i, i ∈ default (∅ : gset nat) (v_observer v') →
               i ∈ default (∅ : gset nat) (v_observer v) ∨ i ∈ added) as Hin.
  { intros i. rewrite Hobs. destruct (v_observer v); simpl; set_solver. }
  constructor.
  - intros i Hi. rewrite Hst. destruct (Hin i Hi) as [Ho|Ha].
    + by apply (wf_watched_fresh v Hwf).
    + intros Hs. apply (wf_started_bound v Hwf) in Hs. apply Hadd in Ha. lia.
  - rewrite Hst. apply (wf_started_once v Hwf).
  - rewrite Hld. apply (wf_loading_once v Hwf).
  - rewrite Hst, Hld. apply (wf_loading_started v Hwf).
  - rewrite Hok. apply (wf_tasks v Hwf).
  - done.
  - intros i Hi. destruct (Hin i Hi) as [Ho|Ha].
    + apply (wf_watched_bound v Hwf) in Ho. rewrite Himg, length_app. lia.
    + by apply Hadd.
  - intros i. rewrite Hst. intros Hs. apply (wf_started_bound v Hwf) in Hs.
    rewrite Himg, length_app. lia.
  - intros i img. rewrite Himg, Hst, Hld. intros Hi Hset.
    destruct (decide (i < length (v_images v))%nat) as [Hlt|Hge].
    + rewrite lookup_app_l in Hi by done. by apply (wf_settled v Hwf i img).
    + rewrite lookup_app_r in Hi by lia.
      apply list_elem_of_lookup_2 in Hi.
      rewrite Forall_forall in Hnew. by destruct (fresh_not_settled img (Hnew _ Hi)).
  - rewrite Himg. apply Forall_app. split; [apply (wf_data_src v Hwf)|].
    eapply Forall_impl; [exact Hnew|]. by intros img (_ & _ & ?).
Qed.

Lemma wfV_deliver hits v :
  wfV v → NoDup hits →
  (∀ i, i ∈ hits → i ∈ default (∅ : gset nat) (v_observer v)) →
  wfV (deliverV hits v).
Proof.
  intros Hwf Hnd Hin.
  assert (∀ i, i ∈ default (∅ : gset nat) (v_observer (deliverV hits v)) →
               i ∈ default (∅ : gset nat) (v_observer v) ∧ i ∉ hits) as Hout.
  { intros i. simpl. destruct (v_observer v); simpl; set_solver. }
  assert (∀ i, i ∈ hits → i ∉ v_started v) as Hfresh.
  { intros i Hi. by apply (wf_watched_fresh v Hwf), Hin. }
  constructor; simpl.
  - intros i Hi. destruct (Hout i Hi) as [Ho Hn].
    rewrite elem_of_app. intros [Hs|Hh]; [|done]. by apply (wf_watched_fresh v Hwf i).
  - apply NoDup_app. split; [apply (wf_started_once v Hwf)|]. split; [|done].
    intros i Hs Hh. by apply (Hfresh i).
  - apply NoDup_app. split; [apply (wf_loading_once v Hwf)|]. split; [|done].
    intros i Hl Hh. apply (Hfresh i Hh). by apply (wf_loading_started v Hwf).
  - intros i. rewrite !elem_of_app. intros [Hl|Hh]; [left|by right].
    by apply (wf_loading_started v Hwf).
  - apply (wf_tasks v Hwf).
  - intros Hs. apply (wf_marked v Hwf). by destruct (v_observer v).
  - intros i Hi. destruct (Hout i Hi) as [Ho _]. by apply (wf_watched_bound v Hwf).
  - intros i. rewrite elem_of_app. intros [Hs|Hh].
    + by apply (wf_started_bound v Hwf).
    + by apply (wf_watched_bound v Hwf), Hin.
  - intros i img Hi Hset. destruct (wf_settled v Hwf i img Hi Hset) as [Hs Hl].
    split; [apply elem_of_app; by left|].
    rewrite elem_of_app. intros [?|Hh]; [done|]. by apply (Hfresh i).
  - apply (wf_data_src v Hwf).
Qed.

Lemma wfV_settles f i v v' :
  wfV v → (∀ img, data_src (f img) = data_src img) → settlesV f i v v' → wfV v'.
Proof.
  intros Hwf Hf (l1 & l2 & Hld & ->).
  pose proof (wf_loading_once v Hwf) as Hnd. rewrite Hld in Hnd.
  apply NoDup_app in Hnd as (Hnd1 & Hdisj & Hnd2). apply NoDup_cons in Hnd2 as [Hi2 Hnd2].
  assert (i ∉ l1 ++ l2) as Hout.
  { rewrite elem_of_app. intros [H1|H2]; [|done]. apply (Hdisj i H1). by left. }
  assert (∀ j, j ∈ l1 ++ l2 → j ∈ v_loading v) as Hsub.
  { intros j. rewrite Hld, !elem_of_app, elem_of_cons. tauto. }
  assert (i ∈ v_loading v) as Hi.
  { rewrite Hld, elem_of_app, elem_of_cons. tauto. }
  constructor; simpl.
  - apply (wf_watched_fresh v Hwf).
  - apply (wf_started_once v Hwf).
  - apply NoDup_app. split; [done|]. split; [|done].
    intros j H1 H2. apply (Hdisj j H1). by right.
  - intros j Hj. by apply (wf_loading_started v Hwf), Hsub.
  - apply (wf_tasks v Hwf).
  - apply (wf_marked v Hwf).
  - intros j Hj. rewrite length_alter. by apply (wf_watched_bound v Hwf).
  - intros j Hj. rewrite length_alter. by apply (wf_started_bound v Hwf).
  - intros j img Hj Hset. destruct (decide (j = i)) as [->|Hne].
    + split; [by apply (wf_loading_started v Hwf) | done].
    + rewrite list_lookup_alter_ne in Hj by done.
      destruct (wf_settled v Hwf j img Hj Hset) as [Hs Hl]. split; [done|].
      intros Hin. by apply Hl, Hsub.
  - apply Forall_alter; [apply (wf_data_src v Hwf)|]. intros img _ Himg. by rewrite Hf.
Qed.

Lemma wfV_moves v v' : wfV v → moves v v' → wfV v'.
Proof.
  intros Hwf [->|Hg|hits Hnd Hin _ ->|i url Hs|i Hs].
  - done.
  - by eapply wfV_grows.
  - by apply wfV_deliver.
  - by eapply wfV_settles; [| |exact Hs].
  - by eapply wfV_settles; [| |exact Hs].
Qed.

(** *** The phase only moves forward *)

Lemma phaseV_ext v v' i :
  ((i ∈ default (∅ : gset nat) (v_observer v))
   ↔ (i ∈ default (∅ : gset nat) (v_observer v'))) →
  ((i ∈ v_loading v) ↔ (i ∈ v_loading v')) →
  v_images v !! i = v_images v' !! i →
  phaseV v i = phaseV v' i.
Proof.
  intros Hw Hl Hi. unfold phaseV. rewrite Hi.
  repeat case_bool_decide; try tauto; done.
Qed.

Lemma phaseV_Watched v i :
  i ∈ default (∅ : gset nat) (v_observer v) → phaseV v i = Watched.
Proof. intros Hi. unfold phaseV. by rewrite bool_decide_true. Qed.

Lemma phaseV_Loading v i :
  i ∉ default (∅ : gset nat) (v_observer v) → i ∈ v_loading v → phaseV v i = Loading.
Proof.
  intros Hw Hl. unfold phaseV. rewrite bool_decide_false by done.
  by rewrite bool_decide_true.
Qed.

Lemma phaseV_idle v i :
  i ∉ default (∅ : gset nat) (v_observer v) → i ∉ v_loading v →
  phaseV v i = match v_images v !! i with
               | Some img =>
                   if class_loaded img then Loaded
                   else if bool_decide (src img = EmptyString) then Unwatched else Failed
               | None => Unwatched
               end.
Proof. intros Hw Hl. unfold phaseV. by rewrite !bool_decide_false by done. Qed.

(** In a final phase the element is neither watched nor loading, and it
    exists. *)
Lemma phaseV_final v i :
  phaseV v i = Loaded ∨ phaseV v i = Failed →
  (i ∉ default (∅ : gset nat) (v_observer v)) ∧ (i ∉ v_loading v)
  ∧ ∃ img, v_images v !! i = Some img ∧ settled_img img.
Proof.
  unfold phaseV, settled_img. repeat case_bool_decide; try (intros [?|?]; discriminate).
  destruct (v_images v !! i) as [img|]; [|intros [?|?]; discriminate].
  intros Hp. repeat split; try done. exists img. split; [done|].
  destruct (class_loaded img); [by left|]. right.
  case_bool_decide; [destruct Hp; discriminate | done].
Qed.

Lemma phaseV_grows v v' i : wfV v → growsV v v' → phase_le (phaseV v i) (phaseV v' i).
Proof.
  intros Hwf (new & added & Himg & Hnew & Hobs & Hadd & _ & _ & Hld & _).
  destruct (decide (i < length (v_images v))%nat) as [Hlt|Hge].
  - left. apply phaseV_ext.
    + rewrite Hobs. destruct (v_observer v) as [obs|]; simpl; [|done].
      rewrite elem_of_union, elem_of_list_to_set. split; [by left|].
      intros [?|Ha]; [done|]. apply Hadd in Ha. lia.
    + by rewrite Hld.
    + rewrite Himg. by rewrite lookup_app_l.
  - assert (phaseV v i = Unwatched) as ->; [|apply phase_le_Unwatched].
    rewrite phaseV_idle.
    + by rewrite lookup_ge_None_2 by lia.
    + intros Hw. apply (wf_watched_bound v Hwf) in Hw. lia.
    + intros Hl. apply (wf_loading_started v Hwf), (wf_started_bound v Hwf) in Hl. lia.
Qed.

Lemma phaseV_deliver hits v i :
  wfV v → (∀ j, j ∈ hits → j ∈ default (∅ : gset nat) (v_observer v)) →
  (i ∈ hits → phaseV v i = Watched ∧ phaseV (deliverV hits v) i = Loading)
  ∧ (i ∉ hits → phaseV (deliverV hits v) i = phaseV v i).
Proof.
  intros Hwf Hin. split.
  - intros Hi. split; [by apply phaseV_Watched, Hin|].
    apply phaseV_Loading; simpl.
    + destruct (v_observer v); simpl; set_solver.
    + apply elem_of_app. by right.
  - intros Hi. symmetry. apply phaseV_ext; simpl; [| |done].
    + destruct (v_observer v); simpl; set_solver.
    + rewrite elem_of_app. tauto.
Qed.

Lemma phaseV_settles f i v v' j :
  wfV v → settlesV f i v v' →
  (∀ img, ¬ settled_img img →
          class_loaded (f img) = true
          ∨ (class_loaded (f img) = false ∧ src (f img) ≠ EmptyString)) →
  phaseV v i = Loading
  ∧ (phaseV v' i = Loaded ∨ phaseV v' i = Failed)
  ∧ (j ≠ i → phaseV v' j = phaseV v j ∧ v_images v' !! j = v_images v !! j).
Proof.
  intros Hwf (l1 & l2 & Hld & ->) Hf.
  pose proof (wf_loading_once v Hwf) as Hnd. rewrite Hld in Hnd.
  apply NoDup_app in Hnd as (Hnd1 & Hdisj & Hnd2). apply NoDup_cons in Hnd2 as [Hi2 Hnd2].
  assert (i ∉ l1 ++ l2) as Hout.
  { rewrite elem_of_app. intros [H1|H2]; [|done]. apply (Hdisj i H1). by left. }
  assert (i ∈ v_loading v) as Hi.
  { rewrite Hld, elem_of_app, elem_of_cons. tauto. }
  pose proof (watched_not_loading v i Hwf Hi) as Hnw.
  split; [by apply phaseV_Loading|]. split.
  - rewrite phaseV_idle by done. simpl. rewrite list_lookup_alter_eq.
    pose proof (wf_loading_started v Hwf i Hi) as Hs.
    apply (wf_started_bound v Hwf) in Hs.
    destruct (lookup_lt_is_Some_2 _ _ Hs) as [img Himg]. rewrite Himg. simpl.
    assert (¬ settled_img img) as Hns.
    { intros Hset. by destruct (wf_settled v Hwf i img Himg Hset). }
    destruct (Hf img Hns) as [->|[-> Hsrc]]; [by left|].
    right. by rewrite bool_decide_false.
  - intros Hne. split; [|simpl; by rewrite list_lookup_alter_ne].
    symmetry. apply phaseV_ext; simpl; [done| |by rewrite list_lookup_alter_ne].
    rewrite Hld, !elem_of_app, elem_of_cons. split; [|tauto].
    intros [?|[?|?]]; [by left|done|by right].
Qed.

Lemma on_load_settles img :
  ∀ url, class_loaded (on_load url img) = true
         ∨ (class_loaded (on_load url img) = false ∧ src (on_load url img) ≠ EmptyString).
Proof. by left. Qed.

Lemma on_error_settles img :
  ¬ settled_img img →
  class_loaded (on_error img) = true
  ∨ (class_loaded (on_error img) = false ∧ src (on_error img) ≠ EmptyString).
Proof.
  intros Hns. right. split; [|done]. simpl.
  destruct (class_loaded img) eqn:Hl; [|done]. destruct Hns. by left.
Qed.

(** One handler run moves no placeholder backwards. *)
Lemma phaseV_moves v v' i : wfV v → moves v v' → phase_le (phaseV v i) (phaseV v' i).
Proof.
  intros Hwf [->|Hg|hits Hnd Hin _ ->|j url Hs|j Hs].
  - apply phase_le_refl.
  - by apply phaseV_grows.
  - destruct (phaseV_deliver hits v i Hwf Hin) as [Hhit Hmiss].
    destruct (decide (i ∈ hits)) as [Hi|Hi].
    + destruct (Hhit Hi) as [-> ->]. right. simpl. lia.
    + rewrite (Hmiss Hi). apply phase_le_refl.
  - destruct (phaseV_settles _ j v v' i Hwf Hs (λ img _, on_load_settles img url))
      as (Hb & Ha & Hother).
    destruct (decide (i = j)) as [->|Hne].
    + rewrite Hb. right. destruct Ha as [->| ->]; simpl; lia.
    + destruct (Hother Hne) as [-> _]. apply phase_le_refl.
  - destruct (phaseV_settles _ j v v' i Hwf Hs on_error_settles) as (Hb & Ha & Hother).
    destruct (decide (i = j)) as [->|Hne].
    + rewrite Hb. right. destruct Ha as [->| ->]; simpl; lia.
    + destruct (Hother Hne) as [-> _]. apply phase_le_refl.
Qed.

(** An element in a final phase is not touched any more, and no load starts
    for an element that is not watched. *)
Lemma final_moves v v' i :
  wfV v → moves v v' → phaseV v i = Loaded ∨ phaseV v i = Failed →
  v_images v' !! i = v_images v !! i.
Proof.
  intros Hwf Hm Hp. destruct (phaseV_final v i Hp) as (Hnw & Hnl & img & Himg & _).
  destruct Hm as [->|Hg|hits Hnd Hin _ ->|j url Hs|j Hs]; [done| |done| |].
  - destruct Hg as (new & added & -> & _).
    apply lookup_app_l. by eapply lookup_lt_Some.
  - destruct (phaseV_settles _ j v v' i Hwf Hs (λ img _, on_load_settles img url))
      as (Hb & _ & Hother).
    destruct (decide (i = j)) as [->|Hne]; [|by destruct (Hother Hne)].
    rewrite Hb in Hp. by destruct Hp.
  - destruct (phaseV_settles _ j v v' i Hwf Hs on_error_settles) as (Hb & _ & Hother).
    destruct (decide (i = j)) as [->|Hne]; [|by destruct (Hother Hne)].
    rewrite Hb in Hp. by destruct Hp.
Qed.

Lemma NoDup_filter_eq (i : nat) (l : list nat) :
  NoDup l →
  (length (filter (λ j, j = i) l) ≤ 1)%nat
  ∧ (i ∈ l → length (filter (λ j, j = i) l) = 1%nat)
  ∧ (i ∉ l → length (filter (λ j, j = i) l) = 0%nat).
Proof.
  induction 1 as [|x l Hx Hnd (IH1 & IH2 & IH3)].
  { split_and!; [simpl; lia | by intros ?%elem_of_nil | done]. }
  rewrite filter_cons. destruct (decide (x = i)) as [->|Hne]; simpl.
  - rewrite (IH3 Hx). split_and!; [lia|done|]. intros Hn. destruct Hn. by left.
  - split_and!; [done| |].
    + intros [?|Hi]%elem_of_cons; [congruence | by apply IH2].
    + intros Hn. apply IH3. intros Hi. apply Hn. by right.
Qed.

(** The end of a load with an error: the element holds the fallback and is
    in [failed]. *)
Lemma error_phase i v v' :
  wfV v → settlesV on_error i v v' →
  ∃ img, v_images v !! i = Some img ∧ v_images v' !! i = Some (on_error img)
         ∧ phaseV v' i = Failed.
Proof.
  intros Hwf Hs. pose proof Hs as (l1 & l2 & Hld & Hv').
  destruct (phaseV_settles _ i v v' i Hwf Hs on_error_settles) as (_ & Hp & _).
  assert (i ∈ v_loading v) as Hi.
  { rewrite Hld, elem_of_app, elem_of_cons. tauto. }
  pose proof (wf_loading_started v Hwf i Hi) as Hst.
  apply (wf_started_bound v Hwf) in Hst.
  destruct (lookup_lt_is_Some_2 _ _ Hst) as [img Himg].
  exists img. split; [done|].
  assert (v_images v' !! i = Some (on_error img)) as Himg'.
  { rewrite Hv'. simpl. by rewrite list_lookup_alter_eq, Himg. }
  split; [done|].
  destruct (phaseV_final v' i Hp) as (Hnw & Hnl & _).
  assert (class_loaded img = false) as Hcl.
  { destruct (class_loaded img) eqn:Hc; [|done].
    destruct (wf_settled v Hwf i img Himg (or_introl Hc)) as [_ Hn]. by destruct Hn. }
  rewrite phaseV_idle, Himg' by done. simpl. by rewrite Hcl.
Qed.

(** An element in a final phase has had exactly one load. *)
Lemma final_loaded_once v i :
  wfV v → phaseV v i = Loaded ∨ phaseV v i = Failed →
  length (filter (λ j, j = i) (v_started v)) = 1%nat.
Proof.
  intros Hwf Hp. destruct (phaseV_final v i Hp) as (_ & _ & img & Himg & Hset).
  destruct (wf_settled v Hwf i img Himg Hset) as [Hs _].
  destruct (NoDup_filter_eq i _ (wf_started_once v Hwf)) as (_ & H1 & _). by apply H1.
Qed.

(** ** The life of a placeholder, on the page *)

Lemma view_eq w w' :
  lazyLoadObserver (this w') = lazyLoadObserver (this w) →
  images (document w') = images (document w) →
  photo_items (document w') = photo_items (document w) →
  started w' = started w → loading w' = loading w →
  forallb lazy_task (tasks w') = forallb lazy_task (tasks w) →
  view w' = view w.
Proof. unfold view. by intros -> -> -> -> -> ->. Qed.

Lemma started_network w rs :
  (∀ rq, rq ∈ rs → match rq with GetImage _ (Some _) => False | _ => True end) →
  omap (λ rq, match rq with GetImage _ (Some i) => Some i | _ => None end) (network w ++ rs)
  = started w.
Proof.
  intros Hrs. rewrite omap_app. fold (started w).
  assert (omap (λ rq, match rq with GetImage _ (Some i) => Some i | _ => None end) rs = [])
    as ->; [|by rewrite app_nil_r].
  induction rs as [|rq rs IH]; [done|]. cbn.
  pose proof (Hrs rq (list_elem_of_here _ _)) as Hrq.
  destruct rq as [|url [i|]]; try done; apply IH; intros rq' Hin; apply Hrs; by right.
Qed.

Lemma growsV_refl v :
  (is_Some (v_observer v) → Forall (λ it, item_observed it = true) (v_items v)) →
  growsV v v.
Proof.
  intros Hm. exists [], []. rewrite app_nil_r. split_and!; try done.
  - destruct (v_observer v); simpl; [|done]. f_equal. set_solver.
  - by intros i Hi%elem_of_nil.
Qed.

Lemma omap_observed_nil (items : list PhotoItem) :
  Forall (λ it, item_observed it = true) items →
  omap (λ it, if item_observed it then None else item_img it) items = [].
Proof. induction 1 as [|it items Hit _ IH]; [done|]. cbn. by rewrite Hit. Qed.

Lemma omap_unobserved (items : list PhotoItem) :
  Forall (λ it, item_observed it = false) items →
  omap (λ it, if item_observed it then None else item_img it) items = omap item_img items.
Proof. induction 1 as [|it items Hit _ IH]; [done|]. cbn. by rewrite Hit, IH. Qed.

Lemma delete_omap_None {A B} (f : A → option B) (l : list A) k x :
  l !! k = Some x → f x = None → omap f (delete k l) = omap f l.
Proof.
  intros Hk Hx. rewrite delete_take_drop. rewrite <- (take_drop_middle l k x Hk) at 3.
  rewrite !omap_app. cbn. by rewrite Hx.
Qed.

Lemma delete_omap_Some {A B} (f : A → option B) (l : list A) k x y :
  l !! k = Some x → f x = Some y →
  ∃ l1 l2, omap f l = l1 ++ y :: l2 ∧ omap f (delete k l) = l1 ++ l2.
Proof.
  intros Hk Hx. exists (omap f (take k l)), (omap f (drop (S k) l)).
  rewrite delete_take_drop. rewrite <- (take_drop_middle l k x Hk) at 1.
  rewrite !omap_app. cbn. by rewrite Hx.
Qed.

Lemma forallb_delete {A} (p : A → bool) (l : list A) k :
  forallb p l = true → forallb p (delete k l) = true.
Proof.
  revert k. induction l as [|x l IH]; intros k; [done|].
  cbn [forallb]. intros [Hx Hl]%andb_true_iff.
  destruct k as [|k]; cbn; [done|]. by rewrite Hx, IH.
Qed.

Section Lifecycle.

Context (baseUrl : string) (photoBatchMode : bool).

Local Abbreviation render := (renderPhotosOptimized baseUrl photoBatchMode).
Local Abbreviation resume := (resumeLoad baseUrl photoBatchMode).
Local Abbreviation step_ := (step baseUrl photoBatchMode).
Local Abbreviation run_ := (run baseUrl photoBatchMode).
Local Abbreviation items_from := (createItems baseUrl photoBatchMode).

Lemma thumbnailUrl_nonempty id : thumbnailUrl baseUrl id ≠ EmptyString.
Proof. unfold thumbnailUrl. by destruct baseUrl. Qed.

Lemma createPhotoItem_spec p idx imgs :
  ∃ one,
    (createPhotoItem baseUrl photoBatchMode p idx imgs).2 = imgs ++ one
    ∧ Forall fresh_img one
    ∧ item_observed (createPhotoItem baseUrl photoBatchMode p idx imgs).1 = false
    ∧ ∀ i, item_img (createPhotoItem baseUrl photoBatchMode p idx imgs).1 = Some i →
           (length imgs ≤ i < length (imgs ++ one))%nat.
Proof.
  unfold createPhotoItem. case_bool_decide.
  - exists []. rewrite app_nil_r. by split_and!.
  - eexists [_]. split; [done|]. split; [|split; [done|]].
    + repeat constructor. apply thumbnailUrl_nonempty.
    + intros i [= <-]. rewrite length_app. simpl. lia.
Qed.

Lemma createItems_spec ps idx imgs :
  ∃ new,
    (items_from ps idx imgs).2 = imgs ++ new
    ∧ Forall fresh_img new
    ∧ Forall (λ it, item_observed it = false) (items_from ps idx imgs).1
    ∧ ∀ i, i ∈ omap item_img (items_from ps idx imgs).1 →
           (length imgs ≤ i < length (imgs ++ new))%nat.
Proof.
  revert idx imgs. induction ps as [|p ps IH]; intros idx imgs.
  { exists []. rewrite app_nil_r. split_and!; [done..|]. by intros i Hi%elem_of_nil. }
  cbn [createItems].
  destruct (createPhotoItem_spec p idx imgs) as (one & H1 & Hf1 & Ho1 & Hb1).
  destruct (createPhotoItem baseUrl photoBatchMode p idx imgs) as [it imgs1].
  simpl in H1, Ho1, Hb1. subst imgs1.
  destruct (IH (S idx) (imgs ++ one)) as (new & H2 & Hf2 & Ho2 & Hb2).
  destruct (items_from ps (S idx) (imgs ++ one)) as [items imgs2].
  simpl in H2, Ho2, Hb2. subst imgs2. simpl.
  exists (one ++ new). rewrite app_assoc. split_and!; [done| | |].
  - by apply Forall_app.
  - by constructor.
  - intros i H. cbn in H. rewrite !length_app in *.
    destruct (item_img it) as [j|] eqn:Hj.
    + apply elem_of_cons in H as [->|H].
      * specialize (Hb1 _ eq_refl). lia.
      * apply Hb2 in H. lia.
    + apply Hb2 in H. lia.
Qed.

(** A render grows the view. *)
Lemma render_grows records append w :
  (is_Some (lazyLoadObserver (this w)) →
   Forall (λ it, item_observed it = true) (photo_items (document w))) →
  growsV (view w) (view (render records append w)).
Proof.
  intros Hmark. unfold renderPhotosOptimized.
  destruct (photoWall (document w)) as [children|] eqn:Hw; [|by apply growsV_refl].
  destruct (_ && _).
  { exists [], []. unfold view. fields. simpl. rewrite app_nil_r. split_and!; try done.
    - destruct (lazyLoadObserver (this w)); simpl; [|done]. f_equal. set_solver.
    - by intros i Hi%elem_of_nil. }
  destruct (createItems_spec records 0 (images (document w))) as (new & Himg & Hnew & Hobs & Hb).
  destruct (items_from records 0 (images (document w))) as [items imgs].
  simpl in Himg, Hobs, Hb. subst imgs.
  assert (Forall (λ it, item_observed it = true)
            (items_of (if append then children else [])) ∨ lazyLoadObserver (this w) = None)
    as Hold.
  { destruct (lazyLoadObserver (this w)) as [obs|]; [left|by right].
    destruct append; [|by constructor].
    specialize (Hmark (mk_is_Some _ _ eq_refl)).
    unfold photo_items, wall_children in Hmark. by rewrite Hw in Hmark. }
  destruct (lazyLoadObserver (this w)) as [obs|] eqn:Ho.
  - destruct Hold as [Hold|?]; [|done].
    exists new, (omap item_img items). unfold view. fields. rewrite Ho. simpl.
    split_and!; try done.
    + f_equal. f_equal. f_equal. unfold unobserved_imgs.
      rewrite items_of_app, omap_photo_fmap, omap_app.
      by rewrite omap_observed_nil, omap_unobserved.
    + intros _. unfold photo_items, wall_children. simpl.
      rewrite items_of_marked. apply Forall_fmap. by apply Forall_true.
  - exists new, []. unfold view. fields. rewrite Ho. simpl.
    split_and!; try done.
    + by intros i Hi%elem_of_nil.
Qed.

(** *** What each handler does to the view *)

Lemma loadPhotosPaginated_view page append w :
  view (loadPhotosPaginated page append w) = view w.
Proof.
  pose proof (loadPhotosPaginated_frame page append w) as H.
  cbn zeta in H. decompose [and] H.
  destruct (isLoading (this w)) eqn:Hl.
  { unfold loadPhotosPaginated. by rewrite Hl. }
  destruct (loadPhotosPaginated_started page append w Hl) as (_ & Hn & Ht).
  apply view_eq; try done.
  - unfold started at 1. rewrite Hn. apply started_network.
    by intros rq ->%list_elem_of_singleton.
  - unfold loading. rewrite Ht, omap_app. simpl. by rewrite app_nil_r.
  - rewrite Ht, forallb_app. simpl. by rewrite andb_true_r.
Qed.

Lemma preloadNextPage_view w : view (preloadNextPage w) = view w.
Proof.
  unfold preloadNextPage. destruct (_ || _); [done|].
  apply view_eq; try done; fields.
  - apply started_network. by intros rq ->%list_elem_of_singleton.
  - unfold loading. fields. rewrite omap_app. simpl. by rewrite app_nil_r.
  - rewrite forallb_app. simpl. by rewrite andb_true_r.
Qed.

Lemma scrollHandler_view st wh dh w : view (scrollHandler st wh dh w) = view w.
Proof.
  unfold scrollHandler, scrollCheck. destruct (inThrottle w); [done|].
  destruct (bool_decide _); [|done]. destruct (_ && _); [|done].
  change (view (with_inThrottle true ?w')) with (view w').
  apply loadPhotosPaginated_view.
Qed.

Lemma drop_task_view k t w :
  wf w → tasks w !! k = Some t → task_img t = None → view (drop_task k w) = view w.
Proof.
  intros Hwf Hk Ht. apply view_eq; try done.
  - unfold loading. fields. by eapply delete_omap_None.
  - fields. pose proof (wf_tasks _ Hwf) as Hok. simpl in Hok.
    by rewrite Hok, forallb_delete.
Qed.

Lemma resumeLoad_failed_view page append r w :
  failed r → view (resume page append r w) = view w.
Proof.
  intros Hr. pose proof (resumeLoad_failed baseUrl photoBatchMode page append r w Hr) as H.
  cbn zeta in H. decompose [and] H.
  apply view_eq; try done.
  - unfold started. congruence.
  - unfold loading. congruence.
  - congruence.
Qed.

Lemma updateLoadMoreButton_view w : view (updateLoadMoreButton w) = view w.
Proof.
  pose proof (updateLoadMoreButton_frame w) as H.
  cbn zeta in H. decompose [and] H.
  apply view_eq; try done; unfold started, loading; congruence.
Qed.

Lemma hideLoadingIndicator_view w : view (hideLoadingIndicator w) = view w.
Proof.
  pose proof (hideLoadingIndicator_frame w) as H. decompose [and] H.
  apply view_eq; try done; unfold started, loading; congruence.
Qed.

Lemma resumeLoad_listing_grows page append ps hm w :
  (is_Some (lazyLoadObserver (this w)) →
   Forall (λ it, item_observed it = true) (photo_items (document w))) →
  growsV (view w) (view (resume page append (Listing ps hm) w)).
Proof.
  intros Hmark. unfold resumeLoad. cbn [tryLoad].
  rewrite hideLoadingIndicator_view.
  change (view (with_this (set_isLoading false (this ?w')) ?w')) with (view w').
  rewrite updateLoadMoreButton_view.
  by apply (render_grows ps append
              (with_this (set_currentPage page (set_hasMore hm (this w)))
                 (with_photos (if append then photos w ++ ps else ps) w))).
Qed.

Lemma resumePreload_view r w : view (resumePreload baseUrl r w) = view w.
Proof.
  destruct r as [e| |e|ps hm]; try done.
  apply view_eq; try done. fields. apply started_network.
  by intros rq (p & -> & _)%list_elem_of_fmap.
Qed.

Lemma deliverV_app h1 h2 v : deliverV h2 (deliverV h1 v) = deliverV (h1 ++ h2) v.
Proof.
  unfold deliverV. simpl. rewrite <- !app_assoc. f_equal.
  destruct (v_observer v) as [obs|]; simpl; [|done].
  f_equal. rewrite list_to_set_app_L. set_solver.
Qed.

Lemma deliverV_nil v : deliverV [] v = v.
Proof.
  destruct v as [o ? ? ? ? ?]. unfold deliverV. simpl. rewrite !app_nil_r. f_equal.
  destruct o as [obs|]; simpl; [|done]. f_equal. set_solver.
Qed.

(** One intersecting entry: the load starts and the element is unobserved. *)
Lemma fire_view i img w :
  images (document w) !! i = Some img → data_src img ≠ EmptyString →
  view (with_this (unobserve i (this (loadImage i w))) (loadImage i w))
  = deliverV [i] (view w).
Proof.
  intros Hi Hsrc. unfold loadImage. rewrite Hi. rewrite bool_decide_false by done.
  unfold view, deliverV. fields. simpl. f_equal.
  - destruct (lazyLoadObserver (this w)) as [obs|]; simpl; [|done]. f_equal. set_solver.
  - unfold started. fields. by rewrite omap_app.
  - unfold loading. fields. by rewrite omap_app.
  - rewrite forallb_app. simpl. by rewrite andb_true_r.
Qed.

Lemma observerCallback_view entries w :
  (∀ i, i ∈ hits entries →
        ∃ img, images (document w) !! i = Some img ∧ data_src img ≠ EmptyString) →
  view (observerCallback entries w) = deliverV (hits entries) (view w).
Proof.
  revert w. unfold observerCallback.
  induction entries as [|[i b] entries IH]; intros w Himg.
  { by rewrite deliverV_nil. }
  cbn [foldl]. destruct b; simpl.
  - destruct (Himg i) as (img & Hi & Hsrc).
    { unfold hits. rewrite filter_cons_True by done. by left. }
    rewrite IH.
    + rewrite (fire_view i img w Hi Hsrc), deliverV_app.
      unfold hits. by rewrite filter_cons_True by done.
    + intros j Hj. destruct (loadImage_frame i w) as (_ & _ & _ & Hd & _).
      fields. rewrite Hd. apply Himg. unfold hits.
      rewrite filter_cons_True by done. by right.
  - rewrite IH.
    + unfold hits. by rewrite filter_cons_False by done.
    + intros j Hj. apply Himg. unfold hits. by rewrite filter_cons_False by done.
Qed.

Lemma hits_targets entries :
  NoDup entries.*1 → NoDup (hits entries) ∧ ∀ i, i ∈ hits entries → i ∈ entries.*1.
Proof.
  unfold hits. induction entries as [|[i b] entries IH]; intros Hnd.
  { split; [constructor | done]. }
  rewrite fmap_cons in Hnd. apply NoDup_cons in Hnd as [Hi Hnd].
  destruct (IH Hnd) as [IH1 IH2].
  rewrite filter_cons. destruct (decide _) as [Hb|Hb]; rewrite !fmap_cons; cbn [fst].
  - split.
    + apply NoDup_cons. split; [|done]. intros Hin. by apply Hi, IH2.
    + intros j [->|Hj]%elem_of_cons; [by left | right; by apply IH2].
  - split; [done|]. intros j Hj. right. by apply IH2.
Qed.

Lemma tempImg_settles f k i url w :
  wf w → tasks w !! k = Some (TempImage i url) →
  settlesV f i (view w) (view (update_img f i (drop_task k w))).
Proof.
  intros Hwf Hk.
  destruct (delete_omap_Some task_img (tasks w) k _ i Hk eq_refl) as (l1 & l2 & H1 & H2).
  exists l1, l2. split; [done|].
  pose proof (wf_tasks _ Hwf) as Hok. simpl in Hok.
  unfold view, loading, started, update_img, photo_items, wall_children. fields.
  by rewrite H2, Hok, forallb_delete.
Qed.

Lemma wf_task_lazy k t w : wf w → tasks w !! k = Some t → lazy_task t = true.
Proof.
  intros Hwf Hk. pose proof (wf_tasks _ Hwf) as Hok. simpl in Hok.
  rewrite forallb_forall in Hok. apply Hok. apply list_elem_of_In.
  by eapply list_elem_of_lookup_2.
Qed.

(** Every handler run is one of the moves. *)
Lemma step_moves w e : wf w → moves (view w) (view (step_ w e)).
Proof.
  intros Hwf. destruct e as [page append| | |st wh dh| |k r|entries|k|k|k]; cbn [step].
  - apply moves_same, loadPhotosPaginated_view.
  - apply moves_same, preloadNextPage_view.
  - destruct (loadMore_shown _); [|by apply moves_same].
    apply moves_same, loadPhotosPaginated_view.
  - apply moves_same, scrollHandler_view.
  - by destruct (inThrottle w); apply moves_same.
  - destruct (tasks w !! k) as [t|] eqn:Hk; [|by apply moves_same].
    destruct t as [page append| |i url|i url|i]; try by apply moves_same.
    + pose proof (drop_task_view k _ w Hwf Hk eq_refl) as Hv.
      destruct r as [e| |e|ps hm].
      * apply moves_same. by rewrite resumeLoad_failed_view.
      * apply moves_same. by rewrite resumeLoad_failed_view.
      * apply moves_same. by rewrite resumeLoad_failed_view.
      * apply moves_grows. rewrite <- Hv. apply resumeLoad_listing_grows.
        apply (wf_marked _ Hwf).
    + apply moves_same. rewrite resumePreload_view. by eapply drop_task_view.
  - destruct (lazyLoadObserver (this w)) as [obs|] eqn:Ho; [|by apply moves_same].
    unfold deliverable. case_bool_decide as Hd; [|by apply moves_same].
    destruct Hd as [Hnd Hin]. rewrite Forall_forall in Hin.
    destruct (hits_targets entries Hnd) as [Hnd' Hsub].
    assert (∀ i, i ∈ hits entries → i ∈ default (∅ : gset nat) (v_observer (view w)))
      as Hobs.
    { intros i Hi. simpl. rewrite Ho. simpl. by apply Hin, Hsub. }
    apply (moves_deliver _ _ (hits entries)); [done|done|by simpl; rewrite Ho|].
    apply observerCallback_view. intros i Hi.
    pose proof (wf_watched_bound _ Hwf i (Hobs i Hi)) as Hlt. simpl in Hlt.
    destruct (lookup_lt_is_Some_2 _ _ Hlt) as [img Himg]. exists img. split; [done|].
    pose proof (wf_data_src _ Hwf) as Hsrc. simpl in Hsrc. rewrite Forall_forall in Hsrc.
    apply Hsrc. by eapply list_elem_of_lookup_2.
  - destruct (tasks w !! k) as [t|] eqn:Hk; [|by apply moves_same].
    destruct t as [page append| |i url|i url|i]; try by apply moves_same.
    + apply (moves_load _ _ i url). by apply (tempImg_settles (on_load url) k i url).
    + by pose proof (wf_task_lazy k _ w Hwf Hk).
  - destruct (tasks w !! k) as [t|] eqn:Hk; [|by apply moves_same].
    destruct t as [page append| |i url|i url|i]; try by apply moves_same.
    + apply (moves_error _ _ i). by apply (tempImg_settles on_error k i url).
    + by pose proof (wf_task_lazy k _ w Hwf Hk).
  - destruct (tasks w !! k) as [t|] eqn:Hk; [|by apply moves_same].
    destruct t as [page append| |i url|i url|i]; try by apply moves_same.
    by pose proof (wf_task_lazy k _ w Hwf Hk).
Qed.

Lemma boot_view io pg :
  view (boot io pg) = mkView (if io then Some ∅ else None) [] [] [] [] true.
Proof. destruct pg as [[] lg ps], io; reflexivity. Qed.

Lemma boot_wf io pg : wf (boot io pg).
Proof.
  unfold wf. rewrite boot_view. constructor; simpl; try done.
  - intros i Hi. by destruct io; simpl in Hi; apply not_elem_of_empty in Hi.
  - constructor.
  - constructor.
  - intros i Hi. by destruct io; simpl in Hi; apply not_elem_of_empty in Hi.
  - by intros i Hi%elem_of_nil.
Qed.

Lemma step_wf w e : wf w → wf (step_ w e).
Proof. intros Hwf. eapply wfV_moves; [exact Hwf | by apply step_moves]. Qed.

Lemma run_wf w es : wf w → wf (run_ w es).
Proof.
  revert w. induction es as [|e es IH]; intros w Hwf; [done|].
  unfold run in *. cbn [foldl]. by apply IH, step_wf.
Qed.

Lemma step_phase w e i : wf w → phase_le (phase w i) (phase (step_ w e) i).
Proof. intros Hwf. by apply phaseV_moves, step_moves. Qed.

Lemma run_phase w es i : wf w → phase_le (phase w i) (phase (run_ w es) i).
Proof.
  revert w. induction es as [|e es IH]; intros w Hwf; [apply phase_le_refl|].
  unfold run in *. cbn [foldl].
  eapply phase_le_trans; [by apply step_phase | by apply IH, step_wf].
Qed.

(** A delivery of the detector, seen on the view. *)
Lemma intersection_view w obs entries :
  wf w → lazyLoadObserver (this w) = Some obs → deliverable obs entries = true →
  view (step_ w (Intersection entries)) = deliverV (hits entries) (view w)
  ∧ NoDup (hits entries) ∧ ∀ i, i ∈ hits entries → i ∈ obs.
Proof.
  intros Hwf Ho Hd. cbn [step]. rewrite Ho, Hd.
  unfold deliverable in Hd. apply bool_decide_eq_true in Hd as [Hnd Hin].
  rewrite Forall_forall in Hin. destruct (hits_targets entries Hnd) as [Hnd' Hsub].
  split_and!; [|done|by intros i Hi; apply Hin, Hsub].
  apply observerCallback_view. intros i Hi.
  assert (i ∈ default (∅ : gset nat) (v_observer (view w))) as Hobs.
  { simpl. rewrite Ho. simpl. by apply Hin, Hsub. }
  pose proof (wf_watched_bound _ Hwf i Hobs) as Hlt. simpl in Hlt.
  destruct (lookup_lt_is_Some_2 _ _ Hlt) as [img Himg]. exists img. split; [done|].
  pose proof (wf_data_src _ Hwf) as Hsrc. simpl in Hsrc. rewrite Forall_forall in Hsrc.
  apply Hsrc. by eapply list_elem_of_lookup_2.
Qed.

(** In a final phase the element stays as it is, whatever happens next. *)
Lemma run_final w es i :
  wf w → phase w i = Loaded ∨ phase w i = Failed →
  phase (run_ w es) i = phase w i
  ∧ images (document (run_ w es)) !! i = images (document w) !! i.
Proof.
  revert w. induction es as [|e es IH]; intros w Hwf Hp; [done|].
  unfold run in *. cbn [foldl].
  pose proof (step_phase w e i Hwf) as Hle.
  assert (phase (step_ w e) i = phase w i) as Heq.
  { destruct (phase_le_final _ _ Hle) as (H1 & H2 & _).
    destruct Hp as [Hp|Hp]; rewrite Hp; auto. }
  pose proof (final_moves _ _ i Hwf (step_moves w e Hwf) Hp) as Himg. simpl in Himg.
  destruct (IH (step_ w e) (step_wf w e Hwf)) as [-> ->]; [by rewrite Heq|done].
Qed.

(** C4 (one load per placeholder, no way back). Take any world [w] that the
    page can reach after its start, and any element [i].
    - When the detector reports [i] as intersecting, [i] was watched and no
      load had been started for it; after the callback its load is started,
      it is loading, and it is registered with the observer no more.
    - However the page goes on from [w], at most one load is ever started
      for [i].
    - The phase of [i] never moves backwards: from [loaded] it stays
      [loaded], from [failed] it stays [failed], and once it is loading,
      loaded or failed it is never watched again. *)
Theorem placeholder_loads_once (io : bool) (pg : Page) (es : list Event) (i : nat) :
  let w := run_ (boot io pg) es in
  (∀ (obs : gset nat) (entries : list (nat * bool)),
     lazyLoadObserver (this w) = Some obs → deliverable obs entries = true →
     i ∈ hits entries →
     let w' := step_ w (Intersection entries) in
     phase w i = Watched ∧ loads_of i w = 0%nat
     ∧ phase w' i = Loading ∧ loads_of i w' = 1%nat ∧ i ∉ watched w')
  ∧ (∀ es' : list Event, (loads_of i (run_ w es') ≤ 1)%nat)
  ∧ (∀ es' : list Event,
       let w' := run_ w es' in
       phase_le (phase w i) (phase w' i)
       ∧ (phase w i = Loaded → phase w' i = Loaded)
       ∧ (phase w i = Failed → phase w' i = Failed)
       ∧ (phase w i = Loading ∨ phase w i = Loaded ∨ phase w i = Failed →
          phase w' i ≠ Watched ∧ i ∉ watched w')).
Proof.
  cbn zeta. set (w := run_ (boot io pg) es).
  assert (wf w) as Hwf by apply run_wf, boot_wf.
  split_and!.
  - intros obs entries Ho Hd Hi.
    destruct (intersection_view w obs entries Hwf Ho Hd) as (Hv & Hnd & Hin).
    assert (∀ j, j ∈ hits entries → j ∈ default (∅ : gset nat) (v_observer (view w)))
      as Hobs.
    { intros j Hj. simpl. rewrite Ho. by apply Hin. }
    destruct (phaseV_deliver (hits entries) (view w) i Hwf Hobs) as [Hhit _].
    destruct (Hhit Hi) as [Hb Ha].
    assert (wf (step_ w (Intersection entries))) as Hwf' by (by apply step_wf).
    destruct (NoDup_filter_eq i _ (wf_started_once _ Hwf)) as (_ & _ & H0).
    destruct (NoDup_filter_eq i _ (wf_started_once _ Hwf')) as (_ & H1 & _).
    unfold phase, loads_of, watched.
    change (started ?x) with (v_started (view x)).
    change (lazyLoadObserver (this ?x)) with (v_observer (view x)).
    rewrite Hv in *. split_and!; [done| |done| |].
    + by apply H0, (wf_watched_fresh _ Hwf), Hobs.
    + apply H1. simpl. apply elem_of_app. by right.
    + simpl. rewrite Ho. simpl. rewrite elem_of_difference, elem_of_list_to_set. tauto.
  - intros es'. assert (wf (run_ w es')) as Hwf' by (by apply run_wf).
    by destruct (NoDup_filter_eq i _ (wf_started_once _ Hwf')) as (? & _).
  - intros es'. pose proof (run_phase w es' i Hwf) as Hle.
    destruct (phase_le_final _ _ Hle) as (H1 & H2 & H3).
    split_and!; try done.
    intros Hp. destruct (H3 Hp) as [Hn _]. split; [done|].
    intros Hw. apply Hn. by apply phaseV_Watched.
Qed.

(** C7 (an image that fails to load). In any world the page can reach, let
    the temporary image of element [i] fail.  The handler puts the literal
    fallback graphic in the [src] of [i] and nothing else: it issues no
    request, [i] is in [failed], every other element keeps its state and
    phase, and the optimizer (hence the pagination state), the global
    [photos] and the children of the wall are as before.  From then on,
    whatever happens on the page, [i] stays in [failed] with the fallback as
    its source and the one load that was started for it stays the only one. *)
Theorem image_error_is_final (io : bool) (pg : Page) (es : list Event)
    (k i : nat) (url : string) :
  let w := run_ (boot io pg) es in
  tasks w !! k = Some (TempImage i url) →
  let w' := step_ w (ImageError k) in
  (∃ img : Img,
     images (document w) !! i = Some img
     ∧ images (document w') !! i = Some (on_error img)
     ∧ src (on_error img) = fallbackSrc)
  ∧ phase w i = Loading ∧ phase w' i = Failed
  ∧ network w' = network w
  ∧ (∀ j : nat, j ≠ i →
       images (document w') !! j = images (document w) !! j ∧ phase w' j = phase w j)
  ∧ this w' = this w ∧ pagination w' = pagination w ∧ photos w' = photos w
  ∧ photoWall (document w') = photoWall (document w)
  ∧ (∀ es' : list Event,
       let w'' := run_ w' es' in
       phase w'' i = Failed
       ∧ images (document w'') !! i = images (document w') !! i
       ∧ loads_of i w'' = 1%nat).
Proof.
  cbn zeta. set (w := run_ (boot io pg) es). intros Hk.
  assert (wf w) as Hwf by apply run_wf, boot_wf.
  assert (step_ w (ImageError k) = tempImg_onerror i (drop_task k w)) as Hstep.
  { cbn [step]. by rewrite Hk. }
  pose proof (tempImg_settles on_error k i url w Hwf Hk) as Hs.
  change (update_img on_error i (drop_task k w)) with (tempImg_onerror i (drop_task k w)) in Hs.
  rewrite <- Hstep in Hs.
  assert (wf (step_ w (ImageError k))) as Hwf' by (by apply step_wf).
  destruct (error_phase i _ _ Hwf Hs) as (img & Himg & Himg' & Hfailed).
  destruct (phaseV_settles _ i _ _ i Hwf Hs on_error_settles) as (Hloading & _ & _).
  split_and!.
  - by exists img.
  - done.
  - done.
  - by rewrite Hstep.
  - intros j Hne.
    destruct (phaseV_settles _ i _ _ j Hwf Hs on_error_settles) as (_ & _ & Hother).
    destruct (Hother Hne) as [Hp Hi]. done.
  - by rewrite Hstep.
  - by rewrite Hstep.
  - by rewrite Hstep.
  - by rewrite Hstep.
  - intros es'.
    destruct (run_final (step_ w (ImageError k)) es' i Hwf' (or_intror Hfailed)) as [Hp Hi].
    unfold phase in Hp. split_and!; [unfold phase; by rewrite Hp | done |].
    apply (final_loaded_once _ i (run_wf _ es' Hwf')). right. by rewrite Hp.
Qed.

End Lifecycle.

(** * The properties on the sample page *)

Lemma loadPhotosPaginated_while_loading_witness :
  isLoading (this loading_world) = true
  ∧ loadPhotosPaginated 2 true loading_world = loading_world.
Proof.
  split; [reflexivity|].
  exact (proj1 (loadPhotosPaginated_while_loading 2 true loading_world eq_refl)).
Defined.

Lemma loadPhotosPaginated_failure_and_cleanup_witness :
  isLoading (this sample_world) = false
  ∧ Forall quiet [Scrolled 0 600 1000]
  ∧ failed BadStatus
  ∧ hasMore (this (resumeLoad sample_url false 1 false BadStatus
                     (run sample_url false (loadPhotosPaginated 1 false sample_world)
                        [Scrolled 0 600 1000])))
    = hasMore (this sample_world)
  ∧ currentPage (this (resumeLoad sample_url false 1 false BadStatus
                         (run sample_url false (loadPhotosPaginated 1 false sample_world)
                            [Scrolled 0 600 1000])))
    = currentPage (this sample_world).
Proof.
  assert (Forall quiet [Scrolled 0 600 1000]) as Hq by (repeat constructor).
  pose proof (loadPhotosPaginated_failure_and_cleanup sample_url false 1 false sample_world
                [Scrolled 0 600 1000] BadStatus eq_refl Hq) as (_ & H & _).
  destruct (H I) as (Hh & Hc & _).
  split; [reflexivity|]. split; [exact Hq|]. split; [exact I|].
  split; [exact Hh | exact Hc].
Defined.

Lemma render_empty_shows_placeholder_witness :
  photoWall (document rendered_world)
  = Some [NPhoto (mkItem 0 "a" true (MImg 0) "first" "2024-05-20" "none")]
  ∧ photoWall (document (renderPhotosOptimized sample_url false [] false rendered_world))
    = Some [NEmpty]
  ∧ photo_items (document (renderPhotosOptimized sample_url false [] false rendered_world))
    = [].
Proof.
  split; [reflexivity|].
  exact (render_empty_shows_placeholder sample_url false rendered_world _ eq_refl).
Defined.


(** C8 as stated (exactly one error logged) fails: the first fetch of the
    sample page, answered with a bad status, leaves two error entries where
    there was none. *)
Lemma bad_status_one_error_counterexample :
  length (Logger.errors (logger bad_status_world))
  ≠ S (length (Logger.errors (logger sample_world))).
Proof. vm_compute. discriminate. Qed.

(** C9 as stated (the set holds the rendered ids) fails: after [photo_a] is
    rendered the page holds an element with id [a] and the set is empty. *)
Lemma loadedPhotos_tracks_rendered_counterexample :
  loadedPhotos (this rendered_world) ≠ list_to_set (rendered_ids (document rendered_world)).
Proof.
  change (rendered_ids (document rendered_world)) with ["a"].
  change (loadedPhotos (this rendered_world)) with (∅ : gset string).
  set_solver.
Qed.

Lemma placeholder_loads_once_witness :
  lazyLoadObserver (this (run sample_url false (boot true sample_page) first_page_events))
  = Some {[0%nat]}
  ∧ deliverable {[0%nat]} [(0%nat, true)] = true
  ∧ phase (run sample_url false (boot true sample_page) first_page_events) 0 = Watched
  ∧ phase (step sample_url false
             (run sample_url false (boot true sample_page) first_page_events)
             (Intersection [(0%nat, true)])) 0 = Loading
  ∧ loads_of 0 (step sample_url false
                  (run sample_url false (boot true sample_page) first_page_events)
                  (Intersection [(0%nat, true)])) = 1%nat.
Proof.
  assert (lazyLoadObserver
            (this (run sample_url false (boot true sample_page) first_page_events))
          = Some {[0%nat]}) as Ho by (vm_compute; reflexivity).
  assert (deliverable {[0%nat]} [(0%nat, true)] = true) as Hd by (vm_compute; reflexivity).
  assert (0%nat ∈ hits [(0%nat, true)]) as Hi by (by left).
  destruct (placeholder_loads_once sample_url false true sample_page first_page_events 0)
    as (Hfire & _ & _).
  destruct (Hfire _ _ Ho Hd Hi) as (Hw & _ & Hl & Hn & _).
  split; [exact Ho|]. split; [exact Hd|]. split; [exact Hw|]. split; [exact Hl | exact Hn].
Defined.

Lemma image_error_is_final_witness :
  tasks (run sample_url false (boot true sample_page) reported_events) !! 0%nat
  = Some (TempImage 0 (thumbnailUrl sample_url "a"))
  ∧ phase (step sample_url false
             (run sample_url false (boot true sample_page) reported_events)
             (ImageError 0)) 0 = Failed
  ∧ src <$> images (document (step sample_url false
                                (run sample_url false (boot true sample_page)
                                   reported_events)
                                (ImageError 0))) !! 0%nat
    = Some fallbackSrc.
Proof.
  assert (tasks (run sample_url false (boot true sample_page) reported_events) !! 0%nat
          = Some (TempImage 0 (thumbnailUrl sample_url "a"))) as Hk
    by (vm_compute; reflexivity).
  destruct (image_error_is_final sample_url false true sample_page reported_events 0 0 _ Hk)
    as ((img & _ & Himg & Hsrc) & _ & Hf & _).
  split; [exact Hk|]. split; [exact Hf|].
  rewrite Himg. simpl. reflexivity.
Defined.

(** The two-page scenario on the sample page: the first page brings two
    records and [has_more = true], the next one record and [has_more = false];
    a scroll to the bottom after that asks for nothing. *)
Example scenario_two_pages :
  length (photo_items (document (fetchPages sample_url false [first_page] sample_world)))
  = 2%nat
  ∧ elements (watched (fetchPages sample_url false [first_page] sample_world)) = [0%nat]
  ∧ loadMore_shown (document (fetchPages sample_url false [first_page] sample_world)) = true
  ∧ currentPage (this (fetchPages sample_url false [first_page] sample_world)) = 1
  ∧ length (photo_items
              (document (fetchPages sample_url false [first_page; last_page] sample_world)))
    = 3%nat
  ∧ loadMore_hidden
      (document (fetchPages sample_url false [first_page; last_page] sample_world)) = true
  ∧ currentPage (this (fetchPages sample_url false [first_page; last_page] sample_world)) = 2
  ∧ network (step sample_url false
               (fetchPages sample_url false [first_page; last_page] sample_world)
               (Scrolled 900 600 1000))
    = network (fetchPages sample_url false [first_page; last_page] sample_world).
Proof. vm_compute. by repeat split. Qed.

(** * Further properties of the pipeline *)

Section Further.

Context (baseUrl : string) (photoBatchMode : bool).

Local Abbreviation render := (renderPhotosOptimized baseUrl photoBatchMode).
Local Abbreviation resume := (resumeLoad baseUrl photoBatchMode).
Local Abbreviation step_ := (step baseUrl photoBatchMode).
Local Abbreviation run_ := (run baseUrl photoBatchMode).
Local Abbreviation items_from := (createItems baseUrl photoBatchMode).

(** ** The throttle of the scroll handler *)

Lemma throttled_run w es :
  inThrottle w = true → Forall scroll_only es → run_ w es = w.
Proof.
  intros Ht Hs. induction Hs as [|e es He _ IH]; [done|].
  unfold run in *. cbn [foldl]. destruct e; try done.
  cbn [step]. unfold scrollHandler. by rewrite Ht.
Qed.

(** X1 (throttled scrolling).
    A burst of scroll events between two expiries of the throttle timer runs
    the bottom check at most once: the page asks for at most one listing, the
    one after the current page, and only if [hasMore] held and no fetch was
    outstanding; while the throttle is closed the burst changes nothing. *)
Theorem scroll_burst_requests_at_most_once (w : World) (es : list Event) :
  Forall scroll_only es →
  let w' := run_ w es in
  (inThrottle w = true → w' = w)
  ∧ (es ≠ [] → inThrottle w' = true)
  ∧ ((network w' = network w ∧ tasks w' = tasks w)
     ∨ (inThrottle w = false ∧ hasMore (this w) = true ∧ isLoading (this w) = false
        ∧ network w'
          = network w ++ [GetListing (currentPage (this w) + 1) (perPage (this w))]
        ∧ tasks w' = tasks w ++ [AwaitListing (currentPage (this w) + 1) true])).
Proof.
  intros Hs. cbn zeta. split; [by intros Ht; apply throttled_run|].
  destruct Hs as [|e es He Hs]; [by split; [|left]|].
  destruct e as [| | |st wh dh| | | | | |]; try done.
  unfold run. cbn [foldl step]. fold (run_ (scrollHandler st wh dh w) es).
  destruct (scrollHandler_cases st wh dh w)
    as [(Ht & _ & Hh & Hl & Heq)|(_ & Heq & Hn & Hta)].
  - rewrite Heq, throttled_run by done. split; [done|]. right.
    destruct (loadPhotosPaginated_started (currentPage (this w) + 1) true w Hl)
      as (_ & Hn & Hta).
    by split_and!.
  - rewrite throttled_run; [|by rewrite Heq; simpl; apply orb_true_r|done].
    split; [by rewrite Heq; simpl; rewrite orb_true_r|]. by left.
Qed.

(** ** The order of the rendered elements *)

Lemma createItems_ids ps idx imgs :
  item_id <$> (items_from ps idx imgs).1 = photo_id <$> ps
  ∧ item_index <$> (items_from ps idx imgs).1 = seq idx (length ps).
Proof.
  revert idx imgs. induction ps as [|p ps IH]; intros idx imgs; [done|].
  cbn [createItems].
  assert (item_id (createPhotoItem baseUrl photoBatchMode p idx imgs).1 = photo_id p
          ∧ item_index (createPhotoItem baseUrl photoBatchMode p idx imgs).1 = idx)
    as [Hid Hidx].
  { unfold createPhotoItem. by case_bool_decide. }
  destruct (createPhotoItem baseUrl photoBatchMode p idx imgs) as [it imgs1].
  destruct (IH (S idx) imgs1) as [IH1 IH2].
  destruct (items_from ps (S idx) imgs1) as [items imgs2].
  cbn [fst] in *. rewrite !fmap_cons, IH1, IH2. cbn [fst] in Hid, Hidx.
  by rewrite Hid, Hidx.
Qed.

(** The photo items after a render: those that were kept, then one per
    record, all marked when an observer exists. *)
Lemma render_items records append w children :
  photoWall (document w) = Some children →
  ∃ g : PhotoItem → PhotoItem,
    (g = id ∨ g = mark_item)
    ∧ photo_items (document (render records append w))
      = g <$> (items_of (if append then children else [])
               ++ (items_from records 0 (images (document w))).1).
Proof.
  intros Hw. unfold renderPhotosOptimized. rewrite Hw.
  destruct (bool_decide (length records = 0%nat) && negb append) eqn:Hempty.
  { apply andb_true_iff in Hempty as [Hlen Happ].
    apply bool_decide_eq_true, length_zero_iff_nil in Hlen as ->.
    apply negb_true_iff in Happ as ->. exists id. by split; [left|]. }
  destruct (items_from records 0 (images (document w))) as [items imgs].
  destruct (lazyLoadObserver (this w)).
  - exists mark_item. split; [by right|]. unfold photo_items, wall_children. fields. simpl.
    by rewrite items_of_marked, items_of_app, omap_photo_fmap.
  - exists id. split; [by left|]. unfold photo_items, wall_children. fields. simpl.
    by rewrite list_fmap_id, items_of_app, omap_photo_fmap.
Qed.

(** Reading a field that marking leaves alone. *)
Lemma render_items_field {B} (h : PhotoItem → B) records append w children :
  (∀ it, h (mark_item it) = h it) →
  photoWall (document w) = Some children →
  h <$> photo_items (document (render records append w))
  = (h <$> items_of (if append then children else []))
    ++ (h <$> (items_from records 0 (images (document w))).1).
Proof.
  intros Hh Hw.
  destruct (render_items records append w children Hw) as (g & Hg & ->).
  rewrite <- fmap_app. destruct Hg as [-> | ->]; [by rewrite list_fmap_id|].
  rewrite <- list_fmap_compose. apply list_fmap_ext. intros i it _. apply Hh.
Qed.

Lemma render_ids records append w :
  mounted w →
  rendered_ids (document (render records append w))
  = (if append then rendered_ids (document w) else []) ++ (photo_id <$> records).
Proof.
  intros [children Hw]. unfold rendered_ids.
  rewrite (render_items_field item_id records append w children) by done.
  destruct (createItems_ids records 0 (images (document w))) as [-> _].
  unfold photo_items, wall_children. rewrite Hw. by destruct append.
Qed.

(** X2 (order of a render).
    Records whose text is free of markup are rendered one element each, in
    the order of the response.  In replace mode the ids on the page are those
    of the records; in append mode they follow the ids that were there.  The
    [data-index] of the new elements counts from 0 within the batch, whatever
    the page already holds. *)
Theorem render_in_response_order (records : list PhotoRecord) (append : bool) (w : World) :
  plain_records baseUrl records → mounted w →
  let w' := render records append w in
  rendered_ids (document w')
  = (if append then rendered_ids (document w) else []) ++ (photo_id <$> records)
  ∧ item_index
      <$> drop (length (if append then photo_items (document w) else []))
               (photo_items (document w'))
    = seq 0 (length records).
Proof.
  intros _ Hm. cbn zeta. split; [by apply render_ids|].
  destruct Hm as [children Hw].
  assert (photo_items (document w) = items_of children) as Hold.
  { unfold photo_items, wall_children. by rewrite Hw. }
  rewrite fmap_drop, (render_items_field item_index records append w children) by done.
  destruct (createItems_ids records 0 (images (document w))) as [_ ->].
  rewrite Hold.
  replace (length (if append then items_of children else []))
    with (length (item_index <$> items_of (if append then children else [])))
    by (rewrite length_fmap; by destruct append).
  by rewrite drop_app_length.
Qed.

(** ** The global [photos] and the page *)

Lemma update_img_page f i w :
  photos (update_img f i w) = photos w
  ∧ photo_items (document (update_img f i w)) = photo_items (document w)
  ∧ photoWall (document (update_img f i w)) = photoWall (document w)
  ∧ this (update_img f i w) = this w ∧ tasks (update_img f i w) = tasks w
  ∧ network (update_img f i w) = network w.
Proof. done. Qed.

Lemma mounted_document w w' : document w' = document w → mounted w → mounted w'.
Proof. unfold mounted. by intros ->. Qed.

Lemma same_page w w' :
  photos w' = photos w → document w' = document w →
  photos w' = photos w
  ∧ photo_items (document w') = photo_items (document w)
  ∧ (mounted w → mounted w').
Proof. intros Hp Hd. split_and!; [done|by rewrite Hd|by apply mounted_document]. Qed.

Lemma same_wall w w' :
  photos w' = photos w → photoWall (document w') = photoWall (document w) →
  photos w' = photos w
  ∧ photo_items (document w') = photo_items (document w)
  ∧ (mounted w → mounted w').
Proof.
  intros Hp Hd. unfold mounted, photo_items, wall_children. by rewrite Hd.
Qed.

(** Every handler run other than the arrival of a listing leaves [photos],
    the photo elements and the container as they are. *)
Lemma step_page_frame w e :
  quiet e →
  photos (step_ w e) = photos w
  ∧ photo_items (document (step_ w e)) = photo_items (document w)
  ∧ (mounted w → mounted (step_ w e)).
Proof.
  intros Hq. destruct e as [page append| | |st wh dh| |k r|entries|k|k|k]; cbn [step].
  - pose proof (loadPhotosPaginated_frame page append w) as H. cbn zeta in H.
    decompose [and] H. split_and!; [done|done|apply loadPhotosPaginated_mounted].
  - destruct (preloadNextPage_frame w) as (_ & Hp & _ & Hd & _). by apply same_page.
  - destruct (loadMore_shown _); [|by apply same_page]. unfold loadMore_onclick.
    pose proof (loadPhotosPaginated_frame (currentPage (this w) + 1) true w) as H.
    cbn zeta in H. decompose [and] H.
    split_and!; [done|done|apply loadPhotosPaginated_mounted].
  - pose proof (scrollHandler_frame st wh dh w) as H. cbn zeta in H. decompose [and] H.
    split_and!; [done|done|]. intros Hm.
    destruct (scrollHandler_cases st wh dh w) as [(_ & _ & _ & _ & ->)|(_ & -> & _)];
      [|done].
    by apply (loadPhotosPaginated_mounted _ true w).
  - destruct (inThrottle w); by apply same_page.
  - destruct (tasks w !! k) as [[page append| | | |]|]; try by apply same_page.
    + destruct r as [e| |e|ps hm]; [..|destruct Hq].
      all: match goal with
           | |- context [resumeLoad _ _ _ _ ?r _] =>
               pose proof (resumeLoad_failed baseUrl photoBatchMode page append r
                             (drop_task k w) I) as H
           end;
        cbn zeta in H; decompose [and] H; split_and!; [done|done|];
        intros Hm; unfold resumeLoad; by apply hideLoadingIndicator_mounted.
    + destruct (resumePreload_frame baseUrl r (drop_task k w)) as (_ & Hp & Hd & _).
      by apply same_page.
  - destruct (lazyLoadObserver (this w)); [|by apply same_page].
    destruct (deliverable _ _); [|by apply same_page].
    pose proof (observerCallback_frame entries w) as H. cbn zeta in H. decompose [and] H.
    by apply same_page.
  - destruct (tasks w !! k) as [[]|]; by apply same_wall.
  - destruct (tasks w !! k) as [[]|]; by apply same_wall.
  - destruct (tasks w !! k) as [[]|]; by apply same_wall.
Qed.

(** The arrival of a listing on a page with the container. *)
Lemma resumeLoad_listing_page page append ps hm w :
  mounted w →
  photos (resume page append (Listing ps hm) w) = (if append then photos w ++ ps else ps)
  ∧ rendered_ids (document (resume page append (Listing ps hm) w))
    = (if append then rendered_ids (document w) else []) ++ (photo_id <$> ps).
Proof.
  intros Hm. unfold resumeLoad. cbn [tryLoad].
  set (w1 := with_this (set_currentPage page (set_hasMore hm (this (with_photos _ w))))
               (with_photos (if append then photos w ++ ps else ps) w)).
  destruct (hideLoadingIndicator_frame
              (with_this (set_isLoading false (this (updateLoadMoreButton (render ps append w1))))
                 (updateLoadMoreButton (render ps append w1))))
    as (_ & Hp & _ & _ & _ & _ & _ & Hi & _).
  unfold rendered_ids. rewrite Hp, Hi. fields.
  pose proof (updateLoadMoreButton_frame (render ps append w1)) as Hu.
  pose proof (render_frame baseUrl photoBatchMode ps append w1) as Hr.
  cbn zeta in Hu, Hr. decompose [and] Hu. decompose [and] Hr.
  pose proof (render_ids ps append w1 Hm) as Hids.
  unfold rendered_ids in Hids. split; [by rewrite H1, H12|by rewrite H7, Hids].
Qed.

Lemma step_page_matches w e : page_matches_photos w → page_matches_photos (step_ w e).
Proof.
  intros [Hm Hids]. unfold page_matches_photos.
  assert (quiet e → mounted (step_ w e)
                    ∧ photo_id <$> photos (step_ w e) = rendered_ids (document (step_ w e)))
    as Hquiet.
  { intros Hq. destruct (step_page_frame w e Hq) as (Hp & Hi & Hmm).
    unfold rendered_ids in *. rewrite Hp, Hi. auto. }
  destruct e as [| | | | |k [| | |ps hm]| | | |]; try (by apply Hquiet).
  clear Hquiet. cbn [step]. destruct (tasks w !! k) as [[page append| | | |]|]; try done.
  assert (mounted (drop_task k w)) as Hm' by done.
  destruct (resumeLoad_listing baseUrl photoBatchMode page append ps hm _ Hm') as (? & _).
  destruct (resumeLoad_listing_page page append ps hm _ Hm') as [-> ->].
  split; [done|]. fields. destruct append; [|done]. by rewrite fmap_app, Hids.
Qed.

(** X3 (the page mirrors [photos]).
    The page mirrors [photos], as long as the listings are free of markup.
    Once the photo elements of a page with the container carry the ids of the
    global [photos] in order (as at the start, when both are empty), they do
    so after every handler run: fetches that succeed, fail or are dropped,
    renders in either mode, image loads. *)
Theorem page_keeps_matching_photos (w : World) (es : list Event) :
  plain_text baseUrl → Forall plain_event es →
  page_matches_photos w → page_matches_photos (run_ w es).
Proof.
  intros _ _. revert w. induction es as [|e es IH]; intros w Hw; [done|].
  unfold run in *. cbn [foldl]. by apply IH, step_page_matches.
Qed.

(** ** A browser without IntersectionObserver *)

(** Without observer and without image load under way, a handler run leaves
    the view as it is or renders. *)
Lemma quiet_task k t w :
  quietV (view w) → tasks w !! k = Some t →
  t = AwaitPreload ∨ ∃ page append, t = AwaitListing page append.
Proof.
  intros (_ & Hl & Hok) Hk. cbn in Hl, Hok.
  assert (lazy_task t = true) as Hlazy.
  { rewrite forallb_forall in Hok. apply Hok, list_elem_of_In.
    by eapply list_elem_of_lookup_2. }
  destruct t as [page append| |i url|i url|i]; try done; [by eauto|by left|].
  exfalso. unfold loading in Hl.
  destruct (delete_omap_Some task_img (tasks w) k _ i Hk eq_refl) as (l1 & l2 & H1 & _).
  rewrite Hl in H1. by destruct l1.
Qed.

Lemma quiet_drop_task k t w :
  quietV (view w) → tasks w !! k = Some t → view (drop_task k w) = view w.
Proof.
  intros Hq Hk. pose proof Hq as (_ & _ & Hok). cbn in Hok.
  apply view_eq; try done.
  - unfold loading. fields. eapply delete_omap_None; [done|].
    by destruct (quiet_task k t w Hq Hk) as [->|(? & ? & ->)].
  - fields. by rewrite Hok, forallb_delete.
Qed.

Lemma step_quiet w e :
  quietV (view w) →
  view (step_ w e) = view w ∨ growsV (view w) (view (step_ w e)).
Proof.
  intros Hq. pose proof Hq as (Ho & _ & _). cbn in Ho.
  destruct e as [page append| | |st wh dh| |k r|entries|k|k|k]; cbn [step].
  - left. apply loadPhotosPaginated_view.
  - left. apply preloadNextPage_view.
  - left. destruct (loadMore_shown _); [|done]. apply loadPhotosPaginated_view.
  - left. apply scrollHandler_view.
  - left. by destruct (inThrottle w).
  - destruct (tasks w !! k) as [t|] eqn:Hk; [|by left].
    pose proof (quiet_drop_task k t w Hq Hk) as Hd.
    destruct (quiet_task k t w Hq Hk) as [->|(page & append & ->)].
    + left. by rewrite resumePreload_view.
    + rewrite <- Hd. destruct r as [e| |e|ps hm].
      * left. by apply resumeLoad_failed_view.
      * left. by apply resumeLoad_failed_view.
      * left. by apply resumeLoad_failed_view.
      * right. apply resumeLoad_listing_grows.
        assert (lazyLoadObserver (this (drop_task k w)) = None) as -> by done.
        by intros [? ?].
  - left. by rewrite Ho.
  - left. destruct (tasks w !! k) as [t|] eqn:Hk; [|done].
    by destruct (quiet_task k t w Hq Hk) as [->|(? & ? & ->)].
  - left. destruct (tasks w !! k) as [t|] eqn:Hk; [|done].
    by destruct (quiet_task k t w Hq Hk) as [->|(? & ? & ->)].
  - left. destruct (tasks w !! k) as [t|] eqn:Hk; [|done].
    by destruct (quiet_task k t w Hq Hk) as [->|(? & ? & ->)].
Qed.

Lemma run_quiet w es :
  quietV (view w) →
  quietV (view (run_ w es))
  ∧ started (run_ w es) = started w
  ∧ ∃ new, images (document (run_ w es)) = images (document w) ++ new
           ∧ Forall fresh_img new.
Proof.
  revert w. induction es as [|e es IH]; intros w Hq.
  { split_and!; [done|done|]. exists []. by rewrite app_nil_r. }
  unfold run in *. cbn [foldl].
  assert (quietV (view (step_ w e)) ∧ started (step_ w e) = started w
          ∧ ∃ new, images (document (step_ w e)) = images (document w) ++ new
                   ∧ Forall fresh_img new) as (Hq' & Hs & new1 & Hi & Hnew1).
  { destruct (step_quiet w e Hq) as [Hv|Hg].
    - rewrite Hv. split_and!; [done|by apply (f_equal v_started) in Hv|].
      exists []. rewrite app_nil_r. split; [by apply (f_equal v_images) in Hv|done].
    - destruct Hq as (Ho & Hl & Hok).
      destruct Hg as (new & added & Hi & Hnew & Hobs & _ & _ & Hs' & Hl' & Hok').
      split_and!; [|done|by exists new].
      unfold quietV. by rewrite Hobs, Hl', Hok', Ho, Hl, Hok. }
  destruct (IH _ Hq') as (Hq'' & Hs' & new2 & Hi' & Hnew2).
  split_and!; [done|congruence|].
  exists (new1 ++ new2). rewrite Hi', Hi, <- app_assoc. split; [done|by apply Forall_app].
Qed.


(** ** The guard of the page fetches *)

Lemma guarded_same w w' :
  isLoading (this w') = isLoading (this w) →
  pending_listings w' = pending_listings w →
  photoWall (document w') = photoWall (document w) →
  guarded w → guarded w'.
Proof.
  unfold guarded, mounted, indicator_shown, indicator_hidden, getIndicator, wall_children.
  by intros -> -> ->.
Qed.

Lemma showLoadingIndicator_shown w :
  mounted w → indicator_shown (document (showLoadingIndicator w)) = true.
Proof.
  intros [children Hw].
  unfold showLoadingIndicator, indicator_shown, getIndicator, wall_children.
  rewrite Hw. cbn [document with_document set_wall photoWall default id].
  rewrite head_filter_update_first by (by intros []).
  destruct (head (filter _ children)) as [n|] eqn:Hn.
  - rewrite Hn. apply head_filter_sel in Hn. by destruct n.
  - by rewrite head_filter_app_None.
Qed.

Lemma loadPhotosPaginated_guarded page append w :
  guarded w → guarded (loadPhotosPaginated page append w).
Proof.
  intros Hg. destruct (isLoading (this w)) eqn:Hl.
  { unfold loadPhotosPaginated. by rewrite Hl. }
  destruct (loadPhotosPaginated_started page append w Hl) as (Hl' & _ & Ht).
  unfold guarded in *. rewrite Hl in Hg. rewrite Hl'. destruct Hg as [Hp _].
  split.
  - unfold pending_listings in *. by rewrite Ht, omap_app, Hp.
  - intros [children Hm]. revert Hm. unfold loadPhotosPaginated. rewrite Hl. fields.
    intros Hm. apply (showLoadingIndicator_shown (with_this (set_isLoading true (this w)) w)).
    revert Hm. unfold showLoadingIndicator, mounted. fields.
    destruct (photoWall (document w)) eqn:Hw; [by eauto|]. fields. by rewrite Hw.
Qed.

Lemma resumeLoad_tasks page append r w : tasks (resume page append r w) = tasks w.
Proof.
  assert (failed r → tasks (resume page append r w) = tasks w) as Hfailed.
  { intros Hr. pose proof (resumeLoad_failed baseUrl photoBatchMode page append r w Hr) as H.
    cbn zeta in H. by decompose [and] H. }
  destruct r as [e| |e|ps hm]; try (by apply Hfailed). clear Hfailed.
  unfold resumeLoad. cbn [tryLoad].
  set (w1 := with_this (set_currentPage page (set_hasMore hm (this (with_photos _ w))))
               (with_photos (if append then photos w ++ ps else ps) w)).
  destruct (hideLoadingIndicator_frame
              (with_this (set_isLoading false (this (updateLoadMoreButton (render ps append w1))))
                 (updateLoadMoreButton (render ps append w1))))
    as (_ & _ & _ & -> & _).
  fields.
  pose proof (updateLoadMoreButton_frame (render ps append w1)) as Hu.
  pose proof (render_frame baseUrl photoBatchMode ps append w1) as Hr.
  cbn zeta in Hu, Hr. decompose [and] Hu. decompose [and] Hr. by rewrite H2, H14.
Qed.

Lemma loadImage_pending i w :
  pending_listings (loadImage i w) = pending_listings w.
Proof.
  unfold loadImage. destruct (images (document w) !! i); [|done].
  destruct (bool_decide _); [done|].
  unfold pending_listings. fields. rewrite omap_app. cbn. by rewrite app_nil_r.
Qed.

Lemma observerCallback_pending entries w :
  pending_listings (observerCallback entries w) = pending_listings w.
Proof.
  revert w. unfold observerCallback.
  induction entries as [|[i b] entries IH]; intros w; [done|].
  cbn [foldl]. rewrite IH. destruct b; [|done]. apply loadImage_pending.
Qed.

Lemma drop_task_pending k t w :
  tasks w !! k = Some t →
  match t with AwaitListing _ _ => False | _ => True end →
  pending_listings (drop_task k w) = pending_listings w.
Proof.
  intros Hk Ht. unfold pending_listings. fields.
  eapply delete_omap_None; [exact Hk|]. by destruct t.
Qed.

Lemma step_guarded w e : guarded w → guarded (step_ w e).
Proof.
  intros Hg. destruct e as [page append| | |st wh dh| |k r|entries|k|k|k]; cbn [step].
  - by apply loadPhotosPaginated_guarded.
  - apply (guarded_same w); [| |  |done].
    all: unfold preloadNextPage, pending_listings; destruct (_ || _); try done.
    fields. rewrite omap_app. cbn. by rewrite app_nil_r.
  - destruct (loadMore_shown _); [|done]. by apply loadPhotosPaginated_guarded.
  - unfold scrollHandler, scrollCheck. destruct (inThrottle w); [done|].
    change (guarded (with_inThrottle true ?w')) with (guarded w').
    destruct (bool_decide _); [|done]. destruct (_ && _); [|done].
    by apply loadPhotosPaginated_guarded.
  - by destruct (inThrottle w).
  - destruct (tasks w !! k) as [[page append| | | |]|] eqn:Hk; try done.
    + destruct (resumeLoad_cleanup baseUrl photoBatchMode page append r (drop_task k w))
        as [Hl Hh].
      unfold guarded. rewrite Hl. split; [|done].
      unfold pending_listings. rewrite resumeLoad_tasks. fields.
      destruct (delete_omap_Some
                  (λ t, match t with
                        | AwaitListing page append => Some (page, append)
                        | _ => None
                        end) (tasks w) k _ (page, append) Hk eq_refl)
        as (l1 & l2 & Hall & ->).
      unfold guarded, pending_listings in Hg. rewrite Hall in Hg.
      destruct (isLoading (this w)).
      * destruct Hg as [Hlen _]. rewrite length_app in Hlen. cbn in Hlen.
        destruct l1, l2; cbn in Hlen; try done; lia.
      * destruct Hg as [Hnil _]. by destruct l1.
    + destruct (resumePreload_frame baseUrl r (drop_task k w)) as (Ht & _ & Hd & Hta & _).
      apply (guarded_same w); [by rewrite Ht| |by rewrite Hd|done].
      unfold pending_listings at 1. rewrite Hta.
      by apply (drop_task_pending k AwaitPreload).
  - destruct (lazyLoadObserver (this w)); [|done]. destruct (deliverable _ _); [|done].
    pose proof (observerCallback_frame entries w) as H. cbn zeta in H.
    destruct H as (_ & _ & Hl & _ & _ & _ & _ & Hd & _).
    apply (guarded_same w); [done|apply observerCallback_pending|by rewrite Hd|done].
  - destruct (tasks w !! k) as [[page append| |i url|i url|i]|] eqn:Hk; try done.
    + apply (guarded_same w); [done| |done|done].
      by apply (drop_task_pending k (TempImage i url)).
    + apply (guarded_same w); [done| |done|done].
      unfold progressive_onload, pending_listings. fields. rewrite omap_app. cbn.
      rewrite app_nil_r. by apply (delete_omap_None _ _ _ (ProgressiveImage i url)).
  - destruct (tasks w !! k) as [[page append| |i url|i url|i]|] eqn:Hk; try done.
    + apply (guarded_same w); [done| |done|done].
      by apply (drop_task_pending k (TempImage i url)).
    + apply (guarded_same w); [done| |done|done].
      by apply (drop_task_pending k (ProgressiveImage i url)).
  - destruct (tasks w !! k) as [[page append| |i url|i url|i]|] eqn:Hk; try done.
    apply (guarded_same w); [done| |done|done].
    by apply (drop_task_pending k (Unblur i)).
Qed.


(** ** Elements found by id *)

Lemma filter_update_first_length (sel' sel : Node → bool) f l :
  (∀ n, sel' (f n) = sel' n) →
  length (filter (λ n, sel' n = true) (update_first sel f l))
  = length (filter (λ n, sel' n = true) l).
Proof.
  intros Hf. induction l as [|n l IH]; [done|].
  cbn [update_first]. destruct (sel n).
  - rewrite !filter_cons, Hf. by destruct (decide _).
  - rewrite !filter_cons. destruct (decide _); cbn; by rewrite IH.
Qed.

Lemma filter_fmap_length (sel' : Node → bool) (f : Node → Node) l :
  (∀ n, sel' (f n) = sel' n) →
  length (filter (λ n, sel' n = true) (f <$> l)) = length (filter (λ n, sel' n = true) l).
Proof.
  intros Hf. induction l as [|n l IH]; [done|].
  rewrite fmap_cons, !filter_cons, Hf. destruct (decide _); cbn; by rewrite IH.
Qed.

Lemma filter_photos_nil (sel' : Node → bool) (items : list PhotoItem) :
  (∀ it, sel' (NPhoto it) = false) →
  filter (λ n, sel' n = true) (NPhoto <$> items) = [].
Proof.
  intros Hf. induction items as [|it items IH]; [done|].
  rewrite fmap_cons, filter_cons_False by (by rewrite Hf). done.
Qed.

Lemma head_filter_None (sel' : Node → bool) l :
  head (filter (λ n, sel' n = true) l) = None → filter (λ n, sel' n = true) l = [].
Proof. by destruct (filter _ l). Qed.

Lemma showLoadingIndicator_unique w :
  unique_ids (document w) → unique_ids (document (showLoadingIndicator w)).
Proof.
  unfold showLoadingIndicator, unique_ids, count_of, getIndicator, wall_children.
  destruct (photoWall (document w)) as [children|] eqn:Hw; [|by rewrite Hw].
  cbn [document with_document set_wall photoWall default id].
  rewrite !filter_update_first_length by (by intros []).
  destruct (head _) as [n|] eqn:Hn; [done|].
  apply head_filter_None in Hn. rewrite !filter_app, Hn.
  rewrite (filter_cons_False (λ n, is_loadMore n = true)) by done.
  rewrite filter_cons_True, filter_nil, app_nil_r by done. cbn. lia.
Qed.

Lemma hideLoadingIndicator_unique w :
  unique_ids (document w) → unique_ids (document (hideLoadingIndicator w)).
Proof.
  unfold hideLoadingIndicator, unique_ids, count_of, wall_children.
  destruct (photoWall (document w)) as [children|] eqn:Hw; [|by rewrite Hw].
  cbn [document with_document set_wall photoWall default id].
  by rewrite !filter_update_first_length by (by intros []).
Qed.

Lemma updateLoadMoreButton_unique w :
  unique_ids (document w) → unique_ids (document (updateLoadMoreButton w)).
Proof.
  unfold updateLoadMoreButton, unique_ids, count_of, getLoadMoreBtn, wall_children.
  destruct (photoWall (document w)) as [children|] eqn:Hw; [|by rewrite Hw].
  destruct (hasMore (this w));
    cbn [document with_document set_wall photoWall default id];
    rewrite !filter_update_first_length by (by intros []); [|done].
  destruct (head _) as [n|] eqn:Hn; [done|].
  apply head_filter_None in Hn. rewrite !filter_app, Hn.
  rewrite (filter_cons_False (λ n, is_indicator n = true)) by done.
  rewrite filter_cons_True, filter_nil, app_nil_r by done. cbn. lia.
Qed.

Lemma render_unique records append w :
  unique_ids (document w) → unique_ids (document (render records append w)).
Proof.
  unfold renderPhotosOptimized, unique_ids, count_of, wall_children.
  destruct (photoWall (document w)) as [children|] eqn:Hw; [|by rewrite Hw].
  destruct (_ && _).
  { intros _. cbn [document with_document set_wall photoWall default id].
    rewrite (filter_cons_False (λ n, is_indicator n = true)),
      (filter_cons_False (λ n, is_loadMore n = true)), !filter_nil by done.
    cbn. lia. }
  destruct (items_from _ _ _) as [items imgs].
  cbn [default id]. intros Hu.
  assert (∀ sel' : Node → bool,
            (∀ it, sel' (NPhoto it) = false) →
            (length (filter (λ n, sel' n = true) children) ≤ 1)%nat →
            (length (filter (λ n, sel' n = true)
                       ((if append then children else []) ++ (NPhoto <$> items))) ≤ 1)%nat)
    as Happ.
  { intros sel' Hsel Hlen. rewrite filter_app, filter_photos_nil, app_nil_r by done.
    destruct append; [done|cbn; lia]. }
  destruct (lazyLoadObserver (this w));
    cbn [document with_document with_this photoWall default id];
    rewrite ?filter_fmap_length by (by intros [[]| | |]);
    split; apply Happ; try done; apply Hu.
Qed.

Lemma loadPhotosPaginated_unique page append w :
  unique_ids (document w) → unique_ids (document (loadPhotosPaginated page append w)).
Proof.
  intros Hu. unfold loadPhotosPaginated. destruct (isLoading (this w)); [done|]. fields.
  by apply (showLoadingIndicator_unique (with_this (set_isLoading true (this w)) w)).
Qed.

Lemma resumeLoad_unique page append r w :
  unique_ids (document w) → unique_ids (document (resume page append r w)).
Proof.
  intros Hu. unfold resumeLoad.
  apply (hideLoadingIndicator_unique (with_this _ _)). fields.
  destruct r as [e| |e|ps hm]; try done. cbn [tryLoad].
  by apply updateLoadMoreButton_unique, render_unique.
Qed.

Lemma step_unique w e : unique_ids (document w) → unique_ids (document (step_ w e)).
Proof.
  intros Hu.
  assert (∀ w', photoWall (document w') = photoWall (document w) → unique_ids (document w'))
    as Hsame.
  { intros w' Hw'. unfold unique_ids, count_of, wall_children in *. by rewrite Hw'. }
  destruct e as [page append| | |st wh dh| |k r|entries|k|k|k]; cbn [step].
  - by apply loadPhotosPaginated_unique.
  - apply Hsame. by destruct (preloadNextPage_frame w) as (_ & _ & _ & -> & _).
  - destruct (loadMore_shown _); [|done]. by apply loadPhotosPaginated_unique.
  - unfold scrollHandler, scrollCheck. destruct (inThrottle w); [done|]. fields.
    destruct (bool_decide _); [|done]. destruct (_ && _); [|done].
    by apply loadPhotosPaginated_unique.
  - by destruct (inThrottle w).
  - destruct (tasks w !! k) as [[page append| | | |]|]; try done.
    + by apply resumeLoad_unique.
    + apply Hsame.
      by destruct (resumePreload_frame baseUrl r (drop_task k w)) as (_ & _ & -> & _).
  - destruct (lazyLoadObserver (this w)); [|done]. destruct (deliverable _ _); [|done].
    pose proof (observerCallback_frame entries w) as H. cbn zeta in H.
    destruct H as (_ & _ & _ & _ & _ & _ & _ & Hd & _). apply Hsame. by rewrite Hd.
  - destruct (tasks w !! k) as [[]|]; by apply Hsame.
  - destruct (tasks w !! k) as [[]|]; by apply Hsame.
  - destruct (tasks w !! k) as [[]|]; by apply Hsame.
Qed.

(** X6 (unique ids).
    Ids stay unique, as long as the listings are free of markup.
    showLoadingIndicator and updateLoadMoreButton create their element only
    when [getElementById] finds none, and rendering such listings adds photo
    elements only; so a page that holds at most one [#photoLoadingIndicator]
    and at most one [#loadMorePhotosBtn] never comes to hold two of either. *)
Theorem indicator_and_button_stay_unique (w : World) (es : list Event) :
  plain_text baseUrl → Forall plain_event es →
  unique_ids (document w) → unique_ids (document (run_ w es)).
Proof.
  intros _ _. revert w. induction es as [|e es IH]; intros w Hw; [done|].
  unfold run in *. cbn [foldl]. by apply IH, step_unique.
Qed.

(** ** The progressive loader *)

(** The body of the [forEach] of optimizeExistingImages. *)
Local Abbreviation optimize_one :=
  (λ (w : World) (i : nat),
     match images (document w) !! i with
     | Some img =>
         if class_optimized img then w
         else
           loadProgressiveImage i
             (update_img (λ img, mkImg (data_src img) (data_full img) (alt img)
                                       (src img) (class_loaded img) true
                                       (style_opacity img) (style_filter img)
                                       (style_transition img)) i w)
     | None => w
     end).

Lemma update_img_optimized f i j w :
  (∀ img, class_optimized img = true → class_optimized (f img) = true) →
  optimized_at w j → optimized_at (update_img f i w) j.
Proof.
  intros Hf. unfold optimized_at, update_img. fields.
  destruct (decide (i = j)) as [->|Hij].
  - rewrite list_lookup_alter_eq. destruct (images (document w) !! j); cbn; auto.
  - by rewrite list_lookup_alter_ne.
Qed.

Lemma loadProgressiveImage_optimized i j w :
  optimized_at w j → optimized_at (loadProgressiveImage i w) j.
Proof.
  intros Hj. unfold loadProgressiveImage.
  destruct (images (document w) !! i); [|done]. destruct (bool_decide _); [done|].
  change (optimized_at (with_tasks ?ts (with_network ?rs ?w')) j) with (optimized_at w' j).
  by apply update_img_optimized.
Qed.

Lemma loadProgressiveImage_wall i w :
  photoWall (document (loadProgressiveImage i w)) = photoWall (document w).
Proof.
  unfold loadProgressiveImage.
  destruct (images (document w) !! i); [|done]. by destruct (bool_decide _).
Qed.

Lemma page_imgs_wall d d' : photoWall d' = photoWall d → page_imgs d' = page_imgs d.
Proof. unfold page_imgs, photo_items, wall_children. by intros ->. Qed.

Lemma optimize_one_spec w i :
  photoWall (document (optimize_one w i)) = photoWall (document w)
  ∧ optimized_at (optimize_one w i) i
  ∧ ∀ j, optimized_at w j → optimized_at (optimize_one w i) j.
Proof.
  cbn beta. destruct (images (document w) !! i) as [img|] eqn:Hi;
    [|split_and!; [done| |done]; unfold optimized_at; by rewrite Hi].
  destruct (class_optimized img) eqn:Ho;
    [split_and!; [done| |done]; unfold optimized_at; by rewrite Hi|].
  split_and!.
  - by rewrite loadProgressiveImage_wall.
  - apply loadProgressiveImage_optimized. unfold optimized_at, update_img. fields.
    by rewrite list_lookup_alter_eq, Hi.
  - intros j Hj. by apply loadProgressiveImage_optimized, update_img_optimized.
Qed.

Lemma optimize_all_spec l w :
  photoWall (document (foldl optimize_one w l)) = photoWall (document w)
  ∧ (∀ j, optimized_at w j → optimized_at (foldl optimize_one w l) j)
  ∧ Forall (optimized_at (foldl optimize_one w l)) l.
Proof.
  revert w. induction l as [|i l IH]; intros w; [done|].
  cbn [foldl]. destruct (optimize_one_spec w i) as (Hw & Hi & Hmono).
  destruct (IH (optimize_one w i)) as (Hw' & Hmono' & Hall).
  split_and!; [congruence|by auto|]. constructor; [by apply Hmono'|done].
Qed.

Lemma optimize_all_done l w :
  Forall (optimized_at w) l → foldl optimize_one w l = w.
Proof.
  induction 1 as [|i l Hi _ IH]; [done|]. cbn [foldl]. cbn beta.
  unfold optimized_at in Hi. destruct (images (document w) !! i); [|done].
  by rewrite Hi.
Qed.

(** X7 (the class [optimized]).
    optimizeExistingImages treats an image once.  After a call every
    [.photo-img] of the page carries the class [optimized], so a second call
    changes nothing: no image is blurred again and no further load starts. *)
Theorem optimizeExistingImages_once (w : World) :
  Forall (optimized_at (optimizeExistingImages w)) (page_imgs (document w))
  ∧ optimizeExistingImages (optimizeExistingImages w) = optimizeExistingImages w.
Proof.
  unfold optimizeExistingImages at 1 3 4.
  destruct (optimize_all_spec (page_imgs (document w)) w) as (Hw & _ & Hall).
  split; [done|]. unfold optimizeExistingImages.
  rewrite (page_imgs_wall _ _ Hw). by apply optimize_all_done.
Qed.

End Further.

(** * The logger *)

Lemma addLog_logs lvl cat msg lg :
  (length (Logger.logs lg) ≤ Logger.maxLogs)%nat →
  Logger.logs (Logger.addLog lvl cat msg lg)
  = drop (length (Logger.logs lg ++ [Logger.mkLog lvl cat msg]) - Logger.maxLogs)
         (Logger.logs lg ++ [Logger.mkLog lvl cat msg])
  ∧ (length (Logger.logs (Logger.addLog lvl cat msg lg)) ≤ Logger.maxLogs)%nat.
Proof.
  intros Hlen. unfold Logger.addLog. cbn [Logger.logs].
  set (pushed := Logger.logs lg ++ [Logger.mkLog lvl cat msg]).
  assert (length pushed = S (length (Logger.logs lg))) as Hp.
  { unfold pushed. rewrite length_app. simpl. lia. }
  case_bool_decide as Hfull.
  - replace (length pushed - Logger.maxLogs)%nat with 1%nat by lia.
    split; [by destruct pushed|]. destruct pushed; simpl in *; lia.
  - replace (length pushed - Logger.maxLogs)%nat with 0%nat by lia.
    split; [done|lia].
Qed.

(** X9 (the ring buffer).
    The log is a ring buffer.  Entries pushed by addLog onto a log within
    its bound leave exactly the newest [maxLogs] = 500 of all entries, oldest
    first: the buffer never outgrows the bound and it is always the oldest
    entries that are dropped. *)
Theorem addLog_keeps_newest (lg : Logger.t) (es : list Logger.Log) :
  (length (Logger.logs lg) ≤ Logger.maxLogs)%nat →
  Logger.logs (LoggerOps.addLogs lg es)
  = drop (length (Logger.logs lg ++ es) - Logger.maxLogs) (Logger.logs lg ++ es)
  ∧ (length (Logger.logs (LoggerOps.addLogs lg es)) ≤ Logger.maxLogs)%nat.
Proof.
  revert lg. induction es as [|[lvl cat msg] es IH]; intros lg Hlen.
  { unfold LoggerOps.addLogs. cbn [foldl]. rewrite app_nil_r.
    replace (length (Logger.logs lg) - Logger.maxLogs)%nat with 0%nat by lia. done. }
  unfold LoggerOps.addLogs in *. cbn [foldl Logger.level Logger.category Logger.message].
  destruct (addLog_logs lvl cat msg lg Hlen) as [Heq Hlen'].
  destruct (IH _ Hlen') as [IH1 IH2]. split; [|done].
  rewrite IH1, Heq. clear IH IH1 IH2 Heq Hlen'.
  set (e := Logger.mkLog lvl cat msg).
  replace (Logger.logs lg ++ e :: es) with ((Logger.logs lg ++ [e]) ++ es)
    by (by rewrite <- app_assoc).
  set (l := Logger.logs lg ++ [e]).
  assert (length l ≤ S Logger.maxLogs)%nat as Hl.
  { unfold l. rewrite length_app. simpl. lia. }
  destruct (decide (length l ≤ Logger.maxLogs)%nat) as [Hle|Hgt].
  - replace (length l - Logger.maxLogs)%nat with 0%nat by lia. by rewrite drop_0.
  - replace (length l - Logger.maxLogs)%nat with 1%nat by lia.
    assert (length (drop 1 l) = Logger.maxLogs) as Hd by (rewrite length_drop; lia).
    rewrite !length_app, Hd.
    replace (Logger.maxLogs + length es - Logger.maxLogs)%nat with (length es) by lia.
    replace (length l + length es - Logger.maxLogs)%nat with (1 + length es)%nat by lia.
    rewrite <- drop_drop. f_equal.
    destruct l as [|x l]; [simpl in *; lia|]. cbn [drop app]. by rewrite !drop_0.
Qed.

Lemma filter_all {A} (P : A → Prop) `{∀ x, Decision (P x)} (l : list A) :
  filter P l = l ↔ Forall P l.
Proof.
  split.
  - induction l as [|x l IH]; [done|]. rewrite filter_cons.
    destruct (decide (P x)) as [Hx|Hx].
    + intros [= Hl]. constructor; auto.
    + intros Hl. pose proof (length_filter P l) as Hlen. rewrite Hl in Hlen.
      simpl in Hlen. lia.
  - induction 1 as [|x l Hx _ IH]; [done|]. by rewrite filter_cons_True, IH.
Qed.

Lemma addLog_above lvl cat msg lg :
  Logger.currentLevel lg ≤ lvl →
  Forall (λ e, Logger.currentLevel lg ≤ Logger.level e) (Logger.logs lg) →
  Forall (λ e, Logger.currentLevel (Logger.addLog lvl cat msg lg) ≤ Logger.level e)
         (Logger.logs (Logger.addLog lvl cat msg lg)).
Proof.
  intros Hlvl Hall. unfold Logger.addLog. cbn [Logger.logs Logger.currentLevel].
  assert (Forall (λ e, Logger.currentLevel lg ≤ Logger.level e)
            (Logger.logs lg ++ [Logger.mkLog lvl cat msg])) as Hpushed.
  { apply Forall_app. split; [done|]. by repeat constructor. }
  destruct (bool_decide _); [|done].
  destruct (Logger.logs lg ++ _) as [|x l]; [done|]. by inversion Hpushed.
Qed.

Lemma call_above lg c :
  LoggerOps.logging c →
  Forall (λ e, Logger.currentLevel lg ≤ Logger.level e) (Logger.logs lg) →
  Logger.currentLevel (LoggerOps.call lg c) = Logger.currentLevel lg
  ∧ Forall (λ e, Logger.currentLevel (LoggerOps.call lg c) ≤ Logger.level e)
           (Logger.logs (LoggerOps.call lg c)).
Proof.
  intros Hc Hall.
  destruct c; try (by destruct Hc); cbn [LoggerOps.call];
    unfold Logger.console_log, LoggerOps.console_warn, Logger.console_error,
           Logger.debug, Logger.info, Logger.warn, Logger.error;
    case_bool_decide; try done; split; try done; by apply addLog_above.
Qed.

(** X10 (the filter of the panel).
    The panel hides nothing that was recorded at its level.  refreshPanel
    filters with [log.level >= currentLevel], the four methods record with
    [currentLevel <= LogLevel.X]: as long as only logging calls are made
    (direct or through the intercepted console), every entry held by the
    logger is shown, also after the ring buffer has dropped old entries. *)
Theorem panel_shows_every_recorded_entry (lg : Logger.t) (cs : list LoggerOps.Call) :
  Forall LoggerOps.logging cs →
  LoggerOps.refreshPanel lg = Logger.logs lg →
  Logger.currentLevel (LoggerOps.calls lg cs) = Logger.currentLevel lg
  ∧ LoggerOps.refreshPanel (LoggerOps.calls lg cs) = Logger.logs (LoggerOps.calls lg cs).
Proof.
  intros Hcs Hshown. unfold LoggerOps.refreshPanel in *.
  rewrite filter_all in Hshown. rewrite filter_all.
  revert lg Hshown. induction Hcs as [|c cs Hc _ IH]; intros lg Hall; [done|].
  unfold LoggerOps.calls in *. cbn [foldl].
  destruct (call_above lg c Hc Hall) as [Hlvl Hall'].
  destruct (IH _ Hall') as [IH1 IH2]. split; [congruence|done].
Qed.

(** * Rendered photos and the progressive loader *)

Section Plain.

Context (baseUrl : string) (photoBatchMode : bool).

Local Abbreviation render := (renderPhotosOptimized baseUrl photoBatchMode).
Local Abbreviation resume := (resumeLoad baseUrl photoBatchMode).
Local Abbreviation step_ := (step baseUrl photoBatchMode).
Local Abbreviation run_ := (run baseUrl photoBatchMode).
Local Abbreviation items_from := (createItems baseUrl photoBatchMode).

(** The images of [w'] are those of [w], treated as they were, followed by
    untreated ones. *)
Local Abbreviation extends w w' :=
  (∃ k : nat, treatment <$> images (document w')
              = (treatment <$> images (document w)) ++ replicate k untreated).

Lemma treatment_alter f i (l : list Img) :
  (∀ img, treatment (f img) = treatment img) →
  treatment <$> alter f i l = treatment <$> l.
Proof.
  intros Hf. revert i. induction l as [|img l IH]; intros [|i]; cbn; [done|done| |].
  - by rewrite Hf.
  - by rewrite IH.
Qed.

Lemma same_images_extends w w' :
  images (document w') = images (document w) → extends w w'.
Proof. intros ->. exists 0%nat. by rewrite app_nil_r. Qed.

Lemma createItems_treatment ps idx imgs :
  ∃ k : nat, treatment <$> (items_from ps idx imgs).2
             = (treatment <$> imgs) ++ replicate k untreated.
Proof.
  revert idx imgs. induction ps as [|p ps IH]; intros idx imgs.
  { exists 0%nat. cbn. by rewrite app_nil_r. }
  cbn [createItems].
  assert (∃ k : nat, treatment <$> (createPhotoItem baseUrl photoBatchMode p idx imgs).2
                     = (treatment <$> imgs) ++ replicate k untreated) as [k1 H1].
  { unfold createPhotoItem. case_bool_decide.
    - exists 0%nat. cbn. by rewrite app_nil_r.
    - exists 1%nat. cbn [snd]. by rewrite fmap_app. }
  destruct (createPhotoItem baseUrl photoBatchMode p idx imgs) as [it imgs1].
  destruct (IH (S idx) imgs1) as [k2 H2].
  destruct (items_from ps (S idx) imgs1) as [items imgs2].
  exists (k1 + k2)%nat. cbn [snd] in *.
  by rewrite H2, H1, <- app_assoc, replicate_add.
Qed.

Lemma render_treatment ps append w : extends w (render ps append w).
Proof.
  unfold renderPhotosOptimized.
  destruct (photoWall (document w)); [|by apply same_images_extends].
  destruct (_ && _); [by apply same_images_extends|].
  destruct (createItems_treatment ps 0 (images (document w))) as [k Hk].
  destruct (items_from ps 0 (images (document w))) as [items imgs].
  exists k. by destruct (lazyLoadObserver (this w)).
Qed.

Lemma resumeLoad_treatment page append r w : extends w (resume page append r w).
Proof.
  unfold resumeLoad.
  destruct (hideLoadingIndicator_frame
              (with_this (set_isLoading false (this (tryLoad baseUrl photoBatchMode page append r w)))
                 (tryLoad baseUrl photoBatchMode page append r w)))
    as (_ & _ & _ & _ & _ & _ & -> & _).
  destruct r as [e| |e|ps hm]; try (by apply same_images_extends). cbn [tryLoad].
  set (w1 := with_this (set_currentPage page (set_hasMore hm (this (with_photos _ w))))
               (with_photos (if append then photos w ++ ps else ps) w)).
  change (extends w1 (updateLoadMoreButton (render ps append w1))).
  pose proof (updateLoadMoreButton_frame (render ps append w1)) as Hu.
  cbn zeta in Hu. destruct Hu as (_ & _ & _ & _ & _ & _ & -> & _).
  apply render_treatment.
Qed.

Lemma update_img_treatment f i w :
  (∀ img, treatment (f img) = treatment img) → extends w (update_img f i w).
Proof.
  intros Hf. exists 0%nat. unfold update_img. fields.
  by rewrite treatment_alter, app_nil_r.
Qed.

Lemma task_lazy k t w :
  no_progressive_load w → tasks w !! k = Some t → lazy_task t = true.
Proof.
  unfold no_progressive_load. rewrite forallb_forall. intros Hok Hk.
  apply Hok, list_elem_of_In. by eapply list_elem_of_lookup_2.
Qed.

Lemma view_lazy w w' : view w' = view w → no_progressive_load w → no_progressive_load w'.
Proof.
  intros Hv. unfold no_progressive_load.
  change (v_tasks_ok (view w) = true → v_tasks_ok (view w') = true). by rewrite Hv.
Qed.

Lemma drop_task_lazy k w : no_progressive_load w → no_progressive_load (drop_task k w).
Proof. apply forallb_delete. Qed.

Lemma observerCallback_lazy entries w :
  no_progressive_load w → no_progressive_load (observerCallback entries w).
Proof.
  revert w. unfold observerCallback.
  induction entries as [|[i b] entries IH]; intros w Hw; [done|].
  cbn [foldl]. apply IH. destruct b; [|done]. cbn [snd fst].
  unfold no_progressive_load, loadImage. fields.
  destruct (images (document w) !! i); [|done].
  destruct (bool_decide _); [done|]. fields.
  rewrite forallb_app. cbn. by rewrite Hw.
Qed.

Lemma step_lazy w e : no_progressive_load w → no_progressive_load (step_ w e).
Proof.
  intros Hw. destruct e as [page append| | |st wh dh| |k r|entries|k|k|k]; cbn [step].
  - eapply view_lazy; [apply loadPhotosPaginated_view|done].
  - eapply view_lazy; [apply preloadNextPage_view|done].
  - destruct (loadMore_shown _); [|done].
    eapply view_lazy; [apply loadPhotosPaginated_view|done].
  - eapply view_lazy; [apply scrollHandler_view|done].
  - by destruct (inThrottle w).
  - destruct (tasks w !! k) as [[page append| | | |]|]; try done.
    + unfold no_progressive_load.
      rewrite (resumeLoad_tasks baseUrl photoBatchMode). by apply drop_task_lazy.
    + destruct (resumePreload_frame baseUrl r (drop_task k w)) as (_ & _ & _ & Ht & _).
      unfold no_progressive_load. rewrite Ht. by apply drop_task_lazy.
  - destruct (lazyLoadObserver (this w)); [|done]. destruct (deliverable _ _); [|done].
    by apply observerCallback_lazy.
  - destruct (tasks w !! k) as [t|] eqn:Hk; [|done].
    pose proof (task_lazy k t w Hw Hk) as Hlazy.
    destruct t; try done. by apply drop_task_lazy.
  - destruct (tasks w !! k) as [t|] eqn:Hk; [|done].
    pose proof (task_lazy k t w Hw Hk) as Hlazy.
    destruct t; try done. by apply drop_task_lazy.
  - destruct (tasks w !! k) as [t|] eqn:Hk; [|done].
    pose proof (task_lazy k t w Hw Hk) as Hlazy. by destruct t.
Qed.

Lemma step_treatment w e : no_progressive_load w → extends w (step_ w e).
Proof.
  intros Hw. destruct e as [page append| | |st wh dh| |k r|entries|k|k|k]; cbn [step].
  - apply same_images_extends.
    pose proof (loadPhotosPaginated_frame page append w) as H. cbn zeta in H.
    by destruct H as (_ & _ & _ & _ & _ & _ & _ & -> & _).
  - apply same_images_extends.
    by destruct (preloadNextPage_frame w) as (_ & _ & _ & -> & _).
  - apply same_images_extends. destruct (loadMore_shown _); [|done]. unfold loadMore_onclick.
    pose proof (loadPhotosPaginated_frame (currentPage (this w) + 1) true w) as H.
    cbn zeta in H. by destruct H as (_ & _ & _ & _ & _ & _ & _ & -> & _).
  - apply same_images_extends.
    pose proof (scrollHandler_frame st wh dh w) as H. cbn zeta in H.
    by destruct H as (_ & _ & _ & _ & _ & _ & -> & _).
  - apply same_images_extends. by destruct (inThrottle w).
  - destruct (tasks w !! k) as [[page append| | | |]|];
      try (by apply same_images_extends).
    + apply (resumeLoad_treatment page append r (drop_task k w)).
    + apply same_images_extends.
      by destruct (resumePreload_frame baseUrl r (drop_task k w)) as (_ & _ & -> & _).
  - apply same_images_extends.
    destruct (lazyLoadObserver (this w)); [|done]. destruct (deliverable _ _); [|done].
    pose proof (observerCallback_frame entries w) as H. cbn zeta in H.
    by destruct H as (_ & _ & _ & _ & _ & _ & _ & -> & _).
  - destruct (tasks w !! k) as [t|] eqn:Hk; [|by apply same_images_extends].
    pose proof (task_lazy k t w Hw Hk) as Hlazy.
    destruct t; try done; try (by apply same_images_extends).
    by apply (update_img_treatment _ _ (drop_task k w)).
  - destruct (tasks w !! k) as [t|] eqn:Hk; [|by apply same_images_extends].
    pose proof (task_lazy k t w Hw Hk) as Hlazy.
    destruct t; try done; try (by apply same_images_extends).
    by apply (update_img_treatment _ _ (drop_task k w)).
  - destruct (tasks w !! k) as [t|] eqn:Hk; [|by apply same_images_extends].
    pose proof (task_lazy k t w Hw Hk) as Hlazy.
    destruct t; try done; by apply same_images_extends.
Qed.


End Plain.
(** * The static storage *)

Section Storage.

Import GitHubPagesStorage.

(** ** uploadPhoto *)

(** Look at the next answer of a run. *)
Ltac next_answer H Hf :=
  match type of H with
  | context [drive _ _ ?answers _] =>
      let a := fresh "a" in
      let r := fresh "r" in
      destruct answers as [|[a|r] answers];
      cbn -[newPhoto] in H; rewrite ?Hf in H; cbn -[newPhoto] in H;
      try discriminate H
  end.

(** X11 (an upload that throws).
    A call that throws leaves no trace.  When uploadPhoto ends in its
    [catch] clause, at whichever await, [photos] is as it was, nothing was
    downloaded, no panel was added and no timer set; the progress element is
    on the page, hidden, and the reason thrown is the one the console shows. *)
Theorem uploadPhoto_failure_leaves_no_trace
    (c : Clock) (message : string) (answers : list (Settled string)) (s s' : t) (r : Reason) :
  upload c message answers s = (s', Thrown r) →
  untouched s s' ∧ progress_hidden s'
  ∧ console s' = console s ++ [ConsoleError "上传失败:" r].
Proof.
  unfold upload, uploadPhoto. intros H.
  destruct (has_fetch s) eqn:Hf.
  all: do 8 (try next_answer H Hf).
  all: injection H as <- <-; split_and!; [done|by eexists|done].
Qed.

(** X12 (an upload that returns).
    What a call that returns has done.  uploadPhoto returns only on an
    instance that has a [fetch], after all of its awaits were fulfilled.  The
    record returned is named after [Date.now()]; it is the new head of
    [photos]; the [photos.json] downloaded lists it first; one panel offers
    its two files; the progress element shows 100% and one timer is set,
    which hides it. *)
Theorem uploadPhoto_success
    (c : Clock) (message : string) (answers : list (Settled string)) (s s' : t) (p : Photo) :
  upload c message answers s = (s', Returned p) →
  has_fetch s = true
  ∧ p = newPhoto c message (now c)
  ∧ filename p = "photo_" +:+ id p +:+ ".jpg"
  ∧ thumbnail p = "thumb_" +:+ id p +:+ ".jpg"
  ∧ photos s' = p :: photos s
  ∧ downloads s' = downloads s ++ [PhotosJson (p :: photos s)]
  ∧ (∃ base64 thumbnailBase64,
       instructions s' = instructions s ++ [mkInstructions p base64 thumbnailBase64])
  ∧ ghPagesUploadProgress s' = Some (mkProgress 100 "block")
  ∧ hide_timers s' = S (hide_timers s)
  ∧ progress_hidden (hideTimeout s')
  ∧ console s' = console s
  ∧ (7 ≤ length answers)%nat.
Proof.
  unfold upload, uploadPhoto. intros H.
  destruct (has_fetch s) eqn:Hf.
  all: do 8 (try next_answer H Hf).
  all: try discriminate H.
  all: injection H as <- <-; split_and!; try done;
    [by eexists _, _|by eexists|simpl; lia].
Qed.

(** X13 (the missing [fetch]).
    The class defines no [fetch].  On an instance that was not given one,
    [this.fetch(dataUrl)] throws as soon as the file has been read: whatever
    the file, uploadPhoto throws at its first await, so it never returns a
    record, and by then nothing but the console and the progress element has
    changed. *)
Theorem uploadPhoto_without_fetch_always_throws
    (c : Clock) (message : string) (a : Settled string) (answers : list (Settled string))
    (s : t) :
  has_fetch s = false →
  ∃ r, (upload c message (a :: answers) s).2 = Thrown r
       ∧ untouched s (upload c message (a :: answers) s).1
       ∧ progress_hidden (upload c message (a :: answers) s).1
       ∧ (∀ dataUrl, a = Fulfilled dataUrl → r = fetch_TypeError).
Proof.
  intros Hf. unfold upload, uploadPhoto. destruct a as [dataUrl|r]; cbn; rewrite ?Hf; cbn.
  - eexists. split_and!; [done|done|by eexists|done].
  - exists r. split_and!; [done|done|by eexists|done].
Qed.

(** ** deletePhoto *)

Lemma filter_filter_same {A} (P : A → Prop) `{∀ x, Decision (P x)} (l : list A) :
  filter P (filter P l) = filter P l.
Proof.
  induction l as [|x l IH]; [done|]. rewrite filter_cons.
  destruct (decide (P x)); [|done]. by rewrite filter_cons_True, IH.
Qed.

Lemma filter_all_id {A} (P : A → Prop) `{∀ x, Decision (P x)} (l : list A) :
  Forall P l → filter P l = l.
Proof. induction 1 as [|x l Hx _ IH]; [done|]. by rewrite filter_cons_True, IH. Qed.

(** X14 (deletePhoto).
    deletePhoto removes by id and always saves.  Every record with the id
    goes (ids are timestamps, two records can share one), the others stay in
    order; the [photos.json] downloaded is the new list, and it is
    downloaded even when no record had the id; a second call removes nothing
    more. *)
Theorem deletePhoto_removes_by_id (photoId : string) (s : t) :
  let s' := (deletePhoto photoId s).1 in
  Forall (λ p, id p ≠ photoId) (photos s')
  ∧ photos s' `sublist_of` photos s
  ∧ (∀ p, p ∈ photos s → id p ≠ photoId → p ∈ photos s')
  ∧ downloads s' = downloads s ++ [PhotosJson (photos s')]
  ∧ (Forall (λ p, id p ≠ photoId) (photos s) → photos s' = photos s)
  ∧ photos (deletePhoto photoId s').1 = photos s'.
Proof.
  cbn. split_and!.
  - apply Forall_forall. by intros p [? _]%list_elem_of_filter.
  - apply sublist_filter.
  - intros p Hp Hid. by apply list_elem_of_filter.
  - done.
  - apply filter_all_id.
  - apply filter_filter_same.
Qed.

(** ** The manifest *)

Lemma hideUploadProgress_frame s :
  photos (hideUploadProgress s) = photos s
  ∧ downloads (hideUploadProgress s) = downloads s.
Proof. unfold hideUploadProgress. by destruct (ghPagesUploadProgress s). Qed.

Lemma resumeUpload_saves c st a s :
  (photos (resumeUpload c st a s).1 = photos s
   ∧ downloads (resumeUpload c st a s).1 = downloads s)
  ∨ downloads (resumeUpload c st a s).1
    = downloads s ++ [PhotosJson (photos (resumeUpload c st a s).1)].
Proof.
  destruct st, a; cbn -[newPhoto hideUploadProgress];
    try destruct (has_fetch s); cbn -[newPhoto hideUploadProgress];
    rewrite ?(proj1 (hideUploadProgress_frame _)), ?(proj2 (hideUploadProgress_frame _));
    by (left + right).
Qed.

(** A step changes [photos] only together with a download of the new list. *)
Lemma step_saves pg e :
  (photos (store (step pg e)) = photos (store pg)
   ∧ downloads (store (step pg e)) = downloads (store pg))
  ∨ downloads (store (step pg e))
    = downloads (store pg) ++ [PhotosJson (photos (store (step pg e)))].
Proof.
  destruct e as [message|k c a|photoId|]; cbn [step].
  - by left.
  - destruct (uploads pg !! k) as [st|]; [|by left].
    pose proof (resumeUpload_saves c st a (store pg)) as H.
    by destruct (resumeUpload c st a (store pg)) as [s o].
  - by right.
  - left. unfold hideTimeout. destruct (hide_timers (store pg)); [done|].
    cbn [store]. by rewrite (proj1 (hideUploadProgress_frame _)),
                            (proj2 (hideUploadProgress_frame _)).
Qed.

(** X21 (the manifest is never stale).
    Whatever calls of uploadPhoto and deletePhoto are made, however their
    awaits settle and interleave: either [photos] and the downloads are what
    they were at the start, or the [photos.json] downloaded last lists exactly
    the current [photos].  No upload or deletion changes the list without
    handing the new list to the browser. *)
Theorem manifest_never_stale (pg : Page) (es : list Event) :
  (photos (store (run pg es)) = photos (store pg)
   ∧ downloads (store (run pg es)) = downloads (store pg))
  ∨ manifest_current (store (run pg es)).
Proof.
  assert (∀ pg', (photos (store pg') = photos (store pg)
                  ∧ downloads (store pg') = downloads (store pg))
                 ∨ manifest_current (store pg') →
                 (photos (store (run pg' es)) = photos (store pg)
                  ∧ downloads (store (run pg' es)) = downloads (store pg))
                 ∨ manifest_current (store (run pg' es))) as Hrun.
  { induction es as [|e es IH]; intros pg' Hpg'; [done|].
    unfold run in *. cbn [foldl]. apply IH.
    destruct (step_saves pg' e) as [[Hp Hd]|Hd].
    - unfold manifest_current. rewrite Hp, Hd. exact Hpg'.
    - right. unfold manifest_current. rewrite Hd. apply last_snoc. }
  apply Hrun. by left.
Qed.

(** ** compressImage *)

Lemma round_div_bounds a b :
  0 ≤ a → 0 < b →
  2 * b * round_div a b ≤ 2 * a + b < 2 * b * (round_div a b + 1).
Proof.
  intros Ha Hb. unfold round_div.
  pose proof (Z.mul_div_le (2 * a + b) (2 * b) ltac:(lia)).
  pose proof (Z.mul_succ_div_gt (2 * a + b) (2 * b) ltac:(lia)).
  lia.
Qed.

(** X15 (the canvas of compressImage).
    The canvas of compressImage, for an image and a [maxSize] of positive
    sizes below 2^26 (where the double arithmetic of the scaling is exact
    enough).  An image within [maxSize] keeps its size.  A larger one gets
    its long side set to [maxSize] and its short side to the nearest integer
    of the exact scaling (halves up): neither side grows or exceeds
    [maxSize], and the short side is [0] exactly when the image is more than
    [2 * maxSize] times longer than wide (or wider than long). *)
Theorem compressImage_canvas (width height maxSize : Z) :
  exact_pixels width → exact_pixels height → exact_pixels maxSize →
  let '(w, h) := compressImage_size width height maxSize in
  0 ≤ w ≤ Z.min width maxSize ∧ 0 ≤ h ≤ Z.min height maxSize
  ∧ (width ≤ maxSize ∧ height ≤ maxSize → w = width ∧ h = height)
  ∧ (maxSize < width ∨ maxSize < height →
     Z.max w h = maxSize
     ∧ (height < width → -width < 2 * (h * width - height * maxSize) ≤ width)
     ∧ (width ≤ height → -height < 2 * (w * height - width * maxSize) ≤ height))
  ∧ (w = 0 ∨ h = 0 ↔ 2 * maxSize * Z.min width height < Z.max width height
                      ∧ maxSize < Z.max width height).
Proof.
  intros [Hw _] [Hh _] [Hm _]. unfold compressImage_size.
  case_bool_decide as Hbig; [|lia].
  case_bool_decide as Hwide.
  - pose proof (round_div_bounds (height * maxSize) width ltac:(lia) Hw) as Hr.
    set (h := round_div (height * maxSize) width) in *.
    assert (maxSize < width) as Hmw by lia.
    assert (0 ≤ h) by nia.
    assert (h ≤ maxSize).
    { apply Z.nlt_ge. intros Hlt.
      assert (2 * width * (maxSize + 1) ≤ 2 * width * h) by nia. nia. }
    assert (h ≤ height).
    { apply Z.nlt_ge. intros Hlt.
      assert (2 * width * (height + 1) ≤ 2 * width * h) by nia. nia. }
    split_and!; try lia. split.
    + intros [?|Hz]; [lia|]. split; [|lia]. nia.
    + intros [? ?]. right. nia.
  - pose proof (round_div_bounds (width * maxSize) height ltac:(lia) Hh) as Hr.
    set (w := round_div (width * maxSize) height) in *.
    assert (maxSize < height) as Hmw by lia.
    assert (0 ≤ w) by nia.
    assert (w ≤ maxSize).
    { apply Z.nlt_ge. intros Hlt.
      assert (2 * height * (maxSize + 1) ≤ 2 * height * w) by nia. nia. }
    assert (w ≤ width).
    { apply Z.nlt_ge. intros Hlt.
      assert (2 * height * (width + 1) ≤ 2 * height * w) by nia. nia. }
    split_and!; try lia. split.
    + intros [Hz|?]; [|lia]. split; [|lia]. nia.
    + intros [? ?]. left. nia.
Qed.

(** ** blobToBase64 *)

Lemma split_no_sep sep s : sep ∉ chars s → split sep s = [s].
Proof.
  induction s as [|c s IH]; [done|]. cbn [chars split]. intros Hs.
  rewrite bool_decide_false by (intros ->; apply Hs; by left).
  rewrite IH; [done|]. intros Hin. apply Hs. by right.
Qed.

Lemma split_prefix sep p rest :
  sep ∉ chars p → split sep (p +:+ String sep rest) = p :: split sep rest.
Proof.
  induction p as [|c p IH]; intros Hp.
  - change (split sep (String sep rest) = EmptyString :: split sep rest).
    cbn [split]. by rewrite bool_decide_true.
  - change (String c p +:+ String sep rest) with (String c (p +:+ String sep rest)).
    cbn [split chars] in *.
    rewrite bool_decide_false by (intros ->; apply Hp; by left).
    rewrite IH; [done|]. intros Hin. apply Hp. by right.
Qed.

(** X16 (the payload of a data URL).
    The payload of a data URL.  blobToBase64 resolves with what follows the
    first comma of [reader.result] up to the next one: for
    [<header>,<payload>] with no comma in either part, as [readAsDataURL]
    produces them, with the payload; for a result without a comma, with
    [undefined]. *)
Theorem blobToBase64_payload (header payload : string) :
  comma ∉ chars header →
  comma ∉ chars payload →
  blobToBase64 (Fulfilled (header +:+ "," +:+ payload)) = Fulfilled (Some payload)
  ∧ blobToBase64 (Fulfilled header) = Fulfilled None.
Proof.
  intros Hh Hp. unfold blobToBase64. split.
  - change ("," +:+ payload) with (String comma payload).
    by rewrite split_prefix, split_no_sep.
  - by rewrite split_no_sep.
Qed.

End Storage.
(** * The thumbnail script *)

Section Script.

Import Regenerate.

Local Abbreviation Photo := GitHubPagesStorage.Photo.
Local Abbreviation file_name := GitHubPagesStorage.filename.

(** ** The metadata *)

Lemma same_but_thumbnail_refl (ps : list Photo) : Forall2 same_but_thumbnail ps ps.
Proof. induction ps; by constructor. Qed.

Lemma same_but_thumbnail_trans (ps qs rs : list Photo) :
  Forall2 same_but_thumbnail ps qs → Forall2 same_but_thumbnail qs rs →
  Forall2 same_but_thumbnail ps rs.
Proof.
  intros H. revert rs. induction H as [|p q ps qs Hpq _ IH]; intros rs Hr.
  - by inversion Hr.
  - inversion Hr as [|? r ? rs' Hqr Hrest]; subst. constructor; [|by apply IH].
    unfold same_but_thumbnail in *.
    destruct Hpq as (? & ? & ? & ? & ? & ?), Hqr as (? & ? & ? & ? & ? & ?).
    split_and!; congruence.
Qed.

Lemma updateMetadata_same_but_thumbnail f (ps : list Photo) :
  Forall2 same_but_thumbnail ps (updateMetadata f ps).
Proof.
  induction ps as [|p ps IH]; [constructor|]. cbn [updateMetadata].
  case_bool_decide; constructor; try done. apply same_but_thumbnail_refl.
Qed.

Lemma updateMetadata_canonical f (ps : list Photo) :
  Forall canonical ps → updateMetadata f ps = ps.
Proof.
  induction 1 as [|p ps Hp _ IH]; [done|]. cbn [updateMetadata].
  case_bool_decide as Hf; [|by rewrite IH].
  f_equal. unfold canonical in Hp. destruct p; cbn in *. by subst.
Qed.

Lemma updateMetadata_idemp f (ps : list Photo) :
  updateMetadata f (updateMetadata f ps) = updateMetadata f ps.
Proof.
  induction ps as [|p ps IH]; [done|]. cbn [updateMetadata].
  case_bool_decide as Hf; cbn [updateMetadata GitHubPagesStorage.filename].
  - by rewrite bool_decide_true.
  - by rewrite bool_decide_false, IH.
Qed.

Lemma updateMetadata_comm f g (ps : list Photo) :
  updateMetadata f (updateMetadata g ps) = updateMetadata g (updateMetadata f ps).
Proof.
  destruct (decide (f = g)) as [->|Hfg]; [done|].
  induction ps as [|p ps IH]; [done|]. cbn [updateMetadata].
  case_bool_decide as Hg; case_bool_decide as Hf;
    cbn [updateMetadata GitHubPagesStorage.filename].
  - congruence.
  - by rewrite bool_decide_false, bool_decide_true.
  - by rewrite bool_decide_true, bool_decide_false by congruence.
  - by rewrite !bool_decide_false, IH.
Qed.

Lemma updates_same_but_thumbnail (fs : list string) (ps : list Photo) :
  Forall2 same_but_thumbnail ps (foldl (λ ps f, updateMetadata f ps) ps fs).
Proof.
  revert ps. induction fs as [|f fs IH]; intros ps; cbn [foldl].
  - apply same_but_thumbnail_refl.
  - eapply same_but_thumbnail_trans; [apply updateMetadata_same_but_thumbnail|apply IH].
Qed.

(** The metadata after the loop: one assignment per file generated. *)
Lemma loop_metadata (l : Loop) (files : list (string * FileOutcome)) :
  metadata_photos (foldl processImage l files)
  = foldl (λ ps f, updateMetadata f ps) (metadata_photos l) (filter generated files).*1.
Proof.
  revert l. induction files as [|[f o] files IH]; intros l; [done|].
  cbn [foldl]. rewrite IH. rewrite filter_cons. unfold generated at 2.
  destruct o; cbn; done.
Qed.

Lemma updates_settled (fs : list string) (ps : list Photo) f :
  updateMetadata f ps = ps →
  updateMetadata f (foldl (λ ps f, updateMetadata f ps) ps fs)
  = foldl (λ ps f, updateMetadata f ps) ps fs.
Proof.
  revert ps. induction fs as [|g fs IH]; intros ps Hf; [done|].
  cbn [foldl]. apply IH. by rewrite updateMetadata_comm, Hf.
Qed.

Lemma updates_all_settled (fs : list string) (ps : list Photo) :
  Forall (λ f, updateMetadata f (foldl (λ ps f, updateMetadata f ps) ps fs)
               = foldl (λ ps f, updateMetadata f ps) ps fs) fs.
Proof.
  revert ps. induction fs as [|g fs IH]; intros ps; [constructor|].
  cbn [foldl]. constructor; [|apply IH].
  apply updates_settled, updateMetadata_idemp.
Qed.

Lemma updates_fixed (fs : list string) (ps : list Photo) :
  Forall (λ f, updateMetadata f ps = ps) fs →
  foldl (λ ps f, updateMetadata f ps) ps fs = ps.
Proof.
  induction 1 as [|f fs Hf _ IH]; [done|]. cbn [foldl]. by rewrite Hf.
Qed.

(** X17 (a second run).
    A second run changes no metadata.  After processImages the first
    record of every file generated carries the name of its thumbnail, so
    running the script again over the same files leaves the metadata exactly
    as the first run wrote them. *)
Theorem processImages_twice (metadata : list Photo) (files : list (string * FileOutcome)) :
  let once := metadata_photos (final (processImages metadata files)) in
  metadata_photos (final (processImages once files)) = once.
Proof.
  cbn zeta. unfold processImages. cbn [final]. rewrite !loop_metadata.
  cbn [metadata_photos]. apply updates_fixed, updates_all_settled.
Qed.

(** X18 (names of uploads and of the script).
    Uploads and the script agree on names.  uploadPhoto names the files of a
    record [photo_<t>.jpg] and [thumb_<t>.jpg]; the script derives the very
    same thumbnail name from the file name.  So metadata made of uploaded
    records come out of processImages unchanged, whichever files it
    processes and however they fare. *)
Theorem processImages_keeps_uploaded_records
    (metadata : list Photo) (files : list (string * FileOutcome)) :
  Forall uploaded metadata →
  Forall canonical metadata
  ∧ metadata_photos (final (processImages metadata files)) = metadata.
Proof.
  intros Hup.
  assert (Forall canonical metadata) as Hcan.
  { eapply Forall_impl; [exact Hup|]. intros p (c & msg & ts & ->). reflexivity. }
  split; [done|]. unfold processImages. cbn [final]. rewrite loop_metadata.
  cbn [metadata_photos]. apply updates_fixed.
  apply Forall_forall. intros f _. by apply updateMetadata_canonical.
Qed.

(** ** The counters *)

Lemma loop_counts (l : Loop) (files : list (string * FileOutcome)) :
  let l' := foldl processImage l files in
  successCount l' = successCount l + Z.of_nat (length (filter generated files))
  ∧ errorCount l' = errorCount l + Z.of_nat (length files - length (filter generated files))
  ∧ totalThumbnailSize l' = totalThumbnailSize l + total thumbnail_bytes files
  ∧ totalOriginalSize l' = totalOriginalSize l + total original_bytes files.
Proof.
  revert l. induction files as [|[f o] files IH]; intros l; cbn zeta.
  { cbn. lia. }
  cbn [foldl]. specialize (IH (processImage l (f, o))). cbn zeta in IH.
  destruct IH as (IH1 & IH2 & IH3 & IH4). rewrite IH1, IH2, IH3, IH4.
  pose proof (length_filter generated files) as Hle.
  rewrite filter_cons. unfold generated at 2 4. cbn [total foldr]. fold (total thumbnail_bytes files).
  fold (total original_bytes files).
  assert (thumbnail_bytes (f, o) = match o with Generated _ t => t | _ => 0 end) as ->
    by done.
  assert (original_bytes (f, o)
          = match o with
            | StatFails => 0
            | GenerateFails sz | ThumbnailStatFails sz | Generated sz _ => sz
            end) as -> by done.
  destruct o; cbn [processImage snd fst successCount errorCount totalThumbnailSize
                   totalOriginalSize];
    rewrite ?decide_False, ?decide_True by (cbn; tauto); cbn [length];
    clear IH1 IH2 IH3 IH4; set (n := length (filter _ files)) in *; split_and!; lia.
Qed.

(** X19 (the summary of a run).
    The summary of a run.  Every file counts once, as a success or as an
    error; the records keep everything but their thumbnail; the metadata are
    written exactly when a thumbnail was generated, with [total] the number of
    records; the original size counts every file that could be read, also
    those whose thumbnail failed, so for sizes that are not negative it is at
    least what the files behind the thumbnails weigh. *)
Theorem processImages_summary (metadata : list Photo) (files : list (string * FileOutcome)) :
  let report := processImages metadata files in
  let l := final report in
  successCount l = Z.of_nat (length (filter generated files))
  ∧ successCount l + errorCount l = Z.of_nat (length files)
  ∧ Forall2 same_but_thumbnail metadata (metadata_photos l)
  ∧ saved report
    = (if bool_decide (Exists generated files)
       then Some (metadata_photos l, Z.of_nat (length metadata)) else None)
  ∧ totalThumbnailSize l = total thumbnail_bytes files
  ∧ totalOriginalSize l = total original_bytes files
  ∧ (Forall (λ file, 0 ≤ original_bytes file) files →
     total original_bytes (filter generated files) ≤ totalOriginalSize l).
Proof.
  cbn zeta. unfold processImages. cbn [final saved].
  pose proof (loop_counts (mkLoop 0 0 0 0 [] metadata) files) as H. cbn zeta in H.
  destruct H as (H1 & H2 & H3 & H4). cbn [successCount errorCount totalThumbnailSize
                                          totalOriginalSize] in *.
  pose proof (length_filter generated files) as Hle.
  assert (Forall2 same_but_thumbnail metadata
            (metadata_photos (foldl processImage (mkLoop 0 0 0 0 [] metadata) files)))
    as Hmeta.
  { rewrite loop_metadata. apply updates_same_but_thumbnail. }
  split_and!; [lia|lia|done| |lia|lia|].
  - rewrite H1. rewrite (Forall2_length _ _ _ Hmeta).
    case_bool_decide as Hpos; case_bool_decide as Hex; try done.
    + exfalso. apply Hex. destruct (filter generated files) as [|file l] eqn:Hfl;
        [simpl in Hpos; lia|].
      apply Exists_exists. exists file.
      assert (file ∈ filter generated files) as Hin by (rewrite Hfl; by left).
      by apply list_elem_of_filter in Hin as [? ?].
    + exfalso. apply Exists_exists in Hex as (file & Hin & Hg).
      assert (file ∈ filter generated files) as Hin' by (by apply list_elem_of_filter).
      destruct (filter generated files); [by apply elem_of_nil in Hin'|simpl in Hpos; lia].
  - intros Hnn. rewrite H4. clear -Hnn.
    induction Hnn as [|file files Hf _ IH]; [done|].
    rewrite filter_cons. unfold total in *. destruct (decide _); cbn [foldr]; lia.
Qed.

(** ** The thumbnails written *)

Lemma loop_written (l : Loop) (files : list (string * FileOutcome)) f :
  f ∈ (filter generated files).*1 →
  thumbnailFilename f ∈ written (foldl processImage l files).
Proof.
  assert (∀ files l x, x ∈ written l → x ∈ written (foldl processImage l files)) as Hkeep.
  { clear. induction files as [|[g o] files IH]; intros l x Hx; [done|].
    cbn [foldl]. apply IH. destruct o; cbn; try done; apply elem_of_app; by left. }
  revert l. induction files as [|[g o] files IH]; intros l Hf.
  { by apply elem_of_nil in Hf. }
  cbn [foldl]. rewrite filter_cons in Hf. unfold generated at 1 in Hf.
  destruct o; cbn in Hf; try (by apply IH).
  apply elem_of_cons in Hf as [->|Hf]; [|by apply IH].
  apply Hkeep. cbn. apply elem_of_app. right. by left.
Qed.

Lemma updateMetadata_find f (ps : list Photo) i p :
  updateMetadata f ps = ps →
  list_find (λ p, file_name p = f) ps = Some (i, p) →
  GitHubPagesStorage.thumbnail p = thumbnailFilename f.
Proof.
  revert i. induction ps as [|q ps IH]; intros i Hfix Hfind; [done|].
  cbn [updateMetadata] in Hfix. cbn [list_find] in Hfind.
  case_bool_decide as Hq.
  - rewrite decide_True in Hfind by done. injection Hfind as <- <-.
    injection Hfix as Hhead. by rewrite <- Hhead.
  - rewrite decide_False in Hfind by done. injection Hfix as Hrest.
    destruct (list_find _ ps) as [[j r]|] eqn:Hj; [|done].
    injection Hfind as <- <-. by eapply IH.
Qed.

(** X20 (the thumbnail of a record).
    The page finds what the script wrote.  After a run, the record that
    [findIndex] selects for a file whose thumbnail was generated carries the
    name of that thumbnail: getThumbnailUrl sends the page to
    [thumbnails/thumb_...], a file that this run has written. *)
Theorem processImages_record_points_to_thumbnail
    (metadata : list Photo) (files : list (string * FileOutcome))
    (f : string) (i : nat) (p : Photo) :
  f ∈ (filter generated files).*1 →
  list_find (λ p, file_name p = f) (metadata_photos (final (processImages metadata files)))
  = Some (i, p) →
  GitHubPagesStorage.getThumbnailUrl p = "thumbnails/" +:+ thumbnailFilename f
  ∧ GitHubPagesStorage.thumbnail p ∈ written (final (processImages metadata files)).
Proof.
  intros Hf Hfind.
  assert (GitHubPagesStorage.thumbnail p = thumbnailFilename f) as Hp.
  { eapply updateMetadata_find; [|exact Hfind].
    unfold processImages. cbn [final]. rewrite loop_metadata. cbn [metadata_photos].
    pose proof (updates_all_settled (filter generated files).*1 metadata) as Hall.
    rewrite Forall_forall in Hall. by apply Hall. }
  split.
  - unfold GitHubPagesStorage.getThumbnailUrl. by rewrite Hp.
  - rewrite Hp. unfold processImages. cbn [final]. by apply loop_written.
Qed.

End Script.
(** * The further properties on samples *)

Lemma scroll_burst_requests_at_most_once_witness :
  Forall scroll_only scroll_burst
  ∧ inThrottle (run sample_url false sample_world scroll_burst) = true
  ∧ network (run sample_url false sample_world scroll_burst) = [GetListing 2 20].
Proof.
  assert (Forall scroll_only scroll_burst) as Hq by (repeat constructor).
  pose proof (scroll_burst_requests_at_most_once sample_url false sample_world scroll_burst Hq)
    as (_ & Ht & Hn).
  split; [exact Hq|]. split; [apply Ht; discriminate|].
  destruct Hn as [[Hn _]|(_ & _ & _ & Hn & _)]; [vm_compute in Hn; discriminate Hn|exact Hn].
Defined.

Lemma render_in_response_order_witness :
  plain_records sample_url [photo_b; photo_a]
  ∧ mounted rendered_world
  ∧ rendered_ids (document rendered_world) = ["a"]
  ∧ rendered_ids (document (renderPhotosOptimized sample_url false [photo_b; photo_a] true
                              rendered_world))
    = ["a"; "b"; "a"]
  ∧ item_index <$> photo_items (document (renderPhotosOptimized sample_url false
                                            [photo_b; photo_a] true rendered_world))
    = [0; 0; 1]%nat.
Proof.
  assert (plain_records sample_url [photo_b; photo_a]) as Hp.
  { split; [reflexivity|]. repeat constructor. }
  assert (mounted rendered_world) as Hm by (eexists; reflexivity).
  pose proof (render_in_response_order sample_url false [photo_b; photo_a] true
                rendered_world Hp Hm) as [Hids _].
  split; [exact Hp|]. split; [exact Hm|]. split; [reflexivity|].
  split; [exact Hids|reflexivity].
Defined.

Lemma page_keeps_matching_photos_witness :
  plain_text sample_url ∧ Forall plain_event two_pages_events
  ∧ page_matches_photos sample_world
  ∧ page_matches_photos (run sample_url false sample_world two_pages_events)
  ∧ rendered_ids (document (run sample_url false sample_world two_pages_events))
    = ["a"; "b"; "a"].
Proof.
  assert (plain_text sample_url) as Hu by reflexivity.
  assert (Forall plain_event two_pages_events) as He by (repeat constructor).
  assert (page_matches_photos sample_world) as Hw.
  { split; [exists []; reflexivity|reflexivity]. }
  split; [exact Hu|]. split; [exact He|]. split; [exact Hw|].
  split; [|reflexivity].
  exact (page_keeps_matching_photos sample_url false sample_world two_pages_events Hu He Hw).
Defined.


Lemma indicator_and_button_stay_unique_witness :
  plain_text sample_url ∧ Forall plain_event two_pages_events
  ∧ unique_ids (document sample_world)
  ∧ unique_ids (document (run sample_url false sample_world two_pages_events))
  ∧ count_of is_indicator (document (run sample_url false sample_world two_pages_events))
    = 1%nat
  ∧ count_of is_loadMore (document (run sample_url false sample_world two_pages_events))
    = 1%nat.
Proof.
  assert (plain_text sample_url) as Hu by reflexivity.
  assert (Forall plain_event two_pages_events) as He by (repeat constructor).
  assert (unique_ids (document sample_world)) as Hw by (split; vm_compute; lia).
  split; [exact Hu|]. split; [exact He|]. split; [exact Hw|].
  split; [|split; reflexivity].
  exact (indicator_and_button_stay_unique sample_url false sample_world two_pages_events
           Hu He Hw).
Defined.



Lemma addLog_keeps_newest_witness :
  length (Logger.logs full_logger) = Logger.maxLogs
  ∧ Logger.logs (LoggerOps.addLogs full_logger
                   [Logger.mkLog Logger.ERROR "NET" "down";
                    Logger.mkLog Logger.WARN "NET" "slow"])
    = replicate 498 (Logger.mkLog Logger.DEBUG "APP" "tick")
      ++ [Logger.mkLog Logger.ERROR "NET" "down"; Logger.mkLog Logger.WARN "NET" "slow"]
  ∧ length (Logger.logs (LoggerOps.addLogs full_logger
                           [Logger.mkLog Logger.ERROR "NET" "down";
                            Logger.mkLog Logger.WARN "NET" "slow"])) = Logger.maxLogs.
Proof.
  assert (length (Logger.logs full_logger) = Logger.maxLogs) as Hfull by reflexivity.
  assert (length (Logger.logs full_logger) ≤ Logger.maxLogs)%nat as Hl
    by (rewrite Hfull; lia).
  destruct (addLog_keeps_newest full_logger
              [Logger.mkLog Logger.ERROR "NET" "down"; Logger.mkLog Logger.WARN "NET" "slow"]
              Hl) as [Hlogs _].
  split; [exact Hfull|]. rewrite Hlogs. split; reflexivity.
Defined.

Lemma panel_shows_every_recorded_entry_witness :
  Forall LoggerOps.logging sample_calls
  ∧ LoggerOps.refreshPanel sample_logger = Logger.logs sample_logger
  ∧ LoggerOps.refreshPanel (LoggerOps.calls sample_logger sample_calls)
    = Logger.logs (LoggerOps.calls sample_logger sample_calls).
Proof.
  assert (Forall LoggerOps.logging sample_calls) as Hc by (repeat constructor).
  assert (LoggerOps.refreshPanel sample_logger = Logger.logs sample_logger) as Hs
    by reflexivity.
  split; [exact Hc|]. split; [exact Hs|].
  exact (proj2 (panel_shows_every_recorded_entry sample_logger sample_calls Hc Hs)).
Defined.

Lemma uploadPhoto_failure_leaves_no_trace_witness :
  GitHubPagesStorage.upload sample_clock "hello"
    [GitHubPagesStorage.Fulfilled "data:image/png;base64,AAAA";
     GitHubPagesStorage.Rejected (GitHubPagesStorage.Evt "error")] storage_with_fetch
  = ((GitHubPagesStorage.upload sample_clock "hello"
        [GitHubPagesStorage.Fulfilled "data:image/png;base64,AAAA";
         GitHubPagesStorage.Rejected (GitHubPagesStorage.Evt "error")] storage_with_fetch).1,
     GitHubPagesStorage.Thrown (GitHubPagesStorage.Evt "error"))
  ∧ untouched storage_with_fetch
      (GitHubPagesStorage.upload sample_clock "hello"
         [GitHubPagesStorage.Fulfilled "data:image/png;base64,AAAA";
          GitHubPagesStorage.Rejected (GitHubPagesStorage.Evt "error")] storage_with_fetch).1.
Proof.
  assert (GitHubPagesStorage.upload sample_clock "hello"
            [GitHubPagesStorage.Fulfilled "data:image/png;base64,AAAA";
             GitHubPagesStorage.Rejected (GitHubPagesStorage.Evt "error")] storage_with_fetch
          = ((GitHubPagesStorage.upload sample_clock "hello"
                [GitHubPagesStorage.Fulfilled "data:image/png;base64,AAAA";
                 GitHubPagesStorage.Rejected (GitHubPagesStorage.Evt "error")]
                storage_with_fetch).1,
             GitHubPagesStorage.Thrown (GitHubPagesStorage.Evt "error"))) as H
    by reflexivity.
  split; [exact H|].
  exact (proj1 (uploadPhoto_failure_leaves_no_trace _ _ _ _ _ _ H)).
Defined.

Lemma uploadPhoto_success_witness :
  GitHubPagesStorage.upload sample_clock "hello" sample_answers storage_with_fetch
  = ((GitHubPagesStorage.upload sample_clock "hello" sample_answers storage_with_fetch).1,
     GitHubPagesStorage.Returned sample_upload)
  ∧ GitHubPagesStorage.filename sample_upload = "photo_1700000000000.jpg"
  ∧ GitHubPagesStorage.photos
      (GitHubPagesStorage.upload sample_clock "hello" sample_answers storage_with_fetch).1
    = [sample_upload].
Proof.
  assert (GitHubPagesStorage.upload sample_clock "hello" sample_answers storage_with_fetch
          = ((GitHubPagesStorage.upload sample_clock "hello" sample_answers
                storage_with_fetch).1,
             GitHubPagesStorage.Returned sample_upload)) as H by reflexivity.
  pose proof (uploadPhoto_success _ _ _ _ _ _ H) as (_ & _ & Hf & _ & Hp & _).
  split; [exact H|]. split; [exact Hf|exact Hp].
Defined.

Lemma uploadPhoto_without_fetch_always_throws_witness :
  GitHubPagesStorage.has_fetch GitHubPagesStorage.fresh = false
  ∧ ∃ r, (GitHubPagesStorage.upload sample_clock "hello" sample_answers
            GitHubPagesStorage.fresh).2
         = GitHubPagesStorage.Thrown r.
Proof.
  split; [reflexivity|].
  destruct (uploadPhoto_without_fetch_always_throws sample_clock "hello"
              (GitHubPagesStorage.Fulfilled "data:image/png;base64,AAAA")
              (tail sample_answers) GitHubPagesStorage.fresh eq_refl) as (r & Hr & _).
  exists r. exact Hr.
Defined.

Lemma compressImage_canvas_witness :
  exact_pixels 4000 ∧ exact_pixels 3000 ∧ exact_pixels 1920
  ∧ GitHubPagesStorage.compressImage_size 4000 3000 1920 = (1920, 1440)
  ∧ (GitHubPagesStorage.compressImage_size 4000 3000 1920).1 ≤ 1920
  ∧ (GitHubPagesStorage.compressImage_size 4000 3000 1920).2 ≤ 1920.
Proof.
  assert (exact_pixels 4000) as Hw by (unfold exact_pixels; lia).
  assert (exact_pixels 3000) as Hh by (unfold exact_pixels; lia).
  assert (exact_pixels 1920) as Hm by (unfold exact_pixels; lia).
  pose proof (compressImage_canvas 4000 3000 1920 Hw Hh Hm) as H.
  split; [exact Hw|]. split; [exact Hh|]. split; [exact Hm|].
  split; [reflexivity|].
  destruct (GitHubPagesStorage.compressImage_size 4000 3000 1920) as [w h].
  destruct H as ((_ & H1) & (_ & H2) & _). cbn [fst snd]. split; lia.
Defined.

Lemma blobToBase64_payload_witness :
  (comma ∉ chars "data:image/jpeg;base64")
  ∧ (comma ∉ chars "QUJD")
  ∧ GitHubPagesStorage.blobToBase64
      (GitHubPagesStorage.Fulfilled "data:image/jpeg;base64,QUJD")
    = GitHubPagesStorage.Fulfilled (Some "QUJD").
Proof.
  assert (comma ∉ chars "data:image/jpeg;base64") as Hh
    by (apply (bool_decide_unpack _); vm_compute; exact I).
  assert (comma ∉ chars "QUJD") as Hp by (apply (bool_decide_unpack _); vm_compute; exact I).
  split; [exact Hh|]. split; [exact Hp|].
  exact (proj1 (blobToBase64_payload "data:image/jpeg;base64" "QUJD" Hh Hp)).
Defined.

Lemma processImages_keeps_uploaded_records_witness :
  Forall uploaded [sample_upload]
  ∧ Regenerate.metadata_photos
      (Regenerate.final
         (Regenerate.processImages [sample_upload]
            [("photo_1700000000000.jpg", Regenerate.Generated 4096 512)]))
    = [sample_upload].
Proof.
  assert (Forall uploaded [sample_upload]) as Hu.
  { constructor; [|constructor]. exists sample_clock, "hello", 1700000000000. reflexivity. }
  split; [exact Hu|].
  exact (proj2 (processImages_keeps_uploaded_records [sample_upload]
                  [("photo_1700000000000.jpg", Regenerate.Generated 4096 512)] Hu)).
Defined.

Lemma processImages_record_points_to_thumbnail_witness :
  ("photo_1.jpg" ∈ (filter generated sample_files).*1)
  ∧ GitHubPagesStorage.getThumbnailUrl
      (GitHubPagesStorage.mkPhoto "1" "image" "first" "photo_1.jpg" "thumb_1.jpg"
                                  "2023/11/14" "2023-11-14T22:13:20.000Z")
    = "thumbnails/thumb_1.jpg".
Proof.
  assert ("photo_1.jpg" ∈ (filter generated sample_files).*1) as Hf
    by (apply (bool_decide_unpack _); vm_compute; exact I).
  split; [exact Hf|].
  exact (proj1 (processImages_record_points_to_thumbnail [old_record] sample_files
                  "photo_1.jpg" 0
                  (GitHubPagesStorage.mkPhoto "1" "image" "first" "photo_1.jpg" "thumb_1.jpg"
                     "2023/11/14" "2023-11-14T22:13:20.000Z")
                  Hf eq_refl)).
Defined.
